(** * SS14 YAML sanitizer: a shallow embedding of [yaml_sanitizer.py]

    The development follows the class [YAMLSanitizer]: the structural
    comparer ([_compare_values], [are_components_equal]), the field stripper
    ([_remove_redundant_fields]), the ancestor collector
    ([get_all_parent_components]), the eliminator ([sanitize_prototype]) and
    the field orderer ([_order_prototype_fields]).  Progress messages
    ([print]) are not part of any returned value and are left out. *)

From stdpp Require Import gmap strings list.
From Stdlib Require Import ZArith.

Local Open Scope string_scope.
Local Open Scope list_scope.
Local Open Scope nat_scope.

(** ** Exceptions

    Python code either returns or raises.  [RecursionError] is what the
    unguarded recursion of the collector ends in on a cyclic parent graph,
    [TypeError] is raised on hashing a list or a mapping and on iterating a
    value that is not iterable, [CompareError] stands for whatever an
    object's own [__eq__] raises. *)

Inductive exn := RecursionError | TypeError | CompareError.

Inductive result (A : Type) :=
| Ok (a : A)
| Raise (e : exn).
Arguments Ok {A} a.
Arguments Raise {A} e.

Global Instance result_ret : MRet result := fun A a => Ok a.
Global Instance result_bind : MBind result := fun A B f m =>
  match m with
  | Ok a => f a
  | Raise e => Raise e
  end.

(** ** Values

    What the round-trip loader hands to the sanitizer, by runtime class:
    - [VScalar cls p]: [None], a [bool], an [int] or a [str], or an instance
      of a subclass of these ([cls] names the class: with [preserve_quotes]
      a quoted string is a [DoubleQuotedScalarString], not a [str]); such an
      object has no [value] attribute and its [==] is that of its payload;
    - [VWrapper cls tag p]: an object that has a [value] attribute, as the
      loader's [TaggedScalar] for a tagged scalar; [tag] is its YAML tag;
    - [VOpaque cls]: an object of a class whose [__eq__] raises; the loader
      builds none, the signatures take [Any] and [are_components_equal]
      provides for it with its [try];
    - [VList cls items]: a sequence of class [cls];
    - [VDict cls items]: a mapping of class [cls], in key order, keys
      strings.
    The classes of sequences are [list] and the loader's [CommentedSeq];
    those of mappings are [dict], which a comprehension and [{}] build,
    [OrderedDict] and the loader's [CommentedMap].  [isinstance] takes each
    of them for a [list], or for a [dict]; [type] tells them apart;
    [copy.deepcopy] and the [copy] method of each of them give an object of
    the same class.  A document or a component that the code takes as a
    mapping is held by its items, a [dict] below: nothing that the code
    does depends on its class.
    Floating-point scalars are not part of the embedding. *)

Inductive seq_class := PyList | CommentedSeq.
Inductive map_class := PyDict | OrderedDict | CommentedMap.

Global Instance seq_class_eq_dec : EqDecision seq_class.
Proof. solve_decision. Defined.
Global Instance map_class_eq_dec : EqDecision map_class.
Proof. solve_decision. Defined.

Inductive prim :=
| PNone
| PBool (b : bool)
| PInt (z : Z)
| PStr (s : string).

Unset Elimination Schemes.
Inductive value :=
| VScalar (cls : string) (p : prim)
| VWrapper (cls tag : string) (p : prim)
| VOpaque (cls : string)
| VList (cls : seq_class) (items : list value)
| VDict (cls : map_class) (items : list (string * value)).
Set Elimination Schemes.

Abbreviation dict := (list (string * value)).

(** [type(v)]: the runtime class.  Classes of different kinds of object are
    different classes. *)
Inductive pytype :=
| TScalar (cls : string)
| TWrapper (cls : string)
| TOpaque (cls : string)
| TList (cls : seq_class)
| TDict (cls : map_class).

Global Instance pytype_eq_dec : EqDecision pytype.
Proof. solve_decision. Defined.

Definition type_of (v : value) : pytype :=
  match v with
  | VScalar cls _ => TScalar cls
  | VWrapper cls _ _ => TWrapper cls
  | VOpaque cls => TOpaque cls
  | VList cls _ => TList cls
  | VDict cls _ => TDict cls
  end.

(** Python's [==] on primitives: [True == 1] and [False == 0]; a string, a
    number and [None] are never equal to one another.  [hkey] is the class
    of a primitive under [==], which is also how a [dict] tells keys apart. *)
Inductive hkey :=
| HNone
| HInt (z : Z)
| HStr (s : string).

Global Instance hkey_eq_dec : EqDecision hkey.
Proof. solve_decision. Defined.

Definition hkey_of_prim (p : prim) : hkey :=
  match p with
  | PNone => HNone
  | PBool b => HInt (if b then 1%Z else 0%Z)
  | PInt z => HInt z
  | PStr s => HStr s
  end.

Definition prim_eqb (p q : prim) : bool :=
  bool_decide (hkey_of_prim p = hkey_of_prim q).

(** ** Mappings in key order

    The operations of a [dict] on an association list, for any type of
    values. *)

Fixpoint dict_get {V} (d : list (string * V)) (k : string) : option V :=
  match d with
  | [] => None
  | (k', v) :: d' => if decide (k' = k) then Some v else dict_get d' k
  end.

Definition dict_mem {V} (k : string) (d : list (string * V)) : bool :=
  bool_decide (is_Some (dict_get d k)).

Definition keys {V} (d : list (string * V)) : list string := d.*1.

(** [d[k] = v]: an existing key keeps its place, a new key goes last. *)
Fixpoint dict_set {V} (k : string) (v : V) (d : list (string * V)) : list (string * V) :=
  match d with
  | [] => [(k, v)]
  | (k', v') :: d' =>
      if decide (k' = k) then (k, v) :: d' else (k', v') :: dict_set k v d'
  end.

(** [del d[k]] *)
Definition dict_del {V} (k : string) (d : list (string * V)) : list (string * V) :=
  filter (λ kv, kv.1 ≠ k) d.

(** ** 4.1 The structural comparer *)

Section all_m.
Context {A : Type} (f : A → result bool).

(** [all(f(x) for x in l)]: stops at the first false, lets an exception
    through. *)
Fixpoint all_m (l : list A) : result bool :=
  match l with
  | [] => Ok true
  | x :: l' =>
      match f x with
      | Ok true => all_m l'
      | Ok false => Ok false
      | Raise e => Raise e
      end
  end.

End all_m.

Fixpoint _compare_values (val1 val2 : value) {struct val1} : result bool :=
  if negb (bool_decide (type_of val1 = type_of val2)) then Ok false
  else
    match val1, val2 with
    | VDict _ d1, VDict _ d2 =>
        all_m (λ kv, match dict_get d2 kv.1 with
                     | Some v2 => _compare_values kv.2 v2
                     | None => Ok false
                     end) d1
    | VList _ l1, VList _ l2 =>
        if negb (length l1 =? length l2)%nat then Ok false
        else
          (fix zip_all (l1 l2 : list value) : result bool :=
             match l1, l2 with
             | v1 :: l1', v2 :: l2' =>
                 match _compare_values v1 v2 with
                 | Ok true => zip_all l1' l2'
                 | Ok false => Ok false
                 | Raise e => Raise e
                 end
             | _, _ => Ok true
             end) l1 l2
    | VWrapper _ _ p1, VWrapper _ _ p2 => Ok (prim_eqb p1 p2)
    | VScalar _ p1, VScalar _ p2 => Ok (prim_eqb p1 p2)
    | VOpaque _, VOpaque _ => Raise CompareError
    | _, _ => Ok false
    end.

(** [{k: v for k, v in comp.items() if k != 'type'}] *)
Definition comp_data (comp : dict) : dict :=
  filter (λ kv, kv.1 ≠ "type") comp.

Definition is_empty (d : dict) : bool :=
  match d with [] => true | _ => false end.

Definition are_components_equal (comp1 comp2 : dict) : bool :=
  let comp1_data := comp_data comp1 in
  let comp2_data := comp_data comp2 in
  if is_empty comp1_data && is_empty comp2_data then true
  else if negb (bool_decide (negb (is_empty comp1_data) = negb (is_empty comp2_data))) then false
  else
    match _compare_values (VDict PyDict comp1_data) (VDict PyDict comp2_data) with
    | Ok b => b
    | Raise _ => false
    end.

(** ** 4.3 Field-level stripping *)

(** The test of the inner loop of [_remove_redundant_fields]:
    [key != 'type' and key in parent_comp and
     self._compare_values(value, parent_comp[key])]. *)
Definition field_matches (parent_comp : dict) (kv : string * value) : result bool :=
  if bool_decide (kv.1 = "type") then Ok false
  else
    match dict_get parent_comp kv.1 with
    | Some pv => _compare_values kv.2 pv
    | None => Ok false
    end.

(** [for key, value in component.items(): ...] for one parent component. *)
Fixpoint scan_items (parent_comp : dict) (items : dict) (redundant_fields : gset string)
    : result (gset string) :=
  match items with
  | [] => Ok redundant_fields
  | kv :: items' =>
      b ← field_matches parent_comp kv;
      scan_items parent_comp items'
        (if b : bool then {[kv.1]} ∪ redundant_fields else redundant_fields)
  end.

(** [for parent_comp in parents_components: ...] *)
Fixpoint scan_parents (component : dict) (parents_components : list dict)
    (redundant_fields : gset string) : result (gset string) :=
  match parents_components with
  | [] => Ok redundant_fields
  | parent_comp :: rest =>
      redundant_fields' ← scan_items parent_comp component redundant_fields;
      scan_parents component rest redundant_fields'
  end.

(** [for field in redundant_fields: if field in result: del result[field]] *)
Definition delete_fields (redundant_fields : gset string) (result : dict) : dict :=
  set_fold (λ field result, if dict_mem field result then dict_del field result else result)
    result redundant_fields.

Definition _remove_redundant_fields (component : dict) (parents_components : list dict)
    : result dict :=
  redundant_fields ← scan_parents component parents_components ∅;
  Ok (delete_fields redundant_fields component).

(** ** 4.2 The ancestor collector *)

(** How a value behaves as a key of a [dict]: a scalar hashes as its
    payload; an object with a [value] attribute hashes by identity; a
    sequence, a mapping and an object that defines [__eq__] alone cannot be
    hashed. *)
Inductive hashing :=
| Hashable (k : hkey)
| ById
| Unhashable.

Definition hash_of (v : value) : hashing :=
  match v with
  | VScalar _ p => Hashable (hkey_of_prim p)
  | VWrapper _ _ _ => ById
  | VOpaque _ | VList _ _ | VDict _ _ => Unhashable
  end.

(** The Document Store [self.prototypes], from prototype id to document. *)
Abbreviation store := (list (hkey * dict)).

Fixpoint store_get (prototypes : store) (k : hkey) : option dict :=
  match prototypes with
  | [] => None
  | (k', d) :: rest => if decide (k' = k) then Some d else store_get rest k
  end.

(** The Ancestor Component Index, from component type to the ancestors'
    components of that type, in insertion order. *)
Abbreviation index := (list (hkey * list dict)).

Fixpoint index_get (idx : index) (k : hkey) : option (list dict) :=
  match idx with
  | [] => None
  | (k', l) :: idx' => if decide (k' = k) then Some l else index_get idx' k
  end.

(** [if k not in idx: idx[k] = []] followed by [idx[k].extend(comps)]
    ([append] is [extend] with one component). *)
Fixpoint index_extend (k : hkey) (comps : list dict) (idx : index) : index :=
  match idx with
  | [] => [(k, comps)]
  | (k', l) :: idx' =>
      if decide (k' = k) then (k', l ++ comps) :: idx'
      else (k', l) :: index_extend k comps idx'
  end.

(** [for x in v]: the items of a sequence, the keys of a mapping, the
    characters of a string; anything else is not iterable. *)
Definition py_iter (v : value) : result (list value) :=
  match v with
  | VList _ items => Ok items
  | VDict _ items => Ok ((λ kv, VScalar "str" (PStr kv.1)) <$> items)
  | VScalar _ (PStr s) =>
      Ok ((λ c, VScalar "str" (PStr (String c EmptyString))) <$> String.list_ascii_of_string s)
  | _ => Raise TypeError
  end.

(** The body of the loop over a parent's components.  A component whose
    type hashes by identity is filed under a key that no component of the
    deep copy can look up: the index of the embedding leaves it out. *)
Definition add_component (parent_components : index) (comp : value) : result index :=
  match comp with
  | VDict _ d =>
      match dict_get d "type" with
      | Some comp_type =>
          match hash_of comp_type with
          | Hashable k => Ok (index_extend k [d] parent_components)
          | ById => Ok parent_components
          | Unhashable => Raise TypeError
          end
      | None => Ok parent_components
      end
  | _ => Ok parent_components
  end.

Section fold_m.
Context {A B : Type} (f : A → B → result A).

(** A [for] loop whose body may raise. *)
Fixpoint fold_m (a : A) (l : list B) : result A :=
  match l with
  | [] => Ok a
  | x :: l' => a' ← f a x; fold_m a' l'
  end.

End fold_m.

(** [parents = prototype.get('parent', [])], with a single id made a
    list; [None] when it is neither a string nor a list. *)
Definition parents_of (prototype : dict) : option (list value) :=
  match dict_get prototype "parent" with
  | None => Some []
  | Some (VScalar cls (PStr s)) => Some [VScalar cls (PStr s)]
  | Some (VList _ parents) => Some parents
  | Some _ => None
  end.

(** [for comp_type, configs in parent_comps.items(): ...extend(configs)] *)
Definition merge_index (parent_components parent_comps : index) : index :=
  foldl (λ acc kc, index_extend kc.1 kc.2 acc) parent_components parent_comps.

(** [fuel] bounds the depth of the recursion: Python's own bound makes a
    cyclic parent graph end in [RecursionError]. *)
Fixpoint get_all_parent_components (fuel : nat) (prototypes : store) (prototype : dict)
    : result index :=
  match fuel with
  | O => Raise RecursionError
  | S fuel' =>
      match parents_of prototype with
      | None => Ok []
      | Some parents =>
          fold_m (λ parent_components parent_id,
            match hash_of parent_id with
            | Unhashable => Raise TypeError
            | ById => Ok parent_components
            | Hashable k =>
                match store_get prototypes k with
                | None => Ok parent_components
                | Some parent =>
                    direct ←
                      match dict_get parent "components" with
                      | Some comps =>
                          comps' ← py_iter comps;
                          fold_m add_component parent_components comps'
                      | None => Ok parent_components
                      end;
                    parent_comps ← get_all_parent_components fuel' prototypes parent;
                    Ok (merge_index direct parent_comps)
                end
            end) [] parents
      end
  end.

(** ** 4.4 The field orderer *)

Definition PROTOTYPE_FIELD_ORDER : list string :=
  ["type"; "abstract"; "parent"; "id"; "categories"; "name"; "suffix";
   "description"; "components"].

Definition _order_prototype_fields (prototype : dict) : dict :=
  let ordered :=
    foldl (λ ordered field,
             match dict_get prototype field with
             | Some v => dict_set field v ordered
             | None => ordered
             end) [] PROTOTYPE_FIELD_ORDER in
  foldl (λ ordered kv,
           if dict_mem kv.1 ordered then ordered else dict_set kv.1 kv.2 ordered)
    ordered prototype.

(** ** 4.3 The redundancy eliminator *)

(** The [for ... break] over the ancestors of one type: [true] when the
    loop is left by [break]. *)
Fixpoint whole_redundant (component : dict) (parent_comps : list dict) : bool :=
  match parent_comps with
  | [] => false
  | parent_comp :: rest =>
      if are_components_equal component parent_comp then true
      else whole_redundant component rest
  end.

(** [cleaned_comp != component].  [cleaned_comp] is a copy of [component]
    less some keys, in their order, and holds the very objects of
    [component], which [==] takes for equal without calling their
    [__eq__]: the two mappings differ exactly when their keys do, for each
    class of mapping. *)
Definition dict_ne (cleaned_comp component : dict) : bool :=
  negb (bool_decide (keys cleaned_comp = keys component)).

(** The state of the scan: the live [sanitized['components']] and
    [components_to_remove] (the indices; the types go to messages only). *)
Record scan_state := {
  components : list value;
  components_to_remove : list nat;
}.

(** The body of the loop over [enumerate(sanitized['components'])]. *)
Definition scan_step (parent_components : index) (i : nat) (component : value)
    (st : scan_state) : result scan_state :=
  match component with
  | VDict cls c =>
      match dict_get c "type" with
      | None => Ok st
      | Some comp_type =>
          match hash_of comp_type with
          | Unhashable => Raise TypeError
          | ById => Ok st
          | Hashable k =>
              match index_get parent_components k with
              | None => Ok st
              | Some parent_comps =>
                  if whole_redundant c parent_comps then
                    Ok {| components := components st;
                          components_to_remove := components_to_remove st ++ [i] |}
                  else
                    cleaned_comp ← _remove_redundant_fields c parent_comps;
                    if dict_ne cleaned_comp c then
                      Ok {| components := <[i := VDict cls cleaned_comp]> (components st);
                            components_to_remove := components_to_remove st |}
                    else Ok st
              end
          end
      end
  | _ => Ok st
  end.

(** The loop itself: the iterator reads the live list at [i], [n] more
    times at most. *)
Fixpoint scan_components (parent_components : index) (n i : nat) (st : scan_state)
    : result scan_state :=
  match n with
  | O => Ok st
  | S n' =>
      match components st !! i with
      | None => Ok st
      | Some component =>
          st' ← scan_step parent_components i component st;
          scan_components parent_components n' (S i) st'
      end
  end.

(** [for i, comp_type in reversed(components_to_remove):
       del sanitized['components'][i]] *)
Definition remove_marked (st : scan_state) : list value :=
  foldl (λ comps i, delete i comps) (components st) (reverse (components_to_remove st)).

Definition sanitize_components (parent_components : index) (comps : list value)
    : result (list value) :=
  st ← scan_components parent_components (length comps) 0
         {| components := comps; components_to_remove := [] |};
  Ok (remove_marked st).

(** [copy.deepcopy] of a value is the value: the embedding of this part has
    no object identity.  The heap model below has, and copies. *)
Definition deepcopy (prototype : dict) : dict := prototype.

Definition sanitize_prototype (fuel : nat) (prototypes : store) (prototype : dict)
    : result dict :=
  let sanitized := deepcopy prototype in
  match dict_get sanitized "components" with
  | Some (VList cls comps) =>
      parent_components ← get_all_parent_components fuel prototypes sanitized;
      comps' ← sanitize_components parent_components comps;
      Ok (_order_prototype_fields (dict_set "components" (VList cls comps') sanitized))
  | _ => Ok (_order_prototype_fields sanitized)
  end.

(** ** The scan, one component at a time

    What the scan decides for one component, whatever its position: keep it
    (as it is or stripped) or drop it.  [scan_outcome_spec] below proves that
    [sanitize_components] is this decision taken component by component. *)

Inductive outcome :=
| Keep (v : value)
| Drop.

Definition emit (o : outcome) : list value :=
  match o with
  | Keep v => [v]
  | Drop => []
  end.

Definition component_outcome (parent_components : index) (component : value)
    : result outcome :=
  match component with
  | VDict cls c =>
      match dict_get c "type" with
      | None => Ok (Keep component)
      | Some comp_type =>
          match hash_of comp_type with
          | Unhashable => Raise TypeError
          | ById => Ok (Keep component)
          | Hashable k =>
              match index_get parent_components k with
              | None => Ok (Keep component)
              | Some parent_comps =>
                  if whole_redundant c parent_comps then Ok Drop
                  else
                    cleaned_comp ← _remove_redundant_fields c parent_comps;
                    Ok (Keep (VDict cls cleaned_comp))
              end
          end
      end
  | _ => Ok (Keep component)
  end.

(** The marks of [components_to_remove], latest first: each below the one
    before it, all below [n]. *)
Fixpoint desc_below (n : nat) (js : list nat) : Prop :=
  match js with
  | [] => True
  | j :: js' => (j < n)%nat ∧ desc_below j js'
  end.

(** What an outcome does to the state of the scan at index [i]. *)
Definition apply_outcome (i : nat) (o : outcome) (st : scan_state) : scan_state :=
  match o with
  | Drop => {| components := components st;
               components_to_remove := components_to_remove st ++ [i] |}
  | Keep v => {| components := <[i := v]> (components st);
                 components_to_remove := components_to_remove st |}
  end.

Fixpoint outcomes (parent_components : index) (comps : list value) : result (list value) :=
  match comps with
  | [] => Ok []
  | component :: rest =>
      o ← component_outcome parent_components component;
      out ← outcomes parent_components rest;
      Ok (emit o ++ out)
  end.

(** ** The field orderer, as the specification words it

    The priority keys that the document has, in priority order, then the
    other keys in their original relative order. *)
Definition order_spec (priority : list string) (document : dict) : dict :=
  omap (λ field, pair field <$> dict_get document field) priority
  ++ filter (λ kv, kv.1 ∉ priority) document.

(** The ancestors' components that the scan consults for a component: the
    entry of the index for its type, none when the type is not a key. *)
Definition ancestors_of_type (parent_components : index) (component : dict) : list dict :=
  match dict_get component "type" with
  | Some comp_type =>
      match hash_of comp_type with
      | Hashable k => default [] (index_get parent_components k)
      | _ => []
      end
  | None => []
  end.

(** An entry of a [components] sequence that is a mapping with a [type]. *)
Definition typed_component (component : value) : Prop :=
  match component with
  | VDict _ c => is_Some (dict_get c "type")
  | _ => False
  end.

Global Instance typed_component_dec component : Decision (typed_component component).
Proof. destruct component; simpl; apply _. Defined.

(** A document less the entries of its [components] sequence that are not
    mappings with a [type]. *)
Definition strip_untyped (document : dict) : dict :=
  match dict_get document "components" with
  | Some (VList cls comps) =>
      dict_set "components" (VList cls (filter typed_component comps)) document
  | _ => document
  end.

(** ** Sample documents *)

Definition str (s : string) : value := VScalar "str" (PStr s).

(** A sequence and a mapping as the loader builds them. *)
Abbreviation cseq := (VList CommentedSeq).
Abbreviation cmap := (VDict CommentedMap).

Definition sprite_path : dict := [("type", str "Sprite"); ("path", str "x")].
Definition sprite_color : dict := [("type", str "Sprite"); ("color", str "red")].
Definition sprite_bare : dict := [("type", str "Sprite")].
Definition sprite_both : dict :=
  [("type", str "Sprite"); ("path", str "x"); ("color", str "red")].

Definition entity (id : string) (parent : list (string * value)) (comps : list value) : dict :=
  [("type", str "entity"); ("id", str id)] ++ parent ++ [("components", cseq comps)].

(** [A] defines [Sprite] with a path, its parent [B] defines [Sprite] with a
    colour, whose parent [D] defines a bare [Sprite]. *)
Definition sample_store : store :=
  [(HStr "A", entity "A" [("parent", str "B")] [cmap sprite_path]);
   (HStr "B", entity "B" [("parent", str "D")] [cmap sprite_color]);
   (HStr "D", entity "D" [] [cmap sprite_bare])].

(** Two [Sprite] components whose [state] is an object of a class whose
    [__eq__] raises. *)
Definition sprite_state : dict :=
  [("type", str "Sprite"); ("state", VOpaque "Strict")].
Definition sprite_state_color : dict :=
  [("type", str "Sprite"); ("state", VOpaque "Strict"); ("color", str "red")].

(** * The same code over a heap

    [sanitize_prototype] copies its argument and then assigns into the copy:
    whether the Document Store is left alone depends on which object each
    assignment reaches.  This part keeps the objects that the code can
    mutate, sequences and mappings, in a heap, and follows each allocation
    and assignment of the source; an object is addressed by its position in
    the heap and a new object goes at the end.  Scalars are never mutated
    and are held by value.  What the code only reads (the parents'
    components, the values it compares) is read as the value that a
    reference denotes, [reify], and decided by the functions above; one
    [fuel] bounds every recursion, and a heap too deep for it raises. *)

Module Heap.

Abbreviation loc := nat.

(** What a sequence or a mapping holds at one place. *)
Inductive slot :=
| SScalar (cls : string) (p : prim)
| SWrapper (cls tag : string) (p : prim)
| SOpaque (cls : string)
| SRef (l : loc).

Inductive obj :=
| OList (cls : seq_class) (items : list slot)
| ODict (cls : map_class) (items : list (string * slot)).

Abbreviation heap := (list obj).

Section map_m.
Context {A B : Type} (f : A → result B).

Fixpoint map_m (l : list A) : result (list B) :=
  match l with
  | [] => Ok []
  | x :: l' => y ← f x; l'' ← map_m l'; Ok (y :: l'')
  end.

End map_m.

(** The value that a slot denotes; [fuel] bounds the depth, a reference to
    no object (no Python heap has one) raises. *)
Fixpoint reify (fuel : nat) (h : heap) (s : slot) : result value :=
  match s with
  | SScalar cls p => Ok (VScalar cls p)
  | SWrapper cls tag p => Ok (VWrapper cls tag p)
  | SOpaque cls => Ok (VOpaque cls)
  | SRef l =>
      match fuel with
      | O => Raise RecursionError
      | S fuel' =>
          match h !! l with
          | Some (OList cls items) =>
              items' ← map_m (reify fuel' h) items; Ok (VList cls items')
          | Some (ODict cls items) =>
              items' ← map_m (λ kv, v ← reify fuel' h kv.2; Ok (kv.1, v)) items;
              Ok (VDict cls items')
          | None => Raise TypeError
          end
      end
  end.

Definition reify_items (fuel : nat) (h : heap) (items : list (string * slot)) : result dict :=
  map_m (λ kv, v ← reify fuel h kv.2; Ok (kv.1, v)) items.

(** The document at [l]. *)
Definition reify_document (fuel : nat) (h : heap) (l : loc) : result dict :=
  match h !! l with
  | Some (ODict _ items) => reify_items fuel h items
  | _ => Raise TypeError
  end.

(** [self.prototypes]: from prototype id to the document's object. *)
Definition reify_store (fuel : nat) (h : heap) (prototypes : list (hkey * loc)) : result store :=
  map_m (λ kl, d ← reify_document fuel h kl.2; Ok (kl.1, d)) prototypes.

(** *** Assignments *)

(** [y.append(s)] for the list at [l] *)
Definition list_append (l : loc) (s : slot) (h : heap) : heap :=
  match h !! l with
  | Some (OList cls items) => <[l := OList cls (items ++ [s])]> h
  | _ => h
  end.

(** [y[i] = s] for the list at [l] *)
Definition list_setitem (l : loc) (i : nat) (s : slot) (h : heap) : heap :=
  match h !! l with
  | Some (OList cls items) => <[l := OList cls (<[i := s]> items)]> h
  | _ => h
  end.

(** [del y[i]] for the list at [l] *)
Definition list_delitem (l : loc) (i : nat) (h : heap) : heap :=
  match h !! l with
  | Some (OList cls items) => <[l := OList cls (delete i items)]> h
  | _ => h
  end.

(** [y[k] = s] for the mapping at [l] *)
Definition dict_setitem (l : loc) (k : string) (s : slot) (h : heap) : heap :=
  match h !! l with
  | Some (ODict cls items) => <[l := ODict cls (dict_set k s items)]> h
  | _ => h
  end.

(** [del y[k]] for the mapping at [l] *)
Definition dict_delitem (l : loc) (k : string) (h : heap) : heap :=
  match h !! l with
  | Some (ODict cls items) => <[l := ODict cls (dict_del k items)]> h
  | _ => h
  end.

(** [k in y] for the mapping at [l] *)
Definition dict_contains (l : loc) (k : string) (h : heap) : bool :=
  match h !! l with
  | Some (ODict _ items) => dict_mem k items
  | _ => false
  end.

(** *** [copy.deepcopy]

    A sequence or a mapping is copied into a new object of its class,
    entered in [memo] before its items are copied and appended; an object
    already in [memo] is not copied again.  [fuel] bounds the depth of the recursion. *)
Fixpoint deepcopy (fuel : nat) (x : slot) (st : gmap loc loc * heap)
    : result (slot * (gmap loc loc * heap)) :=
  match x with
  | SRef l =>
      match st.1 !! l with
      | Some y => Ok (SRef y, st)
      | None =>
          match fuel with
          | O => Raise RecursionError
          | S fuel' =>
              match st.2 !! l with
              | Some (OList cls items) =>
                  let y := length st.2 in
                  st' ← fold_m (λ st a,
                                  '(a', st') ← deepcopy fuel' a st;
                                  Ok (st'.1, list_append y a' st'.2))
                               (<[l := y]> st.1, st.2 ++ [OList cls []]) items;
                  Ok (SRef y, st')
              | Some (ODict cls items) =>
                  let y := length st.2 in
                  st' ← fold_m (λ st kv,
                                  '(v', st') ← deepcopy fuel' kv.2 st;
                                  Ok (st'.1, dict_setitem y kv.1 v' st'.2))
                               (<[l := y]> st.1, st.2 ++ [ODict cls []]) items;
                  Ok (SRef y, st')
              | None => Raise TypeError
              end
          end
      end
  | _ => Ok (x, st)
  end.

(** *** [_order_prototype_fields]: [ordered] is a new [dict] *)
Definition _order_prototype_fields (prototype : loc) (h : heap) : loc * heap :=
  let ordered := length h in
  let h := h ++ [ODict PyDict []] in
  let items := match h !! prototype with
               | Some (ODict _ items) => items
               | _ => []
               end in
  let h := foldl (λ h field,
                    match dict_get items field with
                    | Some s => dict_setitem ordered field s h
                    | None => h
                    end) h PROTOTYPE_FIELD_ORDER in
  let h := foldl (λ h kv,
                    if dict_contains ordered kv.1 h then h
                    else dict_setitem ordered kv.1 kv.2 h) h items in
  (ordered, h).

(** *** [_remove_redundant_fields]: [result] is a new mapping of the class
    of [component] that holds the objects of [component]; the fields to
    delete are decided on the values. *)
Definition _remove_redundant_fields (fuel : nat) (component : loc)
    (parents_components : list dict) (h : heap) : result (loc * heap) :=
  match h !! component with
  | Some (ODict cls items) =>
      let result := length h in
      let h := h ++ [ODict cls items] in
      c ← reify_items fuel h items;
      redundant_fields ← scan_parents c parents_components ∅;
      Ok (result,
          set_fold (λ field h,
                      if dict_contains result field h then dict_delitem result field h
                      else h) h redundant_fields)
  | _ => Raise TypeError
  end.

(** [cleaned_comp != component] *)
Definition dict_ne (cleaned_comp component : loc) (h : heap) : bool :=
  match h !! cleaned_comp, h !! component with
  | Some (ODict _ items1), Some (ODict _ items2) =>
      negb (bool_decide (keys items1 = keys items2))
  | _, _ => true
  end.

(** *** The scan: [l_comps] is the object [sanitized['components']] *)
Definition scan_step (fuel : nat) (parent_components : index) (l_comps : loc) (i : nat)
    (component : slot) (st : list nat * heap) : result (list nat * heap) :=
  match component with
  | SRef lc =>
      match st.2 !! lc with
      | Some (ODict _ items) =>
          c ← reify_items fuel st.2 items;
          match dict_get c "type" with
          | None => Ok st
          | Some comp_type =>
              match hash_of comp_type with
              | Unhashable => Raise TypeError
              | ById => Ok st
              | Hashable k =>
                  match index_get parent_components k with
                  | None => Ok st
                  | Some parent_comps =>
                      if whole_redundant c parent_comps then Ok (st.1 ++ [i], st.2)
                      else
                        '(cleaned_comp, h) ←
                          _remove_redundant_fields fuel lc parent_comps st.2;
                        if dict_ne cleaned_comp lc h then
                          Ok (st.1, list_setitem l_comps i (SRef cleaned_comp) h)
                        else Ok (st.1, h)
                  end
              end
          end
      | _ => Ok st
      end
  | _ => Ok st
  end.

Fixpoint scan_components (fuel : nat) (parent_components : index) (l_comps : loc)
    (n i : nat) (st : list nat * heap) : result (list nat * heap) :=
  match n with
  | O => Ok st
  | S n' =>
      match st.2 !! l_comps with
      | Some (OList _ comps) =>
          match comps !! i with
          | None => Ok st
          | Some component =>
              st' ← scan_step fuel parent_components l_comps i component st;
              scan_components fuel parent_components l_comps n' (S i) st'
          end
      | _ => Ok st
      end
  end.

Definition sanitize_prototype (fuel : nat) (prototypes : list (hkey * loc))
    (prototype : loc) (h : heap) : result (loc * heap) :=
  '(sanitized, st) ← deepcopy fuel (SRef prototype) (∅, h);
  let h := st.2 in
  match sanitized with
  | SRef l_san =>
      match h !! l_san with
      | Some (ODict _ san_items) =>
          match dict_get san_items "components" with
          | Some (SRef l_comps) =>
              match h !! l_comps with
              | Some (OList _ comps) =>
                  documents ← reify_store fuel h prototypes;
                  document ← reify_items fuel h san_items;
                  parent_components ← get_all_parent_components fuel documents document;
                  '(components_to_remove, h) ←
                    scan_components fuel parent_components l_comps (length comps) 0 ([], h);
                  let h := foldl (λ h i, list_delitem l_comps i h) h
                             (reverse components_to_remove) in
                  Ok (_order_prototype_fields l_san h)
              | _ => Ok (_order_prototype_fields l_san h)
              end
          | _ => Ok (_order_prototype_fields l_san h)
          end
      | _ => Raise TypeError
      end
  | _ => Raise TypeError
  end.

(** [find_and_sanitize_prototype], up to the serialisation: [None] when the
    id is not in the store ("not found", nothing is sanitized). *)
Definition find_and_sanitize_prototype (fuel : nat) (prototypes : list (hkey * loc))
    (prototype_id : hkey) (h : heap) : option (result (loc * heap)) :=
  match list_find (λ kl, kl.1 = prototype_id) prototypes with
  | Some (_, (_, original)) => Some (sanitize_prototype fuel prototypes original h)
  | None => None
  end.

(** *** Building the objects of a value, as the loader does *)
Fixpoint build (v : value) (h : heap) {struct v} : slot * heap :=
  match v with
  | VScalar cls p => (SScalar cls p, h)
  | VWrapper cls tag p => (SWrapper cls tag p, h)
  | VOpaque cls => (SOpaque cls, h)
  | VList cls items =>
      let '(slots, h') :=
        (fix build_items (l : list value) (h : heap) : list slot * heap :=
           match l with
           | [] => ([], h)
           | x :: l' =>
               let '(s, h1) := build x h in
               let '(ss, h2) := build_items l' h1 in
               (s :: ss, h2)
           end) items h in
      (SRef (length h'), h' ++ [OList cls slots])
  | VDict cls items =>
      let '(slots, h') :=
        (fix build_items (l : dict) (h : heap) : list (string * slot) * heap :=
           match l with
           | [] => ([], h)
           | kv :: l' =>
               let '(s, h1) := build kv.2 h in
               let '(ss, h2) := build_items l' h1 in
               ((kv.1, s) :: ss, h2)
           end) items h in
      (SRef (length h'), h' ++ [ODict cls slots])
  end.

(** The store of the sample documents, and [P] with a [Sprite] that the
    ancestors match field by field, a note and a [Sprite] equal to that of
    [A]. *)
Definition sample_heap : heap :=
  (build (cseq [cmap (entity "A" [("parent", str "B")] [cmap sprite_path]);
                 cmap (entity "B" [("parent", str "D")] [cmap sprite_color]);
                 cmap (entity "D" [] [cmap sprite_bare]);
                 cmap (entity "P" [("parent", str "A")]
                          [cmap sprite_both; str "note"; cmap sprite_path])]) []).2.

Definition sample_prototypes : list (hkey * loc) :=
  [(HStr "A", 2); (HStr "B", 5); (HStr "D", 8); (HStr "P", 12)].

(** What [sanitize_prototype] returns for [P] on the sample heap: the
    address of the document and the heap. *)
Definition sample_result : loc * heap :=
  Eval vm_compute in
    match sanitize_prototype 6 sample_prototypes 12 sample_heap with
    | Ok r => r
    | Raise _ => (0, [])
    end.

End Heap.

(** The fields that [_remove_redundant_fields] marks: those that some
    parent component matches. *)
Definition marked (component : dict) (parents_components : list dict) (k : string) : Prop :=
  ∃ parent_comp kv, parent_comp ∈ parents_components ∧ kv ∈ component ∧ kv.1 = k ∧
                    field_matches parent_comp kv = Ok true.

(** The condition under which a second pass changes nothing: no kept
    component that has only its [type] field has, among the collected
    ancestors of its type, a component with only its [type] field. *)
Definition no_bare_match (idx : index) (comps : list value) : Prop :=
  ∀ cls c anc, VDict cls c ∈ comps → comp_data c = [] →
           anc ∈ ancestors_of_type idx c → comp_data anc ≠ [].

(** ** The objects made since a heap [h0]

    A slot is fresh when it does not refer to an object of [h0]; the heap is
    closed above [h0] when the objects made since [h0] hold fresh slots
    only; [copy_inv] is what [deepcopy] maintains: [h0] is still there,
    the heap is closed above it and [memo] maps to new objects. *)

Definition fresh_slot (h0 : Heap.heap) (s : Heap.slot) : Prop :=
  match s with
  | Heap.SRef l => length h0 ≤ l
  | _ => True
  end.

Definition obj_slots (o : Heap.obj) : list Heap.slot :=
  match o with
  | Heap.OList _ items => items
  | Heap.ODict _ items => items.*2
  end.

Definition closed_above (h0 h : Heap.heap) : Prop :=
  ∀ l o, length h0 ≤ l → h !! l = Some o → Forall (fresh_slot h0) (obj_slots o).

Definition copy_inv (h0 : Heap.heap) (st : gmap Heap.loc Heap.loc * Heap.heap) : Prop :=
  h0 `prefix_of` st.2 ∧ closed_above h0 st.2 ∧
  ∀ l y, st.1 !! l = Some y → length h0 ≤ y.

(** A value that holds no object whose [__eq__] raises, as every value that
    the loader builds. *)
Fixpoint opaque_free (v : value) : bool :=
  match v with
  | VOpaque _ => false
  | VList _ items => forallb opaque_free items
  | VDict _ items => forallb (λ kv, opaque_free kv.2) items
  | _ => true
  end.

(** The parents of [prototype] that the store holds are of rank below [n]. *)
Definition ranked (prototypes : store) (rank : hkey → nat) (n : nat) (prototype : dict) : Prop :=
  ∀ parents parent_id k,
    parents_of prototype = Some parents → parent_id ∈ parents →
    hash_of parent_id = Hashable k → is_Some (store_get prototypes k) → rank k < n.

(** * More of the class

    [get_component_from_parent], the traversal that the collector makes,
    seen as one sequence, and the loop of [load_all_prototypes]. *)

(** A value in which every mapping has each key once, as every [dict]. *)
Fixpoint wf_value (v : value) : bool :=
  match v with
  | VList _ items => forallb wf_value items
  | VDict _ items =>
      bool_decide (NoDup (keys items)) && forallb (λ kv, wf_value kv.2) items
  | _ => true
  end.

(** ** [get_component_from_parent] *)

(** [v == s] for a [str] [s]: a scalar compares by its payload; an object
    with a [value] attribute defines no [__eq__] and is equal to itself
    only; a sequence and a mapping are not equal to a string. *)
Definition eq_str (v : value) (s : string) : result bool :=
  match v with
  | VScalar _ p => Ok (prim_eqb p (PStr s))
  | VWrapper _ _ _ => Ok false
  | VOpaque _ => Raise CompareError
  | VList _ _ | VDict _ _ => Ok false
  end.

(** [isinstance(comp, dict) and comp.get('type') == comp_type]; a missing
    [type] is [None], which is not equal to a string. *)
Definition has_type (comp : value) (comp_type : string) : result bool :=
  match comp with
  | VDict _ d =>
      match dict_get d "type" with
      | Some t => eq_str t comp_type
      | None => Ok false
      end
  | _ => Ok false
  end.

(** [for comp in comps: if ...: return comp] and [return None] after it. *)
Fixpoint find_component (comps : list value) (comp_type : string) : result (option value) :=
  match comps with
  | [] => Ok None
  | comp :: rest =>
      b ← has_type comp comp_type;
      if b : bool then Ok (Some comp) else find_component rest comp_type
  end.

Definition get_component_from_parent (parent : dict) (comp_type : string)
    : result (option value) :=
  match dict_get parent "components" with
  | None => Ok None
  | Some comps => comps' ← py_iter comps; find_component comps' comp_type
  end.

(** ** The ancestors' components as one sequence

    What the collector files, in the order in which it files it: for each
    parent in declaration order, the parent's own typed components, then
    what its parents give.  The index is this sequence filed type by
    type. *)

(** The entry that a component of a parent makes: none for a component
    that is not a mapping with a type or whose type hashes by identity. *)
Definition typed_entry (comp : value) : result (list (hkey * dict)) :=
  match comp with
  | VDict _ d =>
      match dict_get d "type" with
      | Some comp_type =>
          match hash_of comp_type with
          | Hashable k => Ok [(k, d)]
          | ById => Ok []
          | Unhashable => Raise TypeError
          end
      | None => Ok []
      end
  | _ => Ok []
  end.

Section concat_m.
Context {A B : Type} (f : A → result (list B)).

Fixpoint concat_m (l : list A) : result (list B) :=
  match l with
  | [] => Ok []
  | x :: l' => ys ← f x; rest ← concat_m l'; Ok (ys ++ rest)
  end.

End concat_m.

(** The typed components of a document's own [components]. *)
Definition direct_entries (parent : dict) : result (list (hkey * dict)) :=
  match dict_get parent "components" with
  | Some comps => comps' ← py_iter comps; concat_m typed_entry comps'
  | None => Ok []
  end.

Fixpoint ancestor_entries (fuel : nat) (prototypes : store) (prototype : dict)
    : result (list (hkey * dict)) :=
  match fuel with
  | O => Raise RecursionError
  | S fuel' =>
      match parents_of prototype with
      | None => Ok []
      | Some parents =>
          concat_m (λ parent_id,
            match hash_of parent_id with
            | Unhashable => Raise TypeError
            | ById => Ok []
            | Hashable k =>
                match store_get prototypes k with
                | None => Ok []
                | Some parent =>
                    direct ← direct_entries parent;
                    inherited ← ancestor_entries fuel' prototypes parent;
                    Ok (direct ++ inherited)
                end
            end) parents
      end
  end.

(** Filing entries one by one: [idx[k].append(d)], the key made at need. *)
Definition file_into (idx : index) (entries : list (hkey * dict)) : index :=
  foldl (λ idx kd, index_extend kd.1 [kd.2] idx) idx entries.

(** The entries of type [k], in order. *)
Definition entries_of_type (k : hkey) (entries : list (hkey * dict)) : list dict :=
  (filter (λ kd, kd.1 = k) entries).*2.

(** What the scan makes of one component: the component itself, or a
    mapping with the same type and some of its fields, in their order. *)
Definition stripped_from (component out : value) : Prop :=
  out = component ∨
  ∃ cls c cleaned, component = VDict cls c ∧ out = VDict cls cleaned ∧
               cleaned `sublist_of` c ∧
               dict_get cleaned "type" = dict_get c "type".

(** A rank for the sample store: [A] above [B] above [D]. *)
Definition sample_rank (k : hkey) : nat :=
  if decide (k = HStr "A") then 3
  else if decide (k = HStr "B") then 2
  else if decide (k = HStr "D") then 1
  else 0.

(** ** [load_all_prototypes]

    The loop over the files, from what reading and parsing a file gives:
    the document of the file, or [None] when either raises.  The progress
    bar and the printed counts are left out. *)

(** [self.prototypes[k] = d]: an id that is there keeps its place. *)
Fixpoint store_set (k : hkey) (d : dict) (prototypes : store) : store :=
  match prototypes with
  | [] => [(k, d)]
  | (k', d') :: rest =>
      if decide (k' = k) then (k', d) :: rest
      else (k', d') :: store_set k d rest
  end.

(** The body of [for prototype in data].  [prototype.get('type') != 'entity']
    raises as [==] does; an id that hashes by identity is stored under a
    key that no lookup of the embedding finds, and is left out as in the
    index. *)
Definition load_prototype (prototypes : store) (prototype : value) : result store :=
  match prototype with
  | VDict _ d =>
      is_entity ← match dict_get d "type" with
                  | Some t => eq_str t "entity"
                  | None => Ok false
                  end;
      if is_entity : bool then
        match dict_get d "id" with
        | Some id =>
            match hash_of id with
            | Hashable k => Ok (store_set k d prototypes)
            | ById => Ok prototypes
            | Unhashable => Raise TypeError
            end
        | None => Ok prototypes
        end
      else Ok prototypes
  | _ => Ok prototypes
  end.

(** [for prototype in data] inside the [try]: the store is updated in
    place, so what was stored before an exception stays. *)
Fixpoint load_documents (prototypes : store) (data : list value) : store * option exn :=
  match data with
  | [] => (prototypes, None)
  | prototype :: rest =>
      match load_prototype prototypes prototype with
      | Ok prototypes' => load_documents prototypes' rest
      | Raise e => (prototypes, Some e)
      end
  end.

(** One turn of [for yaml_file in yaml_files]. *)
Definition load_file (prototypes : store) (parsed : option value) : store :=
  match parsed with
  | Some (VList _ data) => (load_documents prototypes data).1
  | _ => prototypes
  end.

Definition load_all_prototypes (prototypes : store) (files : list (option value)) : store :=
  foldl load_file prototypes files.

(** An entity prototype whose id is [k]. *)
Definition entity_with_id (k : hkey) (d : dict) : Prop :=
  (∃ t, dict_get d "type" = Some t ∧ eq_str t "entity" = Ok true) ∧
  (∃ id, dict_get d "id" = Some id ∧ hash_of id = Hashable k).

(** * Properties *)

(** Induction over values, through the lists of a sequence and a mapping. *)
Lemma value_ind (P : value → Prop)
    (Hscalar : ∀ cls p, P (VScalar cls p))
    (Hwrapper : ∀ cls tag p, P (VWrapper cls tag p))
    (Hopaque : ∀ cls, P (VOpaque cls))
    (Hlist : ∀ cls items, Forall P items → P (VList cls items))
    (Hdict : ∀ cls items, Forall (λ kv, P kv.2) items → P (VDict cls items)) :
    ∀ v, P v.
Proof.
  fix go 1. intros [cls p|cls tag p|cls|lcls items|dcls items].
  - apply Hscalar.
  - apply Hwrapper.
  - apply Hopaque.
  - apply Hlist. induction items as [|x items IH]; constructor; [apply go|apply IH].
  - apply Hdict. induction items as [|kv items IH]; constructor; [apply go|apply IH].
Qed.


(** ** The exception monad *)

Lemma bind_Ok {A B} (f : A → result B) (m : result A) (b : B) :
  m ≫= f = Ok b ↔ ∃ a, m = Ok a ∧ f a = Ok b.
Proof.
  destruct m as [a|e]; simpl; split.
  - intros H. by exists a.
  - by intros (a' & [= ->] & H).
  - intros [=].
  - by intros (a' & [=] & _).
Qed.

(** ** Mappings *)

Lemma dict_get_Some_elem {V} (d : list (string * V)) k v :
  dict_get d k = Some v → (k, v) ∈ d.
Proof.
  induction d as [|[k' v'] d IH]; simpl; [done|].
  case_decide as Hk.
  - intros [= ->]. subst. left.
  - intros H. right. by apply IH.
Qed.

Lemma dict_get_None (d : dict) k : dict_get d k = None ↔ k ∉ keys d.
Proof.
  unfold keys. induction d as [|[k' v'] d IH]; simpl.
  - split; [intros _; apply not_elem_of_nil|done].
  - rewrite not_elem_of_cons. case_decide as Hk.
    + split; [done|]. intros [Hne _]. by destruct Hne.
    + rewrite IH. split; [intros ?; split; [congruence|done]|by intros [_ ?]].
Qed.

Lemma dict_get_is_Some (d : dict) k : is_Some (dict_get d k) ↔ k ∈ keys d.
Proof.
  rewrite <-not_eq_None_Some, dict_get_None.
  split; [apply dec_stable|auto].
Qed.

Lemma dict_get_NoDup (d : dict) k v :
  NoDup (keys d) → (k, v) ∈ d → dict_get d k = Some v.
Proof.
  unfold keys. induction d as [|[k' v'] d IH]; simpl.
  - intros _ H. by apply elem_of_nil in H.
  - rewrite NoDup_cons. intros [Hk' Hnd] [Heq|Hin]%elem_of_cons.
    + injection Heq as -> ->. by rewrite decide_True.
    + rewrite decide_False; [by apply IH|].
      intros ->. apply Hk'. apply list_elem_of_fmap. by exists (k, v).
Qed.

Lemma dict_get_filter_ne (d : dict) k k' :
  k ≠ k' → dict_get (filter (λ kv, kv.1 ≠ k') d) k = dict_get d k.
Proof.
  intros Hne. induction d as [|[k0 v0] d IH]; [done|].
  rewrite filter_cons. simpl. destruct (decide (k0 ≠ k')) as [H0|H0]; simpl.
  - by rewrite IH.
  - apply dec_stable in H0. subst k0. by rewrite decide_False.
Qed.

Lemma dict_mem_true k (d : dict) : dict_mem k d = true ↔ k ∈ keys d.
Proof. unfold dict_mem. by rewrite bool_decide_eq_true, dict_get_is_Some. Qed.

Lemma filter_keys_eq (f : string * value → Prop) `{!∀ kv, Decision (f kv)} (d : dict) :
  keys (filter f d) = keys d → filter f d = d.
Proof.
  intros Hk.
  assert (length (filter f d) = length d) as Hlen.
  { unfold keys in Hk. by rewrite <-(length_fmap fst (filter f d)), Hk, length_fmap. }
  clear Hk. induction d as [|kv d IH]; [done|].
  rewrite filter_cons in *. destruct (decide (f kv)); simpl in *.
  - f_equal. apply IH. lia.
  - pose proof (length_filter f d). lia.
Qed.

(** ** Field-level stripping *)

Lemma dict_del_not_mem k (d : dict) : dict_mem k d = false → dict_del k d = d.
Proof.
  intros Hm. apply not_true_iff_false in Hm. rewrite dict_mem_true in Hm.
  unfold dict_del. induction d as [|[k' v'] d IH]; [done|].
  unfold keys in *. simpl in Hm. apply not_elem_of_cons in Hm as [Hne Hm].
  rewrite filter_cons_True by (simpl; congruence). f_equal. by apply IH.
Qed.

Lemma delete_fields_filter (R : gset string) (d : dict) :
  delete_fields R d = filter (λ kv, kv.1 ∉ R) d.
Proof.
  unfold delete_fields, set_fold. simpl.
  assert (∀ l : list string,
    foldr (λ field result, if dict_mem field result then dict_del field result else result) d l
    = filter (λ kv, kv.1 ∉ l) d) as Hfold.
  { induction l as [|x l IH]; simpl.
    - symmetry. induction d as [|kv d IHd]; [done|].
      rewrite filter_cons_True; [by f_equal|apply not_elem_of_nil].
    - rewrite IH.
      assert (∀ r : dict, (if dict_mem x r then dict_del x r else r) = dict_del x r) as ->.
      { intros r. destruct (dict_mem x r) eqn:E; [done|]. by rewrite dict_del_not_mem. }
      unfold dict_del. rewrite list_filter_filter.
      apply list_filter_iff. intros kv. rewrite not_elem_of_cons. naive_solver. }
  rewrite Hfold. apply list_filter_iff. intros kv. by rewrite elem_of_elements.
Qed.

Lemma scan_items_Ok parent_comp (items : dict) R0 R :
  scan_items parent_comp items R0 = Ok R →
  (∀ kv, kv ∈ items → ∃ b, field_matches parent_comp kv = Ok b) ∧
  (∀ k, k ∈ R ↔ k ∈ R0 ∨ ∃ kv, kv ∈ items ∧ kv.1 = k ∧
                              field_matches parent_comp kv = Ok true).
Proof.
  revert R0. induction items as [|kv items IH]; intros R0; simpl.
  - intros [= <-]. split.
    + intros kv H. by apply elem_of_nil in H.
    + intros k. split; [auto|]. intros [H|(kv & H & _)]; [done|].
      by apply elem_of_nil in H.
  - intros (b & Hb & Hrest)%bind_Ok. apply IH in Hrest as [Hall HR]. split.
    + intros kv' [->|Hin]%elem_of_cons; eauto.
    + intros k. rewrite HR. split.
      * intros [Hk|(kv' & Hin & Hk & Hm)].
        -- destruct b.
           ++ apply elem_of_union in Hk as [Hk%elem_of_singleton|Hk]; [|by left].
              right. exists kv. split; [left|done].
           ++ by left.
        -- right. exists kv'. split; [by right|done].
      * intros [Hk|(kv' & [->|Hin]%elem_of_cons & Hk & Hm)].
        -- left. destruct b; [apply elem_of_union; by right|done].
        -- left. rewrite Hm in Hb. injection Hb as <-.
           apply elem_of_union. left. by apply elem_of_singleton.
        -- right. by exists kv'.
Qed.

Lemma scan_items_total parent_comp (items : dict) R0 :
  (∀ kv, kv ∈ items → ∃ b, field_matches parent_comp kv = Ok b) →
  ∃ R, scan_items parent_comp items R0 = Ok R.
Proof.
  revert R0. induction items as [|kv items IH]; intros R0 Hall; simpl; [by eexists|].
  destruct (Hall kv) as [b ->]; [left|]. simpl.
  apply IH. intros kv' Hin. apply Hall. by right.
Qed.

Lemma scan_parents_Ok component parents_components R0 R :
  scan_parents component parents_components R0 = Ok R →
  (∀ parent_comp kv, parent_comp ∈ parents_components → kv ∈ component →
     ∃ b, field_matches parent_comp kv = Ok b) ∧
  (∀ k, k ∈ R ↔ k ∈ R0 ∨ marked component parents_components k).
Proof.
  unfold marked. revert R0.
  induction parents_components as [|pc rest IH]; intros R0; simpl.
  - intros [= <-]. split.
    + intros pc kv H. by apply elem_of_nil in H.
    + intros k. split; [auto|]. intros [H|(pc & kv & H & _)]; [done|].
      by apply elem_of_nil in H.
  - intros (R1 & H1 & Hrest)%bind_Ok.
    apply scan_items_Ok in H1 as [Hall1 HR1]. apply IH in Hrest as [Hall HR]. split.
    + intros pc' kv [->|Hin]%elem_of_cons Hkv; eauto.
    + intros k. rewrite HR, HR1. split.
      * intros [[Hk|(kv & Hin & Hk & Hm)]|(pc' & kv & Hpc & Hin & Hk & Hm)].
        -- by left.
        -- right. exists pc, kv. split; [left|done].
        -- right. exists pc', kv. split; [by right|done].
      * intros [Hk|(pc' & kv & [->|Hpc]%elem_of_cons & Hin & Hk & Hm)].
        -- left. by left.
        -- left. right. by exists kv.
        -- right. by exists pc', kv.
Qed.

Lemma scan_parents_total component parents_components R0 :
  (∀ parent_comp kv, parent_comp ∈ parents_components → kv ∈ component →
     ∃ b, field_matches parent_comp kv = Ok b) →
  ∃ R, scan_parents component parents_components R0 = Ok R.
Proof.
  revert R0. induction parents_components as [|pc rest IH]; intros R0 Hall; simpl;
    [by eexists|].
  destruct (scan_items_total pc component R0) as [R1 ->].
  { intros kv Hkv. apply Hall; [left|done]. }
  simpl. apply IH. intros pc' kv Hpc Hkv. apply Hall; [by right|done].
Qed.

Lemma remove_redundant_fields_Ok component parents_components cleaned :
  _remove_redundant_fields component parents_components = Ok cleaned →
  ∃ R : gset string,
    cleaned = filter (λ kv, kv.1 ∉ R) component ∧
    (∀ k, k ∈ R ↔ marked component parents_components k) ∧
    (∀ parent_comp kv, parent_comp ∈ parents_components → kv ∈ component →
       ∃ b, field_matches parent_comp kv = Ok b).
Proof.
  unfold _remove_redundant_fields.
  intros (R & HR & [= <-])%bind_Ok. exists R.
  apply scan_parents_Ok in HR as [Hall HR]. split; [apply delete_fields_filter|].
  split; [|done]. intros k. rewrite HR.
  split; [intros [H%not_elem_of_empty|H]; done|by right].
Qed.

Lemma marked_not_type component parents_components :
  ¬ marked component parents_components "type".
Proof.
  intros (pc & kv & _ & _ & Hk & Hm). unfold field_matches in Hm.
  by rewrite bool_decide_eq_true_2 in Hm.
Qed.

(** ** The scan is a decision per component *)

Lemma dict_ne_false_eq (R : gset string) (c : dict) :
  dict_ne (filter (λ kv, kv.1 ∉ R) c) c = false → filter (λ kv, kv.1 ∉ R) c = c.
Proof.
  unfold dict_ne. intros H%negb_false_iff%bool_decide_eq_true.
  by apply filter_keys_eq.
Qed.

Lemma scan_state_eta st :
  {| components := components st; components_to_remove := components_to_remove st |} = st.
Proof. by destruct st. Qed.

Lemma scan_step_outcome idx i component st :
  components st !! i = Some component →
  scan_step idx i component st =
  o ← component_outcome idx component; Ok (apply_outcome i o st).
Proof.
  intros Hi.
  assert (Ok st = Ok (apply_outcome i (Keep component) st)) as Hkeep.
  { simpl. by rewrite list_insert_id, scan_state_eta. }
  unfold scan_step, component_outcome.
  destruct component as [cls p|cls tag p|cls|lcls items|dcls c]; try exact Hkeep.
  destruct (dict_get c "type") as [comp_type|]; [|exact Hkeep].
  destruct (hash_of comp_type) as [k| |]; [|exact Hkeep|done].
  destruct (index_get idx k) as [parent_comps|]; [|exact Hkeep].
  destruct (whole_redundant c parent_comps); [done|].
  destruct (_remove_redundant_fields c parent_comps) as [cleaned|e] eqn:Hclean; [|done].
  simpl. destruct (dict_ne cleaned c) eqn:Hne; [done|].
  apply remove_redundant_fields_Ok in Hclean as (R & -> & _).
  apply dict_ne_false_eq in Hne. rewrite Hne. exact Hkeep.
Qed.

Lemma desc_below_mono n m js : (n ≤ m)%nat → desc_below n js → desc_below m js.
Proof. destruct js as [|j js]; simpl; [done|]. intros Hle [Hj Hjs]. split; [lia|done]. Qed.

Lemma foldl_delete_app {A} (l1 l2 : list A) js :
  desc_below (length l1) js →
  foldl (λ comps i, delete i comps) (l1 ++ l2) js =
  foldl (λ comps i, delete i comps) l1 js ++ l2.
Proof.
  revert l1. induction js as [|j js IH]; intros l1; simpl; [done|].
  intros [Hj Hjs].
  assert (delete j (l1 ++ l2) = delete j l1 ++ l2) as ->.
  { rewrite !delete_take_drop. rewrite take_app_le, drop_app_le by lia.
    by rewrite (assoc_L (++)). }
  apply IH. eapply desc_below_mono; [|done].
  rewrite length_delete by (by apply lookup_lt_is_Some). lia.
Qed.

Lemma scan_outcome_gen idx (rest done : list value) R :
  desc_below (length done) (reverse R) →
  (st ← scan_components idx (length rest) (length done)
          {| components := done ++ rest; components_to_remove := R |};
   Ok (remove_marked st)) =
  (out ← outcomes idx rest;
   Ok (foldl (λ comps i, delete i comps) done (reverse R) ++ out)).
Proof.
  revert done R. induction rest as [|c rest IH]; intros done R HR.
  - simpl. unfold remove_marked. simpl. by rewrite !app_nil_r.
  - cbn [length scan_components components outcomes].
    rewrite list_lookup_middle by done.
    rewrite scan_step_outcome by (simpl; by apply list_lookup_middle).
    destruct (component_outcome idx c) as [[v|]|e]; simpl; [| |done].
    + replace (<[length done:=v]> (done ++ c :: rest)) with ((done ++ [v]) ++ rest).
      2:{ rewrite <-(Nat.add_0_r (length done)), insert_app_r. simpl.
          by rewrite <-(assoc_L (++)). }
      replace (S (length done)) with (length (done ++ [v]))
        by (rewrite length_app; simpl; lia).
      rewrite IH.
      2:{ eapply desc_below_mono; [|done]. rewrite length_app. lia. }
      destruct (outcomes idx rest) as [out|e]; simpl; [|done].
      rewrite foldl_delete_app by done. by rewrite <-(assoc_L (++)).
    + replace (done ++ c :: rest) with ((done ++ [c]) ++ rest)
        by (by rewrite <-(assoc_L (++))).
      replace (S (length done)) with (length (done ++ [c]))
        by (rewrite length_app; simpl; lia).
      rewrite IH.
      2:{ rewrite reverse_app. simpl. rewrite length_app. simpl. split; [lia|done]. }
      destruct (outcomes idx rest) as [out|e]; simpl; [|done].
      rewrite reverse_app. simpl. by rewrite delete_middle, app_nil_r.
Qed.

Lemma scan_outcome_spec idx comps :
  sanitize_components idx comps = outcomes idx comps.
Proof.
  unfold sanitize_components.
  pose proof (scan_outcome_gen idx comps [] []) as H. simpl in H.
  rewrite H by done. by destruct (outcomes idx comps).
Qed.

Lemma outcomes_app idx l1 l2 :
  outcomes idx (l1 ++ l2) =
  o1 ← outcomes idx l1; o2 ← outcomes idx l2; Ok (o1 ++ o2).
Proof.
  induction l1 as [|c l1 IH]; simpl.
  - by destruct (outcomes idx l2).
  - destruct (component_outcome idx c) as [o|e]; simpl; [|done].
    rewrite IH. destruct (outcomes idx l1) as [o1|e]; simpl; [|done].
    destruct (outcomes idx l2) as [o2|e]; simpl; [|done].
    by rewrite (assoc_L (++)).
Qed.

Lemma sanitize_components_app idx l1 l2 :
  sanitize_components idx (l1 ++ l2) =
  o1 ← sanitize_components idx l1; o2 ← sanitize_components idx l2; Ok (o1 ++ o2).
Proof. rewrite !scan_outcome_spec. apply outcomes_app. Qed.

Lemma sanitize_components_one idx c :
  sanitize_components idx [c] = o ← component_outcome idx c; Ok (emit o).
Proof.
  rewrite scan_outcome_spec. simpl.
  destruct (component_outcome idx c) as [o|e]; simpl; [|done]. by rewrite app_nil_r.
Qed.

(** ** The field orderer *)

Lemma filter_ext_elem {A} (P Q : A → Prop) `{!∀ x, Decision (P x), !∀ x, Decision (Q x)}
    (l : list A) :
  (∀ x, x ∈ l → P x ↔ Q x) → filter P l = filter Q l.
Proof.
  induction l as [|a l IH]; intros Hpq; [done|].
  rewrite !filter_cons.
  rewrite IH by (intros x Hx; apply Hpq; by right).
  destruct (decide (P a)) as [Hp|Hp], (decide (Q a)) as [Hq|Hq]; try done.
  - destruct Hq. apply Hpq; [left|done].
  - destruct Hp. apply Hpq; [left|done].
Qed.

Lemma dict_set_fresh k v (d : dict) : k ∉ keys d → dict_set k v d = d ++ [(k, v)].
Proof.
  unfold keys. induction d as [|[k' v'] d IH]; simpl; [done|].
  intros [Hne Hk]%not_elem_of_cons. rewrite decide_False by done. by rewrite IH.
Qed.

Lemma dict_set_keys k v v0 (d : dict) :
  dict_get d k = Some v0 → keys (dict_set k v d) = keys d.
Proof.
  unfold keys. induction d as [|[k' v'] d IH]; simpl; [done|].
  case_decide as Hk; simpl.
  - intros _. by subst.
  - intros H. f_equal. by apply IH.
Qed.

Lemma dict_get_set k v (d : dict) k' :
  dict_get (dict_set k v d) k' = if decide (k = k') then Some v else dict_get d k'.
Proof.
  induction d as [|[k0 v0] d IH]; simpl.
  - by destruct (decide (k = k')).
  - destruct (decide (k0 = k)) as [->|Hne]; simpl.
    + by destruct (decide (k = k')).
    + rewrite IH. destruct (decide (k0 = k')) as [->|]; [|done].
      by rewrite decide_False.
Qed.

Lemma dict_set_same k v (d : dict) : dict_get d k = Some v → dict_set k v d = d.
Proof.
  induction d as [|[k0 v0] d IH]; simpl; [done|].
  case_decide as Hk.
  - intros [= ->]. by subst.
  - intros H. by rewrite IH.
Qed.

Lemma dict_set_set k v v' (d : dict) : dict_set k v (dict_set k v' d) = dict_set k v d.
Proof.
  induction d as [|[k0 v0] d IH]; simpl.
  - by rewrite decide_True.
  - case_decide as Hk; simpl.
    + by rewrite decide_True.
    + rewrite decide_False by done. by rewrite IH.
Qed.

Lemma order_first_loop (prototype : dict) fields (acc : dict) :
  NoDup fields → (∀ f, f ∈ fields → f ∉ keys acc) →
  foldl (λ ordered field,
           match dict_get prototype field with
           | Some v => dict_set field v ordered
           | None => ordered
           end) acc fields
  = acc ++ omap (λ field, pair field <$> dict_get prototype field) fields.
Proof.
  revert acc. induction fields as [|f fields IH]; intros acc Hnd Hfresh; simpl.
  - by rewrite app_nil_r.
  - apply NoDup_cons in Hnd as [Hf Hnd].
    destruct (dict_get prototype f) as [v|] eqn:Hget; simpl.
    + rewrite dict_set_fresh by (apply Hfresh; left).
      rewrite IH; [by rewrite <-(assoc_L (++))|done|].
      intros f' Hf'. unfold keys. rewrite fmap_app. simpl.
      rewrite elem_of_app, list_elem_of_singleton.
      intros [Hin| ->]; [|done]. apply (Hfresh f'); [by right|done].
    + apply IH; [done|]. intros f' Hf'. apply Hfresh. by right.
Qed.

Lemma order_second_loop (prototype acc : dict) :
  NoDup (keys prototype) →
  foldl (λ ordered kv,
           if dict_mem kv.1 ordered then ordered else dict_set kv.1 kv.2 ordered)
    acc prototype
  = acc ++ filter (λ kv, kv.1 ∉ keys acc) prototype.
Proof.
  unfold keys. revert acc. induction prototype as [|[k v] d IH]; intros acc Hnd; simpl.
  - by rewrite app_nil_r.
  - apply NoDup_cons in Hnd as [Hk Hnd]. rewrite filter_cons. simpl.
    destruct (dict_mem k acc) eqn:Hmem.
    + apply dict_mem_true in Hmem. rewrite IH by done.
      by rewrite decide_False by (intros H; by apply H).
    + apply not_true_iff_false in Hmem. rewrite dict_mem_true in Hmem.
      rewrite decide_True by done. rewrite dict_set_fresh by done.
      rewrite IH by done. rewrite <-(assoc_L (++)). simpl. do 2 f_equal.
      apply filter_ext_elem. intros [k' v'] Hin. simpl.
      rewrite fmap_app, elem_of_app. simpl. rewrite list_elem_of_singleton.
      split; [tauto|]. intros Hn [H| ->]; [done|].
      apply Hk. apply list_elem_of_fmap. by exists (k, v').
Qed.

Lemma NoDup_field_order : NoDup PROTOTYPE_FIELD_ORDER.
Proof. apply (bool_decide_unpack _). by vm_compute. Qed.

Lemma elem_of_priority (prototype : dict) (fields : list string) k v :
  (k, v) ∈ omap (λ field, pair field <$> dict_get prototype field) fields
  ↔ k ∈ fields ∧ dict_get prototype k = Some v.
Proof.
  rewrite list_elem_of_omap. split.
  - intros (f & Hf & Hget).
    destruct (dict_get prototype f) as [v'|] eqn:E; [|done].
    injection Hget as <- <-. done.
  - intros [Hk Hv]. exists k. split; [done|]. by rewrite Hv.
Qed.

Lemma keys_priority (prototype : dict) (fields : list string) k :
  k ∈ keys (omap (λ field, pair field <$> dict_get prototype field) fields)
  ↔ k ∈ fields ∧ k ∈ keys prototype.
Proof.
  unfold keys at 1. rewrite list_elem_of_fmap. split.
  - intros ([k' v] & -> & [Hk Hv]%elem_of_priority). simpl.
    split; [done|]. apply dict_get_is_Some. by rewrite Hv.
  - intros [Hk [v Hv]%dict_get_is_Some]. exists (k, v). split; [done|].
    by apply elem_of_priority.
Qed.

Lemma NoDup_keys_priority (prototype : dict) (fields : list string) :
  NoDup fields →
  NoDup (keys (omap (λ field, pair field <$> dict_get prototype field) fields)).
Proof.
  induction fields as [|f fields IH]; simpl; [intros _; apply NoDup_nil_2|].
  intros [Hf Hnd]%NoDup_cons.
  destruct (dict_get prototype f) as [v|]; simpl; [|by apply IH].
  apply NoDup_cons. split; [|by apply IH].
  intros [Hin _]%keys_priority. done.
Qed.

Lemma order_fields_spec (prototype : dict) :
  NoDup (keys prototype) →
  _order_prototype_fields prototype = order_spec PROTOTYPE_FIELD_ORDER prototype.
Proof.
  intros Hnd. unfold _order_prototype_fields, order_spec.
  rewrite order_first_loop; [|apply NoDup_field_order|intros f _; apply not_elem_of_nil].
  rewrite app_nil_l, order_second_loop by done. f_equal.
  apply filter_ext_elem. intros [k v] Hin. cbn [fst]. rewrite keys_priority.
  assert (k ∈ keys prototype).
  { unfold keys. apply list_elem_of_fmap. by exists (k, v). }
  tauto.
Qed.

Lemma NoDup_keys_pairs (d : dict) : NoDup (keys d) → NoDup d.
Proof. apply NoDup_fmap_1. Qed.

Lemma order_spec_Permutation (document : dict) :
  NoDup (keys document) → order_spec PROTOTYPE_FIELD_ORDER document ≡ₚ document.
Proof.
  intros Hnd. unfold order_spec.
  etrans; [|apply (filter_app_complement (λ kv, kv.1 ∈ PROTOTYPE_FIELD_ORDER) document)].
  apply Permutation_app; [|done].
  apply NoDup_Permutation.
  - apply NoDup_keys_pairs, NoDup_keys_priority, NoDup_field_order.
  - apply NoDup_filter. by apply NoDup_keys_pairs.
  - intros [k v]. rewrite elem_of_priority, list_elem_of_filter. simpl. split.
    + intros [Hk Hv]. split; [done|]. by apply dict_get_Some_elem.
    + intros [Hk Hv]. split; [done|]. by apply dict_get_NoDup.
Qed.

(** ** The comparer *)

Lemma all_m_true {A} (f : A → result bool) (l : list A) :
  all_m f l = Ok true ↔ ∀ x, x ∈ l → f x = Ok true.
Proof.
  induction l as [|x l IH]; simpl.
  - split; [|done]. intros _ x H. by apply elem_of_nil in H.
  - split.
    + intros H y [->|Hy]%elem_of_cons.
      * by destruct (f x) as [[]|].
      * destruct (f x) as [[]|]; [|done..]. by apply IH.
    + intros H. rewrite (H x) by left. apply IH. intros y Hy. apply H. by right.
Qed.

Lemma compare_dicts cls (a b : dict) :
  _compare_values (VDict cls a) (VDict cls b) =
  all_m (λ kv, match dict_get b kv.1 with
               | Some v2 => _compare_values kv.2 v2
               | None => Ok false
               end) a.
Proof. simpl. by rewrite bool_decide_eq_true_2. Qed.

(** The type test comes first. *)
Lemma compare_values_type_ne val1 val2 :
  type_of val1 ≠ type_of val2 → _compare_values val1 val2 = Ok false.
Proof.
  intros Hne. destruct val1; simpl; by rewrite bool_decide_eq_false_2.
Qed.

(** The whole-component check, case by case. *)
Lemma are_components_equal_true (comp1 comp2 : dict) :
  are_components_equal comp1 comp2 = true ↔
  (comp_data comp1 = [] ∧ comp_data comp2 = []) ∨
  (comp_data comp1 ≠ [] ∧ comp_data comp2 ≠ [] ∧
   _compare_values (VDict PyDict (comp_data comp1)) (VDict PyDict (comp_data comp2))
     = Ok true).
Proof.
  unfold are_components_equal.
  destruct (comp_data comp1) as [|kv1 d1], (comp_data comp2) as [|kv2 d2];
    cbn [is_empty andb negb].
  - split; [by left|done].
  - rewrite bool_decide_eq_false_2 by done. simpl. split; [done|].
    by intros [[_ [=]]|[[] _]].
  - rewrite bool_decide_eq_false_2 by done. simpl. split; [done|].
    by intros [[[=] _]|(_ & [] & _)].
  - rewrite bool_decide_eq_true_2 by done. cbn [negb].
    destruct (_compare_values _ _) as [[]|e].
    + split; [by right|done].
    + split; [done|]. by intros [[[=] _]|(_ & _ & [=])].
    + split; [done|]. by intros [[[=] _]|(_ & _ & [=])].
Qed.

(** ** Claims about the comparer *)

(** C3, as the code has it.  The runtime types are compared first: for all
    mappings [a] and [b] the comparer returns true if and only if [a] and
    [b] are of the same class and every key of [a] is a key of [b] with a
    value that the comparer finds equal; so, for two mappings of one class,
    [{a: 1}] is equal to [{a: 1, b: 2}] and [{a: 1, b: 2}] is not equal to
    [{a: 1}]: the comparer is not symmetric on mappings. *)
Theorem compare_mappings_is_containment :
  (∀ cls1 cls2 (a b : dict),
     _compare_values (VDict cls1 a) (VDict cls2 b) = Ok true ↔
     cls1 = cls2 ∧
     ∀ k v, (k, v) ∈ a →
            ∃ v', dict_get b k = Some v' ∧ _compare_values v v' = Ok true) ∧
  (∀ cls,
     _compare_values
       (VDict cls [("a", VScalar "int" (PInt 1))])
       (VDict cls [("a", VScalar "int" (PInt 1)); ("b", VScalar "int" (PInt 2))])
       = Ok true ∧
     _compare_values
       (VDict cls [("a", VScalar "int" (PInt 1)); ("b", VScalar "int" (PInt 2))])
       (VDict cls [("a", VScalar "int" (PInt 1))])
       = Ok false).
Proof.
  split; [|by intros []].
  intros cls1 cls2 a b. destruct (decide (cls1 = cls2)) as [->|Hne].
  - rewrite compare_dicts, all_m_true. split.
    + intros H. split; [done|]. intros k v Hin. specialize (H (k, v) Hin). simpl in H.
      destruct (dict_get b k) as [v'|]; [|done]. by exists v'.
    + intros [_ H] [k v] Hin. destruct (H k v Hin) as (v' & Hget & Hcmp). simpl.
      by rewrite Hget.
  - rewrite compare_values_type_ne by (simpl; congruence). split; [done|]. by intros [? _].
Qed.

(** C3 fails as stated: every key of a [dict] is a key of a [CommentedMap]
    with an equal value, and the two mappings are not equal. *)
Lemma compare_mappings_counterexample :
  let a := [("a", VScalar "int" (PInt 1))] in
  (∀ k v, (k, v) ∈ a →
          ∃ v', dict_get a k = Some v' ∧ _compare_values v v' = Ok true) ∧
  _compare_values (VDict PyDict a) (VDict CommentedMap a) = Ok false.
Proof.
  split; [|reflexivity].
  intros k v [= -> ->]%list_elem_of_singleton. by eexists.
Qed.

(** C6.  In the whole-component check, a component that has only its
    [type] field is equal to an ancestor component that has no field beyond
    [type] either; and when exactly one of the two has fields beyond
    [type], they are not equal. *)
Theorem type_only_components_equal (comp1 comp2 : dict) :
  (comp_data comp1 = [] → comp_data comp2 = [] →
     are_components_equal comp1 comp2 = true) ∧
  ((comp_data comp1 = [] ↔ comp_data comp2 ≠ []) →
     are_components_equal comp1 comp2 = false).
Proof.
  unfold are_components_equal. split.
  - by intros -> ->.
  - intros Hx.
    destruct (comp_data comp1) as [|kv1 d1], (comp_data comp2) as [|kv2 d2]; simpl.
    + exfalso. by apply (proj1 Hx).
    + done.
    + done.
    + exfalso. by assert (kv1 :: d1 = []) by (by apply (proj2 Hx)).
Qed.

Lemma type_only_components_equal_witness :
  are_components_equal [("type", VScalar "str" (PStr "Sprite"))]
                       [("type", VScalar "str" (PStr "Sprite"))] = true ∧
  are_components_equal [("type", VScalar "str" (PStr "Sprite"))]
                       [("type", VScalar "str" (PStr "Sprite"));
                        ("path", VScalar "str" (PStr "x"))] = false.
Proof.
  split.
  - apply (type_only_components_equal _ _); reflexivity.
  - apply (type_only_components_equal _ _). vm_compute. split; [discriminate|done].
Defined.

(** C7, as the code has it.  The runtime types are compared first: two
    objects with a [value] attribute are equal exactly when they are of the
    same class and their [value]s are equal; the tag plays no part, and
    neither does which object it is. *)
Theorem compare_wrappers cls1 tag1 p1 cls2 tag2 p2 :
  _compare_values (VWrapper cls1 tag1 p1) (VWrapper cls2 tag2 p2) =
  Ok (bool_decide (cls1 = cls2) && prim_eqb p1 p2).
Proof.
  simpl. destruct (decide (cls1 = cls2)) as [->|Hne].
  - by rewrite !bool_decide_eq_true_2.
  - rewrite !bool_decide_eq_false_2; [done..|congruence].
Qed.

(** C7 fails as stated: two wrappers that carry the same primitive and are
    of different classes are not equal. *)
Lemma compare_wrappers_counterexample :
  prim_eqb (PStr "x") (PStr "x") = true ∧
  _compare_values (VWrapper "TaggedScalar" "!type:A" (PStr "x"))
                  (VWrapper "Wrapped" "!type:A" (PStr "x")) = Ok false.
Proof. split; reflexivity. Qed.

(** ** Claims about the field orderer *)

(** C9.  The field orderer returns the key-value pairs of its input, each
    once and unaltered: first the priority keys that the document has, in
    the order type, abstract, parent, id, categories, name, suffix,
    description, components, then all other keys in their original relative
    order. *)
Theorem order_prototype_fields_correct (document : dict) :
  NoDup (keys document) →
  _order_prototype_fields document =
    order_spec ["type"; "abstract"; "parent"; "id"; "categories"; "name"; "suffix";
                "description"; "components"] document ∧
  _order_prototype_fields document ≡ₚ document.
Proof.
  intros Hnd. split.
  - exact (order_fields_spec document Hnd).
  - rewrite order_fields_spec by done. by apply order_spec_Permutation.
Qed.

Lemma order_prototype_fields_witness :
  let document :=
    [("components", cseq []); ("zeta", VScalar "int" (PInt 1));
     ("description", str "d"); ("suffix", str "s"); ("name", str "n");
     ("categories", cseq []); ("id", str "P"); ("alpha", cseq []);
     ("parent", str "A"); ("abstract", VScalar "bool" (PBool true));
     ("type", str "entity")] in
  _order_prototype_fields document =
    [("type", str "entity"); ("abstract", VScalar "bool" (PBool true));
     ("parent", str "A"); ("id", str "P"); ("categories", cseq []);
     ("name", str "n"); ("suffix", str "s"); ("description", str "d");
     ("components", cseq []);
     ("zeta", VScalar "int" (PInt 1)); ("alpha", cseq [])] ∧
  _order_prototype_fields document ≡ₚ document.
Proof.
  intros document.
  apply (order_prototype_fields_correct document).
  apply (bool_decide_unpack _). by vm_compute.
Defined.

(** ** When the code returns *)

Lemma all_m_total {A} (f : A → result bool) (l : list A) :
  (∀ x, x ∈ l → ∃ b, f x = Ok b) → ∃ b, all_m f l = Ok b.
Proof.
  induction l as [|x l IH]; intros Hall; simpl; [by eexists|].
  destruct (Hall x) as [[] ->]; [left| |by eexists].
  apply IH. intros y Hy. apply Hall. by right.
Qed.

(** The comparer raises on objects whose [__eq__] raises only. *)
Lemma compare_values_total val1 val2 :
  opaque_free val1 = true → ∃ b, _compare_values val1 val2 = Ok b.
Proof.
  revert val2.
  induction val1 as [cls p|cls tag p|cls|lcls items IH|dcls items IH] using value_ind;
    intros val2 Hfree; simpl in Hfree |- *.
  - destruct val2; simpl; try (by eexists).
    destruct (bool_decide _); by eexists.
  - destruct val2; simpl; try (by eexists).
    destruct (bool_decide _); by eexists.
  - done.
  - destruct val2 as [| | |lcls2 items2|]; simpl; try (by eexists).
    destruct (negb (bool_decide _)); [by eexists|].
    destruct (negb _); [by eexists|].
    revert items2. induction items as [|v items IHitems]; intros items2.
    + destruct items2; by eexists.
    + destruct items2 as [|v2 items2]; [by eexists|].
      apply andb_true_iff in Hfree as [Hv Hfree].
      apply Forall_cons in IH as [IHv IH].
      destruct (IHv v2 Hv) as [[] ->]; [|by eexists].
      by apply IHitems.
  - destruct val2 as [| | | |dcls2 items2]; simpl; try (by eexists).
    destruct (negb (bool_decide _)); [by eexists|].
    apply all_m_total. intros [k v] Hin. simpl.
    destruct (dict_get items2 k) as [v2|]; [|by eexists].
    rewrite Forall_forall in IH. apply (IH (k, v) Hin).
    rewrite forallb_forall in Hfree. apply (Hfree (k, v)).
    by apply list_elem_of_In.
Qed.

Lemma remove_redundant_fields_total {cls} (component : dict) parents_components :
  opaque_free (VDict cls component) = true →
  ∃ cleaned, _remove_redundant_fields component parents_components = Ok cleaned.
Proof.
  intros Hfree. simpl in Hfree. rewrite forallb_forall in Hfree.
  destruct (scan_parents_total component parents_components ∅) as [R HR].
  { intros pc [k v] _ Hkv. unfold field_matches. simpl.
    destruct (bool_decide (k = "type")); [by eexists|].
    destruct (dict_get pc k) as [pv|]; [|by eexists].
    apply compare_values_total. apply (Hfree (k, v)). by apply list_elem_of_In. }
  unfold _remove_redundant_fields. rewrite HR. by eexists.
Qed.

(** A component that holds no raising object and whose type can be hashed
    comes out of the scan: dropped, or kept as a mapping. *)
Lemma component_outcome_total idx cls (c : dict) :
  opaque_free (VDict cls c) = true →
  (∀ comp_type, dict_get c "type" = Some comp_type → hash_of comp_type ≠ Unhashable) →
  component_outcome idx (VDict cls c) = Ok Drop ∨
  ∃ cleaned, component_outcome idx (VDict cls c) = Ok (Keep (VDict cls cleaned)).
Proof.
  intros Hfree Hhash. unfold component_outcome.
  destruct (dict_get c "type") as [comp_type|]; [|right; by eexists].
  specialize (Hhash comp_type eq_refl).
  destruct (hash_of comp_type) as [k| |]; [|right; by eexists|done].
  destruct (index_get idx k) as [parent_comps|]; [|right; by eexists].
  destruct (whole_redundant c parent_comps); [by left|]. right.
  destruct (remove_redundant_fields_total c parent_comps Hfree) as [cleaned ->].
  by eexists.
Qed.

(** More fuel does not change what the collector returns. *)
Lemma fold_m_Ok_ext {A B} (f g : A → B → result A) a l r :
  (∀ a x a', f a x = Ok a' → g a x = Ok a') →
  fold_m f a l = Ok r → fold_m g a l = Ok r.
Proof.
  intros Hfg. revert a. induction l as [|x l IH]; intros a; simpl; [done|].
  intros (a' & Ha' & Hrest)%bind_Ok. rewrite (Hfg _ _ _ Ha'). simpl. by apply IH.
Qed.

Lemma get_all_parent_components_fuel fuel fuel' prototypes prototype idx :
  fuel ≤ fuel' →
  get_all_parent_components fuel prototypes prototype = Ok idx →
  get_all_parent_components fuel' prototypes prototype = Ok idx.
Proof.
  revert fuel' prototype idx.
  induction fuel as [|fuel IH]; intros fuel' prototype idx Hle; [done|].
  destruct fuel' as [|fuel']; [lia|]. simpl.
  destruct (parents_of prototype) as [parents|]; [|done].
  apply fold_m_Ok_ext. intros acc parent_id acc'.
  destruct (hash_of parent_id) as [k| |]; [|done..].
  destruct (store_get prototypes k) as [parent|]; [|done].
  intros (direct & -> & (parent_comps & Hrec & [= <-])%bind_Ok)%bind_Ok. simpl.
  rewrite (IH fuel' parent parent_comps); [done|lia|done].
Qed.

(** A store whose parent references descend along a rank has no cycle, and
    the collector does not run out of depth on it. *)
Lemma fold_m_not_Raise {A B} (f : A → B → result A) a l e :
  (∀ a x, x ∈ l → f a x ≠ Raise e) → fold_m f a l ≠ Raise e.
Proof.
  revert a. induction l as [|x l IH]; intros a Hf; simpl; [done|].
  destruct (f a x) as [a'|e'] eqn:E; simpl.
  - apply IH. intros a0 y Hy. apply Hf. by right.
  - intros [= ->]. by apply (Hf a x); [left|].
Qed.

Lemma add_component_not_RecursionError acc comp :
  add_component acc comp ≠ Raise RecursionError.
Proof.
  destruct comp as [| | | |dcls d]; try done. simpl.
  destruct (dict_get d "type") as [t|]; [|done]. by destruct (hash_of t).
Qed.

Lemma collector_enough_fuel prototypes rank :
  (∀ k d, store_get prototypes k = Some d → ranked prototypes rank (rank k) d) →
  ∀ n fuel prototype,
    n < fuel → ranked prototypes rank n prototype →
    get_all_parent_components fuel prototypes prototype ≠ Raise RecursionError.
Proof.
  intros Hstore. induction n as [n IH] using lt_wf_ind.
  intros fuel prototype Hfuel Hr.
  destruct fuel as [|fuel]; [lia|]. simpl.
  destruct (parents_of prototype) as [parents|] eqn:Hparents; [|done].
  apply fold_m_not_Raise. intros acc parent_id Hin.
  destruct (hash_of parent_id) as [k| |] eqn:Hhash; [|done..].
  destruct (store_get prototypes k) as [parent|] eqn:Hget; [|done].
  assert (rank k < n) as Hlt by (by eapply Hr).
  assert (get_all_parent_components fuel prototypes parent ≠ Raise RecursionError) as Hrec.
  { apply (IH (rank k)); [done|lia|]. by apply Hstore. }
  destruct (match dict_get parent "components" with
            | Some comps => comps' ← py_iter comps; fold_m add_component acc comps'
            | None => Ok acc
            end) as [direct|e] eqn:Hdirect; simpl.
  - by destruct (get_all_parent_components fuel prototypes parent).
  - intros [= ->]. destruct (dict_get parent "components") as [comps|]; [|done].
    destruct (py_iter comps) as [comps'|e'] eqn:Hiter; simpl in Hdirect.
    + by apply fold_m_not_Raise in Hdirect;
        [|intros; apply add_component_not_RecursionError].
    + destruct comps as [? []| | | |]; simpl in Hiter; congruence.
Qed.

(** ** Claims about the eliminator *)

Lemma sanitize_prototype_components fuel prototypes (prototype : dict) {cls} comps :
  dict_get prototype "components" = Some (VList cls comps) →
  sanitize_prototype fuel prototypes prototype =
  parent_components ← get_all_parent_components fuel prototypes prototype;
  comps' ← sanitize_components parent_components comps;
  Ok (_order_prototype_fields (dict_set "components" (VList cls comps') prototype)).
Proof. unfold sanitize_prototype, deepcopy. by intros ->. Qed.

Lemma whole_redundant_true component parent_comps :
  whole_redundant component parent_comps = true ↔
  ∃ anc, anc ∈ parent_comps ∧ are_components_equal component anc = true.
Proof.
  induction parent_comps as [|pc rest IH]; simpl.
  - split; [done|]. intros (anc & H & _). by apply elem_of_nil in H.
  - destruct (are_components_equal component pc) eqn:E.
    + split; [|done]. intros _. exists pc. split; [left|done].
    + rewrite IH. split.
      * intros (anc & Hin & Heq). exists anc. split; [by right|done].
      * intros (anc & [->|Hin]%elem_of_cons & Heq); [congruence|by exists anc].
Qed.

Lemma component_outcome_ancestors idx cls (c : dict) :
  component_outcome idx (VDict cls c) =
  match dict_get c "type" with
  | Some comp_type =>
      match hash_of comp_type with
      | Unhashable => Raise TypeError
      | ById => Ok (Keep (VDict cls c))
      | Hashable k =>
          match index_get idx k with
          | None => Ok (Keep (VDict cls c))
          | Some _ =>
              if whole_redundant c (ancestors_of_type idx c) then Ok Drop
              else
                cleaned_comp ← _remove_redundant_fields c (ancestors_of_type idx c);
                Ok (Keep (VDict cls cleaned_comp))
          end
      end
  | None => Ok (Keep (VDict cls c))
  end.
Proof.
  unfold component_outcome, ancestors_of_type.
  destruct (dict_get c "type") as [comp_type|]; [|done].
  destruct (hash_of comp_type) as [k| |]; [|done..].
  by destruct (index_get idx k).
Qed.

(** C4, as the code has it.  When the type of a component [c] of the
    target is a key of the index, the fields of [c] other than [type] are
    equal for the comparer, called once with those of [c] first, to the
    fields other than [type] of one of the collected ancestors of that
    type, and [c] and that ancestor both have fields beyond [type] or both
    have none, then [c] is removed: the output holds what the scan makes of
    the other components and nothing for [c].  The ancestors after the
    first match are not consulted: whatever they are, the loop is left at
    the match. *)
Theorem whole_component_removed fuel prototypes (prototype : dict)
    (before after : list value) lcls cls (c : dict) idx comp_type k
    (pre post : list dict) (anc : dict) :
  dict_get prototype "components" = Some (VList lcls (before ++ VDict cls c :: after)) →
  get_all_parent_components fuel prototypes prototype = Ok idx →
  dict_get c "type" = Some comp_type →
  hash_of comp_type = Hashable k →
  index_get idx k = Some (pre ++ anc :: post) →
  _compare_values (VDict PyDict (comp_data c)) (VDict PyDict (comp_data anc)) = Ok true →
  (comp_data c = [] ↔ comp_data anc = []) →
  sanitize_components idx [VDict cls c] = Ok [] ∧
  (∀ post', whole_redundant c (pre ++ anc :: post') = true) ∧
  sanitize_prototype fuel prototypes prototype =
    (comps' ← sanitize_components idx (before ++ after);
     Ok (_order_prototype_fields (dict_set "components" (VList lcls comps') prototype))).
Proof.
  intros Hcomps Hidx Htype Hhash Hget Hcmp Hbare.
  assert (are_components_equal c anc = true) as Heq.
  { apply are_components_equal_true.
    destruct (comp_data c) as [|kv d] eqn:Hc.
    - left. split; [done|]. by apply Hbare.
    - right. split; [done|]. split; [|done]. intros Hanc. by apply Hbare in Hanc. }
  assert (∀ post', whole_redundant c (pre ++ anc :: post') = true) as Hwhole.
  { intros post'. apply whole_redundant_true. exists anc. split; [|done].
    apply elem_of_app. right. left. }
  assert (sanitize_components idx [VDict cls c] = Ok []) as Hone.
  { rewrite sanitize_components_one. simpl.
    by rewrite Htype, Hhash, Hget, Hwhole. }
  split; [done|]. split; [done|].
  rewrite (sanitize_prototype_components _ _ _ _ Hcomps), Hidx. simpl.
  rewrite (sanitize_components_app idx before (VDict cls c :: after)).
  rewrite (sanitize_components_app idx before after).
  change (VDict cls c :: after) with ([VDict cls c] ++ after).
  rewrite (sanitize_components_app idx [VDict cls c] after), Hone. simpl.
  destruct (sanitize_components idx before) as [o1|e]; simpl; [|done].
  by destruct (sanitize_components idx after) as [o2|e].
Qed.

(** The fields of [P]'s [Sprite] are among those of the second ancestor,
    which has one more: the comparison holds with the component first and
    would not with the ancestor first. *)
Lemma whole_component_removed_witness :
  let prototypes :=
    [(HStr "A", entity "A" [] [cmap sprite_color; cmap sprite_both; cmap sprite_bare])] in
  let prototype := entity "P" [("parent", str "A")] [cmap sprite_path; str "note"] in
  let idx := [(HStr "Sprite", [sprite_color; sprite_both; sprite_bare])] in
  sanitize_components idx [cmap sprite_path] = Ok [] ∧
  (∀ post', whole_redundant sprite_path ([sprite_color] ++ sprite_both :: post') = true) ∧
  sanitize_prototype 4 prototypes prototype =
    (comps' ← sanitize_components idx ([] ++ [str "note"]);
     Ok (_order_prototype_fields (dict_set "components" (cseq comps') prototype))).
Proof.
  intros prototypes prototype idx.
  apply (whole_component_removed 4 prototypes prototype [] [str "note"]
           CommentedSeq CommentedMap sprite_path idx
           (str "Sprite") (HStr "Sprite") [sprite_color] [sprite_bare] sprite_both);
    try reflexivity.
  split; discriminate.
Defined.

(** C4 fails as stated: the fields other than [type] of a component that
    has none are equal for the comparer to those of an ancestor that has
    some, and the component is kept. *)
Lemma whole_component_removed_counterexample :
  let prototypes := [(HStr "A", entity "A" [] [cmap sprite_path])] in
  let prototype := entity "P" [("parent", str "A")] [cmap sprite_bare] in
  get_all_parent_components 4 prototypes prototype = Ok [(HStr "Sprite", [sprite_path])] ∧
  _compare_values (VDict PyDict (comp_data sprite_bare))
                  (VDict PyDict (comp_data sprite_path)) = Ok true ∧
  sanitize_prototype 4 prototypes prototype = Ok (_order_prototype_fields prototype) ∧
  dict_get (_order_prototype_fields prototype) "components" = Some (cseq [cmap sprite_bare]).
Proof. repeat split; reflexivity. Qed.

Lemma filter_notin_empty (R : gset string) (c : dict) :
  R = ∅ → filter (λ kv, kv.1 ∉ R) c = c.
Proof.
  intros ->. induction c as [|kv c IH]; [done|].
  rewrite filter_cons_True by apply not_elem_of_empty. by f_equal.
Qed.

Lemma dict_get_filter_notin (R : gset string) (d : dict) k :
  k ∉ R → dict_get (filter (λ kv, kv.1 ∉ R) d) k = dict_get d k.
Proof.
  intros Hk. induction d as [|[k0 v0] d IH]; [done|].
  rewrite filter_cons. simpl. destruct (decide (k0 ∉ R)) as [H0|H0]; simpl.
  - by rewrite IH.
  - rewrite IH. rewrite decide_False; [done|]. by intros ->.
Qed.

Lemma field_matches_true parent_comp key v :
  key ≠ "type" →
  field_matches parent_comp (key, v) = Ok true ↔
  ∃ pv, dict_get parent_comp key = Some pv ∧ _compare_values v pv = Ok true.
Proof.
  intros Hne. unfold field_matches. simpl.
  rewrite bool_decide_eq_false_2 by done.
  destruct (dict_get parent_comp key) as [pv|].
  - split; [by exists pv|]. by intros (pv' & [= <-] & H).
  - split; [done|]. by intros (pv' & [=] & _).
Qed.

(** What the scan keeps of a mapping that it does not drop. *)
Lemma component_outcome_Keep idx cls (c : dict) v :
  component_outcome idx (VDict cls c) = Ok (Keep v) →
  ∃ R : gset string,
    v = VDict cls (filter (λ kv, kv.1 ∉ R) c) ∧
    (∀ k, k ∈ R ↔ marked c (ancestors_of_type idx c) k) ∧
    (∀ anc kv, anc ∈ ancestors_of_type idx c → kv ∈ c →
       ∃ b, field_matches anc kv = Ok b).
Proof.
  assert (∃ R : gset string,
            VDict cls c = VDict cls (filter (λ kv, kv.1 ∉ R) c) ∧
            (∀ k, k ∈ R ↔ marked c [] k) ∧
            (∀ anc kv, anc ∈ @nil dict → kv ∈ c → ∃ b, field_matches anc kv = Ok b))
    as Hsame.
  { exists (∅ : gset string). rewrite filter_notin_empty by done. split; [done|]. split.
    - intros k. split; [by intros ?%not_elem_of_empty|].
      intros (pc & _ & H & _). by apply elem_of_nil in H.
    - intros anc kv H. by apply elem_of_nil in H. }
  rewrite component_outcome_ancestors. unfold ancestors_of_type in *.
  destruct (dict_get c "type") as [comp_type|]; [|by intros [= <-]].
  destruct (hash_of comp_type) as [k| |]; [|by intros [= <-]|done].
  destruct (index_get idx k) as [parent_comps|]; simpl; [|by intros [= <-]].
  destruct (whole_redundant c parent_comps); [done|].
  intros (cleaned & Hclean & [= <-])%bind_Ok.
  apply remove_redundant_fields_Ok in Hclean as (R & -> & HR & Hall). by exists R.
Qed.

(** C5.  For a component [c] of the target that is not marked for whole
    removal, the output holds, in its place, [c] less some fields: a field
    other than [type] is dropped exactly when some collected ancestor
    component of the type of [c] has that key with a value that the comparer
    finds equal, each field on its own; the [type] field stays.  The scan of
    such a component returns when none of its values raises on [==] and its
    type can be hashed.  The last part shows a component stripped to its
    [type] field alone and kept. *)
Theorem field_level_stripping :
  (∀ idx (before after : list value) cls (c : dict) out,
     NoDup (keys c) →
     whole_redundant c (ancestors_of_type idx c) = false →
     sanitize_components idx (before ++ VDict cls c :: after) = Ok out →
     ∃ o1 o2 cleaned,
       sanitize_components idx before = Ok o1 ∧
       sanitize_components idx after = Ok o2 ∧
       out = o1 ++ VDict cls cleaned :: o2 ∧
       cleaned `sublist_of` c ∧
       dict_get cleaned "type" = dict_get c "type" ∧
       ∀ key v, (key, v) ∈ c → key ≠ "type" →
         ((key, v) ∉ cleaned ↔
          ∃ anc pv, anc ∈ ancestors_of_type idx c ∧ dict_get anc key = Some pv ∧
                    _compare_values v pv = Ok true)) ∧
  (∀ idx cls (c : dict),
     opaque_free (VDict cls c) = true →
     (∀ comp_type, dict_get c "type" = Some comp_type → hash_of comp_type ≠ Unhashable) →
     whole_redundant c (ancestors_of_type idx c) = false →
     ∃ cleaned, sanitize_components idx [VDict cls c] = Ok [VDict cls cleaned]) ∧
  (let idx := [(HStr "Sprite", [sprite_path; sprite_color])] in
   whole_redundant sprite_both (ancestors_of_type idx sprite_both) = false ∧
   sanitize_components idx [cmap sprite_both] = Ok [cmap sprite_bare]).
Proof.
  split; [|split; [|by vm_compute]].
  2:{ intros idx cls c Hfree Hhash Hwhole. rewrite sanitize_components_one.
      destruct (component_outcome_total idx cls c Hfree Hhash) as [Hdrop|[cleaned Hkeep]].
      - rewrite component_outcome_ancestors in Hdrop.
        destruct (dict_get c "type") as [comp_type|]; [|done].
        destruct (hash_of comp_type) as [k| |]; [|done..].
        destruct (index_get idx k); [|done].
        rewrite Hwhole in Hdrop.
        by destruct (_remove_redundant_fields c (ancestors_of_type idx c)).
      - rewrite Hkeep. by exists cleaned. }
  intros idx before after cls c out Hnd Hwhole Hout.
  rewrite sanitize_components_app in Hout.
  apply bind_Ok in Hout as (o1 & Ho1 & Hout).
  change (VDict cls c :: after) with ([VDict cls c] ++ after) in Hout.
  rewrite sanitize_components_app in Hout.
  apply bind_Ok in Hout as (o' & Hout & [= <-]).
  apply bind_Ok in Hout as (oc & Hoc & Hout).
  apply bind_Ok in Hout as (o2 & Ho2 & [= <-]).
  rewrite sanitize_components_one in Hoc.
  apply bind_Ok in Hoc as (o & Ho & [= <-]).
  assert (∃ v, o = Keep v) as [v ->].
  { rewrite component_outcome_ancestors in Ho.
    destruct (dict_get c "type") as [comp_type|]; [|by eexists; injection Ho as <-].
    destruct (hash_of comp_type) as [k| |]; [|by eexists; injection Ho as <-|done].
    destruct (index_get idx k); [|by eexists; injection Ho as <-].
    rewrite Hwhole in Ho. apply bind_Ok in Ho as (cl & _ & [= <-]). by eexists. }
  apply component_outcome_Keep in Ho as (R & -> & HR & _).
  exists o1, o2, (filter (λ kv, kv.1 ∉ R) c). simpl.
  split; [done|]. split; [done|]. split; [done|].
  split; [apply sublist_filter|].
  split.
  { apply dict_get_filter_notin. rewrite HR. apply marked_not_type. }
  intros key v Hin Hne. rewrite list_elem_of_filter. simpl.
  assert (key ∈ R ↔ ∃ anc, anc ∈ ancestors_of_type idx c ∧
                           field_matches anc (key, v) = Ok true) as HkR.
  { rewrite HR. split.
    - intros (anc & [key' v'] & Hanc & Hin' & Hk & Hm). simpl in Hk. subst key'.
      exists anc. split; [done|].
      assert (v' = v) as ->; [|done].
      apply (dict_get_NoDup _ _ _ Hnd) in Hin, Hin'. congruence.
    - intros (anc & Hanc & Hm). by exists anc, (key, v). }
  split.
  - intros Hnot. destruct (decide (key ∈ R)) as [HR'|HR'].
    + apply HkR in HR' as (anc & Hanc & Hm).
      apply field_matches_true in Hm as (pv & Hget & Hcmp); [|done].
      by exists anc, pv.
    + by destruct Hnot.
  - intros (anc & pv & Hanc & Hget & Hcmp) [HnR _]. apply HnR, HkR.
    exists anc. split; [done|]. apply field_matches_true; [done|]. by exists pv.
Qed.

Lemma field_level_stripping_witness :
  let idx := [(HStr "Sprite", [sprite_path])] in
  ∃ o1 o2 cleaned,
    sanitize_components idx [] = Ok o1 ∧
    sanitize_components idx [] = Ok o2 ∧
    [cmap sprite_color] = o1 ++ cmap cleaned :: o2 ∧
    cleaned `sublist_of` sprite_both ∧
    dict_get cleaned "type" = dict_get sprite_both "type" ∧
    ∀ key v, (key, v) ∈ sprite_both → key ≠ "type" →
      ((key, v) ∉ cleaned ↔
       ∃ anc pv, anc ∈ ancestors_of_type idx sprite_both ∧ dict_get anc key = Some pv ∧
                 _compare_values v pv = Ok true).
Proof.
  apply (proj1 field_level_stripping [(HStr "Sprite", [sprite_path])] [] []
           CommentedMap sprite_both [cmap sprite_color]).
  - apply (bool_decide_unpack _). by vm_compute.
  - reflexivity.
  - by vm_compute.
Defined.

(** ** Entries that are not typed mappings *)

Lemma component_outcome_untyped idx c :
  ¬ typed_component c → component_outcome idx c = Ok (Keep c).
Proof.
  destruct c as [cls p|cls tag p|cls|lcls items|dcls d]; try done.
  simpl. intros H. destruct (dict_get d "type"); [|done]. by destruct H.
Qed.

Lemma add_component_untyped acc c : ¬ typed_component c → add_component acc c = Ok acc.
Proof.
  destruct c as [cls p|cls tag p|cls|lcls items|dcls d]; try done.
  simpl. intros H. destruct (dict_get d "type"); [|done]. by destruct H.
Qed.

Lemma fold_add_component_filter acc (comps : list value) :
  fold_m add_component acc (filter typed_component comps) =
  fold_m add_component acc comps.
Proof.
  revert acc. induction comps as [|c comps IH]; intros acc; [done|].
  rewrite filter_cons. destruct (decide (typed_component c)) as [Ht|Ht]; simpl.
  - destruct (add_component acc c); simpl; [apply IH|done].
  - rewrite add_component_untyped by done. simpl. apply IH.
Qed.

Lemma parents_of_strip_untyped document :
  parents_of (strip_untyped document) = parents_of document.
Proof.
  unfold strip_untyped, parents_of.
  destruct (dict_get document "components") as [[| | |lcls comps|]|]; try done.
  by rewrite dict_get_set.
Qed.

Lemma get_all_parent_components_parents fuel prototypes (p1 p2 : dict) :
  parents_of p1 = parents_of p2 →
  get_all_parent_components fuel prototypes p1 =
  get_all_parent_components fuel prototypes p2.
Proof. intros H. destruct fuel; simpl; [done|]. by rewrite H. Qed.

Lemma fold_m_ext {A B} (f g : A → B → result A) a l :
  (∀ a x, f a x = g a x) → fold_m f a l = fold_m g a l.
Proof.
  intros H. revert a. induction l as [|x l IH]; intros a; simpl; [done|].
  rewrite H. destruct (g a x); simpl; [apply IH|done].
Qed.

Lemma store_get_fmap (f : dict → dict) (prototypes : store) k :
  store_get (prod_map id f <$> prototypes) k = f <$> store_get prototypes k.
Proof.
  induction prototypes as [|[k' d] rest IH]; simpl; [done|].
  by destruct (decide (k' = k)).
Qed.

Lemma direct_components_strip_untyped acc (parent : dict) :
  match dict_get (strip_untyped parent) "components" with
  | Some comps => comps' ← py_iter comps; fold_m add_component acc comps'
  | None => Ok acc
  end =
  match dict_get parent "components" with
  | Some comps => comps' ← py_iter comps; fold_m add_component acc comps'
  | None => Ok acc
  end.
Proof.
  unfold strip_untyped.
  destruct (dict_get parent "components") as [comps|] eqn:Hc; [|by rewrite Hc].
  destruct comps as [cls p|cls tag p|cls|lcls items|dcls d]; try (by rewrite Hc).
  rewrite dict_get_set, decide_True by done. simpl.
  apply fold_add_component_filter.
Qed.

Lemma collector_strip_untyped fuel prototypes (prototype : dict) :
  get_all_parent_components fuel (prod_map id strip_untyped <$> prototypes) prototype =
  get_all_parent_components fuel prototypes prototype.
Proof.
  revert prototype. induction fuel as [|fuel IH]; intros prototype; simpl; [done|].
  destruct (parents_of prototype) as [parents|]; [|done].
  apply fold_m_ext. intros acc parent_id.
  destruct (hash_of parent_id) as [k| |]; [|done..].
  rewrite store_get_fmap. destruct (store_get prototypes k) as [parent|]; simpl; [|done].
  rewrite direct_components_strip_untyped.
  rewrite IH.
  by rewrite (get_all_parent_components_parents _ _ _ _ (parents_of_strip_untyped parent)).
Qed.

(** C10.  An entry [c] of the target's [components] sequence that is not a
    mapping, or is a mapping without a [type] key, comes out of the scan as
    it went in, at its place among what the scan makes of the entries
    before and after it.  In the collector such an entry of an ancestor adds
    nothing: the loop over a parent's components leaves the index as it
    is, and the index collected from a store is the index collected from
    the store with every such entry taken out of every document. *)
Theorem untyped_entries_untouched (c : value) :
  ¬ typed_component c →
  (∀ idx before after,
     sanitize_components idx (before ++ c :: after) =
     (o1 ← sanitize_components idx before;
      o2 ← sanitize_components idx after;
      Ok (o1 ++ c :: o2))) ∧
  (∀ idx, add_component idx c = Ok idx) ∧
  (∀ fuel prototypes prototype,
     get_all_parent_components fuel (prod_map id strip_untyped <$> prototypes) prototype =
     get_all_parent_components fuel prototypes prototype).
Proof.
  intros Hc. split; [|split].
  - intros idx before after.
    rewrite sanitize_components_app.
    change (c :: after) with ([c] ++ after).
    rewrite (sanitize_components_app idx [c] after), sanitize_components_one.
    rewrite component_outcome_untyped by done. simpl.
    destruct (sanitize_components idx before) as [o1|e]; simpl; [|done].
    by destruct (sanitize_components idx after) as [o2|e].
  - intros idx. by apply add_component_untyped.
  - apply collector_strip_untyped.
Qed.

Lemma untyped_entries_untouched_witness :
  let c := cmap [("path", str "x")] in
  (∀ idx before after,
     sanitize_components idx (before ++ c :: after) =
     (o1 ← sanitize_components idx before;
      o2 ← sanitize_components idx after;
      Ok (o1 ++ c :: o2))) ∧
  (∀ idx, add_component idx c = Ok idx) ∧
  (∀ fuel prototypes prototype,
     get_all_parent_components fuel (prod_map id strip_untyped <$> prototypes) prototype =
     get_all_parent_components fuel prototypes prototype).
Proof.
  apply (untyped_entries_untouched (cmap [("path", str "x")])).
  vm_compute. by intros [v Hv].
Defined.

(** ** Sanitizing twice *)

Lemma dict_get_Permutation (d1 d2 : dict) k :
  NoDup (keys d1) → d1 ≡ₚ d2 → dict_get d2 k = dict_get d1 k.
Proof.
  intros Hnd Hp.
  assert (NoDup (keys d2)) as Hnd2 by (unfold keys in *; by rewrite <-Hp).
  destruct (dict_get d1 k) as [v|] eqn:H1.
  - apply dict_get_NoDup; [done|]. rewrite <-Hp. by apply dict_get_Some_elem.
  - apply dict_get_None. apply dict_get_None in H1. unfold keys in *. by rewrite <-Hp.
Qed.

Lemma dict_get_order (prototype : dict) k :
  NoDup (keys prototype) →
  dict_get (_order_prototype_fields prototype) k = dict_get prototype k.
Proof.
  intros Hnd. apply dict_get_Permutation; [done|].
  symmetry. rewrite order_fields_spec by done. by apply order_spec_Permutation.
Qed.

Lemma NoDup_keys_order (prototype : dict) :
  NoDup (keys prototype) → NoDup (keys (_order_prototype_fields prototype)).
Proof.
  intros Hnd. unfold keys in *.
  by rewrite order_fields_spec, order_spec_Permutation.
Qed.

Lemma omap_ext_elem {A B} (f g : A → option B) (l : list A) :
  (∀ x, x ∈ l → f x = g x) → omap f l = omap g l.
Proof.
  induction l as [|x l IH]; intros H; csimpl; [done|].
  rewrite (H x) by left. rewrite IH; [done|]. intros y Hy. apply H. by right.
Qed.

Lemma filter_nil_all {A} (P : A → Prop) `{!∀ x, Decision (P x)} (l : list A) :
  (∀ x, x ∈ l → ¬ P x) → filter P l = [].
Proof.
  induction l as [|x l IH]; intros Hall; [done|].
  rewrite filter_cons_False by (apply Hall; left).
  apply IH. intros y Hy. apply Hall. by right.
Qed.

Lemma order_idempotent (prototype : dict) :
  NoDup (keys prototype) →
  _order_prototype_fields (_order_prototype_fields prototype) =
  _order_prototype_fields prototype.
Proof.
  intros Hnd.
  rewrite (order_fields_spec (_order_prototype_fields prototype))
    by by apply NoDup_keys_order.
  unfold order_spec at 1.
  rewrite (omap_ext_elem _ (λ field, pair field <$> dict_get prototype field)).
  2:{ intros f _. by rewrite dict_get_order. }
  rewrite order_fields_spec by done. unfold order_spec.
  f_equal. rewrite filter_app.
  rewrite filter_nil_all.
  2:{ intros [k v] [Hk _]%elem_of_priority. simpl. by intros H. }
  rewrite list_filter_filter. apply list_filter_iff. tauto.
Qed.

Lemma ancestors_of_type_filter idx (R : gset string) (c : dict) :
  "type" ∉ R →
  ancestors_of_type idx (filter (λ kv, kv.1 ∉ R) c) = ancestors_of_type idx c.
Proof. intros H. unfold ancestors_of_type. by rewrite dict_get_filter_notin. Qed.

(** A component whose fields no ancestor matches is not equal, in the
    whole-component check, to an ancestor, but for the case of two components
    with nothing beyond [type]. *)
Lemma unmatched_not_equal (cleaned anc : dict) :
  (∀ kv, kv ∈ cleaned → field_matches anc kv = Ok false) →
  (comp_data cleaned = [] → comp_data anc ≠ []) →
  are_components_equal cleaned anc = false.
Proof.
  intros Hall Hbare. unfold are_components_equal.
  destruct (comp_data cleaned) as [|[k v] d1] eqn:H1.
  - destruct (comp_data anc) eqn:H2; [by destruct Hbare|done].
  - destruct (comp_data anc) as [|kv2 d2] eqn:H2; [done|]. simpl.
    assert ((k, v) ∈ comp_data cleaned) as Hin by (rewrite H1; left).
    unfold comp_data in Hin. apply list_elem_of_filter in Hin as [Hne Hin].
    simpl in Hne. specialize (Hall _ Hin). unfold field_matches in Hall.
    simpl in Hall. rewrite bool_decide_eq_false_2 in Hall by done.
    rewrite <-(dict_get_filter_ne anc k "type") in Hall by done.
    fold (comp_data anc) in Hall. rewrite H2 in Hall.
    simpl in Hall |- *. by rewrite Hall.
Qed.

Lemma whole_redundant_false component parent_comps :
  (∀ anc, anc ∈ parent_comps → are_components_equal component anc = false) →
  whole_redundant component parent_comps = false.
Proof.
  intros H. apply not_true_iff_false. rewrite whole_redundant_true.
  intros (anc & Hin & Heq). rewrite H in Heq; done.
Qed.

Lemma remove_redundant_fields_unmatched (cleaned : dict) parent_comps :
  (∀ anc kv, anc ∈ parent_comps → kv ∈ cleaned → field_matches anc kv = Ok false) →
  _remove_redundant_fields cleaned parent_comps = Ok cleaned.
Proof.
  intros Hall.
  destruct (scan_parents_total cleaned parent_comps ∅) as [R HR].
  { intros anc kv Hanc Hkv. exists false. by apply Hall. }
  unfold _remove_redundant_fields. rewrite HR. simpl. f_equal.
  rewrite delete_fields_filter. apply filter_notin_empty.
  apply scan_parents_Ok in HR as [_ HR].
  apply elem_of_equiv_empty_L. intros k [Hk|(anc & kv & Hanc & Hkv & _ & Hm)]%HR.
  - by apply not_elem_of_empty in Hk.
  - rewrite Hall in Hm; done.
Qed.

Lemma component_outcome_stable idx c0 v :
  component_outcome idx c0 = Ok (Keep v) →
  no_bare_match idx [v] →
  component_outcome idx v = Ok (Keep v).
Proof.
  intros Hout Hbare.
  destruct c0 as [cls p|cls tag p|cls|lcls items|dcls c]; try (by injection Hout as <-).
  pose proof Hout as Hout'.
  apply component_outcome_Keep in Hout' as (R & -> & HR & Hall).
  assert ("type" ∉ R) as Htype by (rewrite HR; apply marked_not_type).
  set (cleaned := filter (λ kv, kv.1 ∉ R) c) in *.
  assert (∀ anc kv, anc ∈ ancestors_of_type idx c → kv ∈ cleaned →
                    field_matches anc kv = Ok false) as Hfalse.
  { intros anc kv Hanc [HkR Hkv]%list_elem_of_filter.
    destruct (Hall anc kv Hanc Hkv) as [[] Hb]; [|done].
    destruct HkR. apply HR. by exists anc, kv. }
  assert (dict_get cleaned "type" = dict_get c "type") as Hty
    by (by apply dict_get_filter_notin).
  assert (ancestors_of_type idx cleaned = ancestors_of_type idx c) as Hancs
    by (by apply ancestors_of_type_filter).
  rewrite component_outcome_ancestors in Hout |- *.
  rewrite Hty, Hancs.
  destruct (dict_get c "type") as [comp_type|]; [|done].
  destruct (hash_of comp_type) as [k| |]; [|done..].
  destruct (index_get idx k) as [parent_comps|]; [|done].
  rewrite whole_redundant_false.
  - by rewrite remove_redundant_fields_unmatched.
  - intros anc Hanc. apply unmatched_not_equal; [intros kv Hkv; by apply Hfalse|].
    intros Hd. apply (Hbare dcls cleaned anc); [left|done|]. by rewrite Hancs.
Qed.

Lemma outcomes_stable idx comps comps' :
  outcomes idx comps = Ok comps' →
  no_bare_match idx comps' →
  outcomes idx comps' = Ok comps'.
Proof.
  revert comps'. induction comps as [|c comps IH]; intros comps'; simpl.
  - by intros [= <-].
  - intros (o & Ho & (out & Hout & [= <-])%bind_Ok)%bind_Ok Hbare.
    destruct o as [v|]; simpl in *.
    + rewrite (component_outcome_stable idx c v Ho); simpl.
      * rewrite (IH out Hout); [done|].
        intros cls' c' anc Hin. apply (Hbare cls'). by right.
      * intros cls' c' anc Hin. apply (Hbare cls').
        apply list_elem_of_singleton in Hin as ->. left.
    + by apply IH.
Qed.

Lemma outcomes_length idx comps out :
  outcomes idx comps = Ok out →
  length out ≤ length comps ∧
  (length out = length comps →
   ∀ c, c ∈ comps → ∃ v, component_outcome idx c = Ok (Keep v)).
Proof.
  revert out. induction comps as [|c comps IH]; intros out; simpl.
  - intros [= <-]. split; [done|]. intros _ c H. by apply elem_of_nil in H.
  - intros (o & Ho & (out' & Hout & [= <-])%bind_Ok)%bind_Ok.
    destruct (IH out' Hout) as [Hle Hall]. rewrite length_app.
    destruct o as [v|]; simpl; (split; [lia|]); [|lia].
    intros Hlen c' [->|Hin]%elem_of_cons; [by exists v|].
    apply Hall; [lia|done].
Qed.

Lemma bare_match_dropped idx cls (c anc : dict) :
  comp_data c = [] → anc ∈ ancestors_of_type idx c → comp_data anc = [] →
  component_outcome idx (VDict cls c) = Ok Drop.
Proof.
  intros Hc Hanc Hd. rewrite component_outcome_ancestors.
  assert (whole_redundant c (ancestors_of_type idx c) = true) as Hwhole.
  { apply whole_redundant_true. exists anc. split; [done|].
    apply are_components_equal_true. by left. }
  rewrite Hwhole. clear Hwhole. unfold ancestors_of_type in Hanc.
  destruct (dict_get c "type") as [comp_type|]; [|by apply elem_of_nil in Hanc].
  destruct (hash_of comp_type) as [k| |]; try (by apply elem_of_nil in Hanc).
  destruct (index_get idx k) as [parent_comps|]; [done|by apply elem_of_nil in Hanc].
Qed.

(** C1, as the code has it.  Sanitizing the result of a sanitize, with the
    same Document Store, gives the same document again exactly when no
    component of the first result that has only its [type] field has, among
    the collected ancestor components of its type, one that has only its
    [type] field too. *)
Theorem sanitize_twice fuel prototypes (prototype sanitized : dict) :
  NoDup (keys prototype) →
  sanitize_prototype fuel prototypes prototype = Ok sanitized →
  (sanitize_prototype fuel prototypes sanitized = Ok sanitized ↔
   ∀ idx cls comps, get_all_parent_components fuel prototypes prototype = Ok idx →
                    dict_get sanitized "components" = Some (VList cls comps) →
                    no_bare_match idx comps).
Proof.
  intros Hnd Hsan.
  unfold sanitize_prototype, deepcopy in Hsan.
  destruct (dict_get prototype "components") as [comps0|] eqn:Hc.
  2:{ injection Hsan as <-. split.
      - intros _ idx cls comps _. by rewrite dict_get_order, Hc.
      - intros _. unfold sanitize_prototype, deepcopy.
        rewrite dict_get_order, Hc by done. by rewrite order_idempotent. }
  assert (∀ v, dict_get prototype "components" = Some v →
               (∀ cls l, v ≠ VList cls l) →
               Ok (_order_prototype_fields prototype) = Ok sanitized →
               (sanitize_prototype fuel prototypes sanitized = Ok sanitized ↔
                ∀ idx cls comps,
                  get_all_parent_components fuel prototypes prototype = Ok idx →
                  dict_get sanitized "components" = Some (VList cls comps) →
                  no_bare_match idx comps)) as Hother.
  { intros v Hv Hnl [= <-]. split.
    - intros _ idx cls comps _. rewrite dict_get_order, Hv by done.
      intros [= ->]. by destruct (Hnl cls comps).
    - intros _. unfold sanitize_prototype, deepcopy.
      rewrite dict_get_order, Hv by done.
      destruct v as [| | |cls items|]; try (by rewrite order_idempotent).
      by destruct (Hnl cls items). }
  destruct comps0 as [cls p|cls tag p|cls|lcls comps|dcls d];
    try (by apply (Hother _ Hc)).
  clear Hother.
  apply bind_Ok in Hsan as (idx & Hidx & Hsan).
  apply bind_Ok in Hsan as (comps' & Hcomps' & [= <-]).
  set (updated := dict_set "components" (VList lcls comps') prototype) in *.
  assert (NoDup (keys updated)) as Hnd'.
  { unfold updated. by rewrite (dict_set_keys _ _ _ _ Hc). }
  assert (dict_get updated "components" = Some (VList lcls comps')) as Hc'.
  { unfold updated. by rewrite dict_get_set, decide_True. }
  rewrite (sanitize_prototype_components _ _ _ (cls:=lcls) comps')
    by (by rewrite dict_get_order).
  rewrite (get_all_parent_components_parents _ _ _ prototype).
  2:{ unfold parents_of. rewrite dict_get_order by done.
      unfold updated. by rewrite dict_get_set, decide_False. }
  rewrite Hidx. simpl.
  rewrite scan_outcome_spec in Hcomps' |- *.
  split.
  - intros (comps'' & Hout & [= Heq])%bind_Ok idx' cls0 comps0 [= <-].
    rewrite dict_get_order, Hc' by done. intros [= <- <-].
    assert (comps'' = comps') as ->.
    { apply (f_equal (λ d, dict_get d "components")) in Heq.
      rewrite dict_get_order, dict_get_order in Heq; [| done |].
      - rewrite dict_get_set, decide_True, Hc' in Heq by done. congruence.
      - erewrite dict_set_keys; [by apply NoDup_keys_order|].
        by rewrite dict_get_order. }
    intros cls c anc Hin Hd Hanc Hd'.
    destruct (outcomes_length _ _ _ Hout) as [_ Hkeep].
    destruct (Hkeep eq_refl _ Hin) as [v Hv].
    by rewrite (bare_match_dropped idx cls c anc) in Hv.
  - intros Hbare. specialize (Hbare idx lcls comps' eq_refl).
    rewrite dict_get_order in Hbare by done. specialize (Hbare Hc').
    rewrite (outcomes_stable _ _ _ Hcomps' Hbare). simpl.
    rewrite dict_set_same by (by rewrite dict_get_order).
    by rewrite order_idempotent.
Qed.

Lemma sanitize_twice_witness :
  let prototype :=
    entity "P" [("parent", str "A")]
      [cmap [("type", str "Sprite"); ("path", str "x"); ("size", VScalar "int" (PInt 3))]] in
  let sanitized :=
    [("type", str "entity"); ("parent", str "A"); ("id", str "P");
     ("components", cseq [cmap [("type", str "Sprite"); ("size", VScalar "int" (PInt 3))]])] in
  sanitize_prototype 4 sample_store sanitized = Ok sanitized.
Proof.
  intros prototype sanitized.
  apply (proj2 (sanitize_twice 4 sample_store prototype sanitized
                  ltac:(apply (bool_decide_unpack _); by vm_compute)
                  ltac:(by vm_compute))).
  intros idx cls comps _ [= <- <-] cls' c anc Hin Hd.
  apply list_elem_of_singleton in Hin. injection Hin as -> ->.
  vm_compute in Hd. discriminate Hd.
Defined.

(** C1 fails as stated.  [P] has the parent [A], whose parent [B] has the
    parent [D]; its [Sprite] is equal to no ancestor as a whole, the first
    pass strips both its fields and keeps the bare [Sprite], which the second
    pass finds equal to the bare [Sprite] of [D] and removes. *)
Lemma sanitize_twice_counterexample :
  let prototype := entity "P" [("parent", str "A")] [cmap sprite_both] in
  let once :=
    [("type", str "entity"); ("parent", str "A"); ("id", str "P");
     ("components", cseq [cmap sprite_bare])] in
  let twice :=
    [("type", str "entity"); ("parent", str "A"); ("id", str "P");
     ("components", cseq [])] in
  sanitize_prototype 4 sample_store prototype = Ok once ∧
  sanitize_prototype 4 sample_store once = Ok twice ∧
  once ≠ twice.
Proof. split; [by vm_compute|]. split; [by vm_compute|]. discriminate. Qed.

(** ** Exceptions in comparisons *)

Lemma all_m_Raise {A} (f : A → result bool) (l : list A) e :
  all_m f l = Raise e → ∃ x, x ∈ l ∧ f x = Raise e.
Proof.
  induction l as [|x l IH]; simpl; [done|].
  destruct (f x) as [[]|e'] eqn:E.
  - intros (y & Hy & Hf)%IH. exists y. split; [by right|done].
  - done.
  - intros [= ->]. exists x. split; [left|done].
Qed.

(** An exception that the whole-component check swallows comes back in the
    field-level stripping of the same component, where nothing catches it. *)
Lemma swallowed_exception_resurfaces (c anc : dict) parent_comps e :
  anc ∈ parent_comps →
  _compare_values (VDict PyDict (comp_data c)) (VDict PyDict (comp_data anc)) = Raise e →
  ∃ e', _remove_redundant_fields c parent_comps = Raise e'.
Proof.
  intros Hanc Hcmp. rewrite compare_dicts in Hcmp.
  apply all_m_Raise in Hcmp as ([k v] & Hin & Hraise). simpl in Hraise.
  unfold comp_data in Hin. apply list_elem_of_filter in Hin as [Hne Hin].
  simpl in Hne. unfold comp_data in Hraise.
  rewrite dict_get_filter_ne in Hraise by done.
  destruct (_remove_redundant_fields c parent_comps) as [cleaned|e'] eqn:E;
    [|by exists e'].
  apply remove_redundant_fields_Ok in E as (R & _ & _ & Hall).
  destruct (Hall anc (k, v) Hanc Hin) as [b Hb].
  unfold field_matches in Hb. simpl in Hb.
  rewrite bool_decide_eq_false_2 in Hb by done.
  destruct (dict_get anc k); congruence.
Qed.

(** C2, at an input where the code departs from it.  [A] has a [Sprite]
    whose [state] is an object whose [__eq__] raises, [P] has the parent [A]
    and a [Sprite] with such a [state] and a colour.  The whole-component
    check catches the exception and answers "not equal"; the field-level
    stripping then compares the same two objects outside any [try], and
    the exception leaves [sanitize_prototype]. *)
Theorem comparison_exception_escapes :
  let prototypes := [(HStr "A", entity "A" [] [cmap sprite_state])] in
  let prototype := entity "P" [("parent", str "A")] [cmap sprite_state_color] in
  _compare_values (VDict PyDict (comp_data sprite_state_color))
                  (VDict PyDict (comp_data sprite_state))
    = Raise CompareError ∧
  are_components_equal sprite_state_color sprite_state = false ∧
  _remove_redundant_fields sprite_state_color [sprite_state] = Raise CompareError ∧
  sanitize_prototype 2 prototypes prototype = Raise CompareError.
Proof. repeat split; by vm_compute. Qed.

(** ** The heap: what an assignment can reach *)

Section heap_frame.
Context (h0 : Heap.heap).

(** [h0] is the heap as [sanitize_prototype] finds it: its objects are the
    first [length h0] of any later heap that [h0] is a prefix of. *)

Lemma insert_keeps (h : Heap.heap) l o :
  h0 `prefix_of` h → length h0 ≤ l → h0 `prefix_of` <[l := o]> h.
Proof.
  intros [k ->] Hl. rewrite insert_app_r_alt by done. by eexists.
Qed.

Lemma list_append_keeps h l s :
  h0 `prefix_of` h → length h0 ≤ l → h0 `prefix_of` Heap.list_append l s h.
Proof.
  intros Hp Hl. unfold Heap.list_append.
  destruct (h !! l) as [[ocls items|ocls items]|]; [by apply insert_keeps|done..].
Qed.

Lemma list_setitem_keeps h l i s :
  h0 `prefix_of` h → length h0 ≤ l → h0 `prefix_of` Heap.list_setitem l i s h.
Proof.
  intros Hp Hl. unfold Heap.list_setitem.
  destruct (h !! l) as [[ocls items|ocls items]|]; [by apply insert_keeps|done..].
Qed.

Lemma list_delitem_keeps h l i :
  h0 `prefix_of` h → length h0 ≤ l → h0 `prefix_of` Heap.list_delitem l i h.
Proof.
  intros Hp Hl. unfold Heap.list_delitem.
  destruct (h !! l) as [[ocls items|ocls items]|]; [by apply insert_keeps|done..].
Qed.

Lemma dict_setitem_keeps h l k s :
  h0 `prefix_of` h → length h0 ≤ l → h0 `prefix_of` Heap.dict_setitem l k s h.
Proof.
  intros Hp Hl. unfold Heap.dict_setitem.
  destruct (h !! l) as [[ocls items|ocls items]|]; [done|by apply insert_keeps|done].
Qed.

Lemma dict_delitem_keeps h l k :
  h0 `prefix_of` h → length h0 ≤ l → h0 `prefix_of` Heap.dict_delitem l k h.
Proof.
  intros Hp Hl. unfold Heap.dict_delitem.
  destruct (h !! l) as [[ocls items|ocls items]|]; [done|by apply insert_keeps|done].
Qed.

Lemma closed_above_insert h l o :
  closed_above h0 h → Forall (fresh_slot h0) (obj_slots o) → closed_above h0 (<[l := o]> h).
Proof.
  intros Hc Ho l' o' Hl' Hget.
  apply list_lookup_insert_Some in Hget as [(-> & <- & _)|[_ Hget]]; [done|].
  by apply (Hc l').
Qed.

Lemma closed_above_snoc h o :
  closed_above h0 h → Forall (fresh_slot h0) (obj_slots o) → closed_above h0 (h ++ [o]).
Proof.
  intros Hc Ho l' o' Hl' Hget.
  apply lookup_snoc_Some in Hget as [[_ Hget]|[_ <-]]; [by apply (Hc l')|done].
Qed.

Lemma closed_above_list_append h l s :
  closed_above h0 h → length h0 ≤ l → fresh_slot h0 s → closed_above h0 (Heap.list_append l s h).
Proof.
  intros Hc Hl Hs. unfold Heap.list_append.
  destruct (h !! l) as [[ocls items|ocls items]|] eqn:E; [|done..].
  apply closed_above_insert; [done|]. simpl. apply Forall_app. split.
  - apply (Hc l _ Hl E).
  - by apply Forall_singleton.
Qed.

Lemma fresh_slots_dict_set k s (items : list (string * Heap.slot)) :
  Forall (fresh_slot h0) items.*2 → fresh_slot h0 s → Forall (fresh_slot h0) (dict_set k s items).*2.
Proof.
  intros Hi Hs. induction items as [|[k' s'] items IH]; simpl.
  - by apply Forall_singleton.
  - apply Forall_cons in Hi as [Hs' Hi]. case_decide; simpl.
    + by apply Forall_cons.
    + apply Forall_cons. split; [done|by apply IH].
Qed.

Lemma closed_above_dict_setitem h l k s :
  closed_above h0 h → length h0 ≤ l → fresh_slot h0 s →
  closed_above h0 (Heap.dict_setitem l k s h).
Proof.
  intros Hc Hl Hs. unfold Heap.dict_setitem.
  destruct (h !! l) as [[ocls items|ocls items]|] eqn:E; [done| |done].
  apply closed_above_insert; [done|]. simpl.
  apply fresh_slots_dict_set; [|done]. apply (Hc l _ Hl E).
Qed.

Lemma deepcopy_inv fuel x st x' st' :
  copy_inv h0 st →
  Heap.deepcopy fuel x st = Ok (x', st') →
  copy_inv h0 st' ∧ fresh_slot h0 x'.
Proof.
  revert x st x' st'. induction fuel as [|fuel IH]; intros x st x' st' Hinv.
  - destruct x as [cls p|cls tag p|cls|l]; simpl; try (by intros [= <- <-]).
    destruct (st.1 !! l) as [y|] eqn:Hm; [|done].
    intros [= <- <-]. split; [done|]. simpl. by apply (proj2 (proj2 Hinv) l).
  - destruct x as [cls p|cls tag p|cls|l]; simpl; try (by intros [= <- <-]).
    destruct (st.1 !! l) as [y|] eqn:Hm.
    { intros [= <- <-]. split; [done|]. simpl. by apply (proj2 (proj2 Hinv) l). }
    destruct Hinv as (Hp & Hc & Hmemo).
    pose proof (prefix_length _ _ Hp) as Hlen.
    assert (∀ o, Forall (fresh_slot h0) (obj_slots o) →
                 copy_inv h0 (<[l := length st.2]> st.1, st.2 ++ [o])) as Hstart.
    { intros o Ho. split; [by apply prefix_app_r|]. split.
      - by apply closed_above_snoc.
      - intros l' y'. simpl. rewrite lookup_insert.
        case_decide; [by intros [= <-]|apply Hmemo]. }
    destruct (st.2 !! l) as [[ocls items|ocls items]|] eqn:Hobj; [| |done].
    + intros (st1 & Hfold & [= <- <-])%bind_Ok. split; [|done].
      specialize (Hstart (Heap.OList ocls []) (Forall_nil_2 _)).
      revert Hstart Hfold. generalize (<[l:=length st.2]> st.1, st.2 ++ [Heap.OList ocls []]).
      clear Hobj. induction items as [|a items IHitems]; intros st2 Hinv2; simpl.
      * by intros [= <-].
      * intros (st3 & Hstep & Hrest)%bind_Ok. apply (IHitems st3); [|done].
        apply bind_Ok in Hstep as ([a' st4] & Hcopy & [= <-]).
        apply IH in Hcopy as [(Hp4 & Hc4 & Hm4) Ha']; [|done].
        split; [by apply list_append_keeps|]. split; [|done].
        by apply closed_above_list_append.
    + intros (st1 & Hfold & [= <- <-])%bind_Ok. split; [|done].
      specialize (Hstart (Heap.ODict ocls []) (Forall_nil_2 _)).
      revert Hstart Hfold. generalize (<[l:=length st.2]> st.1, st.2 ++ [Heap.ODict ocls []]).
      clear Hobj. induction items as [|kv items IHitems]; intros st2 Hinv2; simpl.
      * by intros [= <-].
      * intros (st3 & Hstep & Hrest)%bind_Ok. apply (IHitems st3); [|done].
        apply bind_Ok in Hstep as ([v' st4] & Hcopy & [= <-]).
        apply IH in Hcopy as [(Hp4 & Hc4 & Hm4) Hv']; [|done].
        split; [by apply dict_setitem_keeps|]. split; [|done].
        by apply closed_above_dict_setitem.
Qed.

End heap_frame.

Lemma foldr_keeps {A} (h0 : Heap.heap) (f : A → Heap.heap → Heap.heap) (l : list A) h :
  (∀ a h, h0 `prefix_of` h → h0 `prefix_of` f a h) →
  h0 `prefix_of` h → h0 `prefix_of` foldr f h l.
Proof. intros Hf Hp. induction l as [|a l IH]; simpl; [done|by apply Hf]. Qed.

Lemma foldl_keeps {A} (h0 : Heap.heap) (f : Heap.heap → A → Heap.heap) (l : list A) h :
  (∀ a h, h0 `prefix_of` h → h0 `prefix_of` f h a) →
  h0 `prefix_of` h → h0 `prefix_of` foldl f h l.
Proof.
  intros Hf. revert h. induction l as [|a l IH]; intros h Hp; simpl; [done|].
  by apply IH, Hf.
Qed.

Lemma remove_redundant_fields_keeps h0 fuel component parents_components h result h' :
  h0 `prefix_of` h →
  Heap._remove_redundant_fields fuel component parents_components h = Ok (result, h') →
  h0 `prefix_of` h'.
Proof.
  intros Hp. unfold Heap._remove_redundant_fields.
  destruct (h !! component) as [[ocls items|ocls items]|]; [done| |done].
  intros (c & _ & (R & _ & [= <- <-])%bind_Ok)%bind_Ok.
  unfold set_fold. simpl. apply foldr_keeps; [|by apply prefix_app_r].
  intros field h1 Hp1. destruct (Heap.dict_contains (length h) field h1); [|done].
  apply dict_delitem_keeps; [done|]. by apply prefix_length.
Qed.

Lemma scan_step_keeps h0 fuel idx l_comps i component st st' :
  length h0 ≤ l_comps → h0 `prefix_of` st.2 →
  Heap.scan_step fuel idx l_comps i component st = Ok st' →
  h0 `prefix_of` st'.2.
Proof.
  intros Hl Hp. unfold Heap.scan_step.
  destruct component as [cls p|cls tag p|cls|lc]; try (by intros [= <-]).
  destruct (st.2 !! lc) as [[ocls items|ocls items]|]; try (by intros [= <-]).
  intros (c & _ & Hstep)%bind_Ok. revert Hstep.
  destruct (dict_get c "type") as [comp_type|]; [|by intros [= <-]].
  destruct (hash_of comp_type) as [k| |]; [|by intros [= <-]|done].
  destruct (index_get idx k) as [parent_comps|]; [|by intros [= <-]].
  destruct (whole_redundant c parent_comps); [by intros [= <-]|].
  intros ([cleaned h] & Hclean & Hstep)%bind_Ok.
  apply remove_redundant_fields_keeps with (h0 := h0) in Hclean; [|done].
  revert Hstep. destruct (Heap.dict_ne cleaned lc h); intros [= <-]; simpl; [|done].
  by apply list_setitem_keeps.
Qed.

Lemma scan_components_keeps h0 fuel idx l_comps n i st st' :
  length h0 ≤ l_comps → h0 `prefix_of` st.2 →
  Heap.scan_components fuel idx l_comps n i st = Ok st' →
  h0 `prefix_of` st'.2.
Proof.
  intros Hl. revert i st. induction n as [|n IH]; intros i st Hp; simpl.
  - by intros [= <-].
  - destruct (st.2 !! l_comps) as [[ocls comps|ocls comps]|]; try (by intros [= <-]).
    destruct (comps !! i) as [component|]; [|by intros [= <-]].
    intros (st1 & Hstep & Hrest)%bind_Ok.
    apply (IH (S i) st1); [|done]. by eapply scan_step_keeps.
Qed.

Lemma order_prototype_fields_keeps h0 prototype h :
  h0 `prefix_of` h →
  h0 `prefix_of` (Heap._order_prototype_fields prototype h).2 ∧
  (Heap._order_prototype_fields prototype h).1 = length h.
Proof.
  intros Hp. pose proof (prefix_length _ _ Hp) as Hlen.
  unfold Heap._order_prototype_fields. split; [|done]. cbn [snd].
  apply foldl_keeps.
  { intros kv h1 Hp1. destruct (Heap.dict_contains (length h) kv.1 h1); [done|].
    by apply dict_setitem_keeps. }
  apply foldl_keeps; [|by apply prefix_app_r].
  intros field h1 Hp1.
  destruct (dict_get _ field); [by apply dict_setitem_keeps|done].
Qed.

Lemma sanitize_prototype_keeps fuel prototypes prototype h out h' :
  Heap.sanitize_prototype fuel prototypes prototype h = Ok (out, h') →
  h `prefix_of` h' ∧ length h ≤ out.
Proof.
  unfold Heap.sanitize_prototype.
  intros ([sanitized st] & Hcopy & Hrest)%bind_Ok.
  apply (deepcopy_inv h) in Hcopy as [(Hp & Hc & _) Hfresh].
  2:{ split; [done|]. split.
      - intros l o Hl Hget. apply lookup_lt_Some in Hget. simpl in Hget. lia.
      - intros l y. simpl. by rewrite lookup_empty. }
  assert (∀ l_san h1, h `prefix_of` h1 →
            Ok (Heap._order_prototype_fields l_san h1) = Ok (out, h') →
            h `prefix_of` h' ∧ length h ≤ out) as Horder.
  { intros l_san h1 Hp1 Hok.
    assert (Heap._order_prototype_fields l_san h1 = (out, h')) as Heq by congruence.
    destruct (order_prototype_fields_keeps h l_san h1 Hp1) as [Hp' Hout].
    rewrite Heq in Hp', Hout. simpl in *. split; [done|].
    apply prefix_length in Hp1. lia. }
  simpl in Hrest. destruct sanitized as [cls p|cls tag p|cls|l_san]; try done.
  simpl in Hfresh.
  destruct (st.2 !! l_san) as [[ocls items|ocls san_items]|] eqn:Hsan; try done.
  destruct (dict_get san_items "components") as [[cls p|cls tag p|cls|l_comps]|] eqn:Hcomps;
    try (by apply (Horder l_san st.2)).
  assert (length h ≤ l_comps) as Hl.
  { pose proof (Hc l_san _ Hfresh Hsan) as Hall. simpl in Hall.
    apply dict_get_Some_elem in Hcomps.
    rewrite Forall_forall in Hall. apply (Hall (Heap.SRef l_comps)).
    apply list_elem_of_fmap. by exists ("components", Heap.SRef l_comps). }
  destruct (st.2 !! l_comps) as [[ocls' comps|ocls' comps]|];
    try (by apply (Horder l_san st.2)).
  apply bind_Ok in Hrest as (documents & _ & Hrest).
  apply bind_Ok in Hrest as (document & _ & Hrest).
  apply bind_Ok in Hrest as (idx & _ & Hrest).
  apply bind_Ok in Hrest as ([to_remove h2] & Hscan & Hrest).
  apply (scan_components_keeps h) in Hscan; [|done..].
  apply (Horder l_san) in Hrest; [done|].
  apply foldl_keeps; [|done]. intros i h3 Hp3. by apply list_delitem_keeps.
Qed.

(** *** What a reference denotes does not change *)

Lemma map_m_Ok_ext {A B} (f g : A → result B) (l : list A) r :
  (∀ x y, x ∈ l → f x = Ok y → g x = Ok y) →
  Heap.map_m f l = Ok r → Heap.map_m g l = Ok r.
Proof.
  revert r. induction l as [|x l IH]; intros r Hfg; simpl; [done|].
  intros (y & Hy & (l' & Hl' & [= <-])%bind_Ok)%bind_Ok.
  rewrite (Hfg x y) by (done || left). simpl.
  rewrite (IH l'); [done| |done]. intros x' y' Hx'. apply Hfg. by right.
Qed.

Lemma reify_keeps fuel (h h' : Heap.heap) s v :
  h `prefix_of` h' → Heap.reify fuel h s = Ok v → Heap.reify fuel h' s = Ok v.
Proof.
  intros Hp. revert s v. induction fuel as [|fuel IH]; intros s v;
    destruct s as [cls p|cls tag p|cls|l]; simpl; try done.
  destruct (h !! l) as [o|] eqn:Hget; [|done].
  rewrite (prefix_lookup_Some _ _ _ _ Hget Hp).
  destruct o as [items|items].
  - intros (items' & Hitems & [= <-])%bind_Ok.
    rewrite (map_m_Ok_ext _ (Heap.reify fuel h') _ _ (λ x y _, IH x y) Hitems). done.
  - intros (items' & Hitems & [= <-])%bind_Ok.
    erewrite map_m_Ok_ext; [done| |exact Hitems].
    intros [k s'] [k' v'] _. simpl.
    intros (v0 & Hv0 & [= <- <-])%bind_Ok. by rewrite (IH _ _ Hv0).
Qed.

Lemma reify_document_keeps fuel (h h' : Heap.heap) l d :
  h `prefix_of` h' →
  Heap.reify_document fuel h l = Ok d → Heap.reify_document fuel h' l = Ok d.
Proof.
  intros Hp. unfold Heap.reify_document.
  destruct (h !! l) as [[ocls items|ocls items]|] eqn:Hget; [done| |done].
  rewrite (prefix_lookup_Some _ _ _ _ Hget Hp). unfold Heap.reify_items.
  intros Hitems. erewrite map_m_Ok_ext; [done| |exact Hitems].
  intros [k s'] [k' v'] _. simpl.
  intros (v0 & Hv0 & [= <- <-])%bind_Ok. by rewrite (reify_keeps _ _ _ _ _ Hp Hv0).
Qed.

Lemma reify_store_keeps fuel (h h' : Heap.heap) prototypes documents :
  h `prefix_of` h' →
  Heap.reify_store fuel h prototypes = Ok documents →
  Heap.reify_store fuel h' prototypes = Ok documents.
Proof.
  intros Hp. unfold Heap.reify_store. intros Hdocs.
  erewrite map_m_Ok_ext; [done| |exact Hdocs].
  intros [k l] [k' d] _. simpl.
  intros (d0 & Hd0 & [= <- <-])%bind_Ok.
  by rewrite (reify_document_keeps _ _ _ _ _ Hp Hd0).
Qed.

(** C8.  [sanitize_prototype] works on a deep copy: when it returns, every
    object that the heap held before the call is as it was, so the entry of
    the Document Store for the id and every other document of the store
    denote the values that they denoted before; the document returned is a
    new object. *)
Theorem sanitize_leaves_store_unchanged fuel prototypes prototype_id
    (h : Heap.heap) out h' :
  Heap.find_and_sanitize_prototype fuel prototypes prototype_id h = Some (Ok (out, h')) →
  h `prefix_of` h' ∧
  (∀ l o, h !! l = Some o → h' !! l = Some o) ∧
  (∀ depth l document,
     Heap.reify_document depth h l = Ok document →
     Heap.reify_document depth h' l = Ok document) ∧
  (∀ depth documents,
     Heap.reify_store depth h prototypes = Ok documents →
     Heap.reify_store depth h' prototypes = Ok documents) ∧
  length h ≤ out.
Proof.
  unfold Heap.find_and_sanitize_prototype.
  destruct (list_find _ prototypes) as [[i [id original]]|]; [|done].
  intros [= Hsan]. apply sanitize_prototype_keeps in Hsan as [Hp Hout].
  split; [done|]. split; [|split; [|split; [|done]]].
  - intros l o Hget. by apply (prefix_lookup_Some h).
  - intros depth l document. by apply reify_document_keeps.
  - intros depth documents. by apply reify_store_keeps.
Qed.

Lemma sanitize_leaves_store_unchanged_witness :
  let out := Heap.sample_result.1 in
  let h' := Heap.sample_result.2 in
  Heap.sample_heap `prefix_of` h' ∧
  (∀ l o, Heap.sample_heap !! l = Some o → h' !! l = Some o) ∧
  (∀ depth l document,
     Heap.reify_document depth Heap.sample_heap l = Ok document →
     Heap.reify_document depth h' l = Ok document) ∧
  (∀ depth documents,
     Heap.reify_store depth Heap.sample_heap Heap.sample_prototypes = Ok documents →
     Heap.reify_store depth h' Heap.sample_prototypes = Ok documents) ∧
  length Heap.sample_heap ≤ out.
Proof.
  apply (sanitize_leaves_store_unchanged 6 Heap.sample_prototypes (HStr "P")
           Heap.sample_heap Heap.sample_result.1 Heap.sample_result.2).
  vm_compute. reflexivity.
Defined.

(** On the sample store the heap model returns the document that
    [sanitize_prototype] above returns for the values. *)
Lemma heap_agrees_on_sample :
  Heap.sanitize_prototype 6 Heap.sample_prototypes 12 Heap.sample_heap
    = Ok Heap.sample_result ∧
  Heap.reify_document 6 Heap.sample_result.2 Heap.sample_result.1
    = sanitize_prototype 6 sample_store
        (entity "P" [("parent", str "A")] [cmap sprite_both; str "note"; cmap sprite_path]).
Proof. split; vm_compute; reflexivity. Qed.

(** * Properties beyond the claims *)

(** ** The comparer *)

Lemma compare_values_type val1 val2 :
  _compare_values val1 val2 = Ok true → type_of val1 = type_of val2.
Proof.
  destruct (decide (type_of val1 = type_of val2)) as [H|H]; [done|].
  destruct val1; simpl in *; by rewrite bool_decide_eq_false_2.
Qed.

Lemma compare_scalars cls1 p1 cls2 p2 :
  _compare_values (VScalar cls1 p1) (VScalar cls2 p2) =
  Ok (bool_decide (cls1 = cls2) && prim_eqb p1 p2).
Proof.
  simpl. destruct (decide (cls1 = cls2)) as [->|Hne].
  - by rewrite !bool_decide_eq_true_2.
  - rewrite !bool_decide_eq_false_2; [done..|congruence].
Qed.

Lemma compare_lists_Forall2 cls (l1 l2 : list value) :
  _compare_values (VList cls l1) (VList cls l2) = Ok true ↔
  Forall2 (λ v1 v2, _compare_values v1 v2 = Ok true) l1 l2.
Proof.
  simpl. rewrite bool_decide_eq_true_2 by done. cbn [negb].
  destruct (decide (length l1 = length l2)) as [Hlen|Hlen].
  - rewrite (proj2 (Nat.eqb_eq _ _) Hlen). simpl.
    revert l2 Hlen. induction l1 as [|v1 l1 IH]; intros [|v2 l2] Hlen; try done.
    injection Hlen as Hlen. specialize (IH l2 Hlen). split.
    + destruct (_compare_values v1 v2) as [[]|] eqn:E; try done.
      intros H. constructor; [done|by apply IH].
    + intros [Hv Hl]%Forall2_cons. rewrite Hv. by apply IH.
  - rewrite (proj2 (Nat.eqb_neq _ _) Hlen). simpl. split; [done|].
    intros H%Forall2_length. done.
Qed.

Lemma prim_eqb_trans p q r : prim_eqb p q = true → prim_eqb q r = true → prim_eqb p r = true.
Proof.
  unfold prim_eqb. rewrite !bool_decide_eq_true. congruence.
Qed.

Lemma prim_eqb_refl p : prim_eqb p p = true.
Proof. unfold prim_eqb. by rewrite bool_decide_eq_true. Qed.

Lemma compare_values_refl v :
  wf_value v = true → opaque_free v = true → _compare_values v v = Ok true.
Proof.
  induction v as [cls p|cls tag p|cls|lcls items IH|dcls items IH] using value_ind;
    intros Hwf Hfree.
  - by rewrite compare_scalars, bool_decide_eq_true_2, prim_eqb_refl.
  - simpl. by rewrite bool_decide_eq_true_2, prim_eqb_refl.
  - done.
  - apply compare_lists_Forall2, Forall_Forall2_diag.
    simpl in Hwf, Hfree. rewrite forallb_forall in Hwf, Hfree.
    rewrite Forall_forall in IH |- *. intros v Hv.
    apply IH; [done|apply Hwf|apply Hfree]; by apply list_elem_of_In.
  - rewrite compare_dicts, all_m_true. simpl in Hwf, Hfree.
    apply andb_true_iff in Hwf as [Hnd%bool_decide_eq_true Hwf].
    rewrite forallb_forall in Hwf, Hfree. rewrite Forall_forall in IH.
    intros [k v] Hin. simpl. rewrite (dict_get_NoDup _ _ _ Hnd Hin).
    apply (IH (k, v) Hin); [apply (Hwf (k, v))|apply (Hfree (k, v))];
      by apply list_elem_of_In.
Qed.

Lemma compare_values_trans a b c :
  _compare_values a b = Ok true → _compare_values b c = Ok true →
  _compare_values a c = Ok true.
Proof.
  revert b c.
  induction a as [cls p|cls tag p|cls|lcls items IH|dcls items IH] using value_ind;
    intros b c Hab Hbc;
    pose proof (compare_values_type _ _ Hab) as Tab;
    pose proof (compare_values_type _ _ Hbc) as Tbc;
    destruct b; try discriminate Tab; destruct c; try discriminate Tbc.
  - rewrite compare_scalars in *. injection Hab as Hab. injection Hbc as Hbc.
    apply andb_true_iff in Hab as [->%bool_decide_eq_true Hab].
    apply andb_true_iff in Hbc as [->%bool_decide_eq_true Hbc].
    rewrite bool_decide_eq_true_2 by done. simpl.
    f_equal. by eapply prim_eqb_trans.
  - simpl in Tab, Tbc. injection Tab as ->. injection Tbc as ->. simpl in *.
    rewrite bool_decide_eq_true_2 in * by done. simpl in *.
    injection Hab as Hab. injection Hbc as Hbc. f_equal. by eapply prim_eqb_trans.
  - simpl in Hab. injection Tab as ->. by rewrite bool_decide_eq_true_2 in Hab.
  - simpl in Tab, Tbc. injection Tab as <-. injection Tbc as <-.
    apply compare_lists_Forall2 in Hab, Hbc. apply compare_lists_Forall2.
    revert items0 items1 Hab Hbc.
    induction items as [|v items IHitems]; intros l2 l3 Hab Hbc.
    + apply Forall2_nil_inv_l in Hab as ->. by apply Forall2_nil_inv_l in Hbc as ->.
    + apply Forall2_cons_inv_l in Hab as (v2 & l2' & Hv & Hl & ->).
      apply Forall2_cons_inv_l in Hbc as (v3 & l3' & Hv' & Hl' & ->).
      apply Forall_cons in IH as [IHv IH]. constructor; [by eapply IHv|].
      by eapply IHitems.
  - simpl in Tab, Tbc. injection Tab as <-. injection Tbc as <-.
    rewrite compare_dicts, all_m_true in *. rewrite Forall_forall in IH.
    intros [k v] Hin. simpl.
    specialize (Hab (k, v) Hin). simpl in Hab.
    destruct (dict_get items0 k) as [vb|] eqn:Hgb; [|done].
    specialize (Hbc (k, vb) (dict_get_Some_elem _ _ _ Hgb)). simpl in Hbc.
    destruct (dict_get items1 k) as [vc|] eqn:Hgc; [|done].
    by apply (IH (k, v) Hin vb vc).
Qed.

(** X1.  Two sequences are equal for the comparer exactly when they are of
    the same class, have the same length and their items are equal index by
    index: a [list] is not equal to a [CommentedSeq] of the same items. *)
Theorem compare_sequences cls1 cls2 (l1 l2 : list value) :
  _compare_values (VList cls1 l1) (VList cls2 l2) = Ok true ↔
  cls1 = cls2 ∧
  length l1 = length l2 ∧
  ∀ i v1 v2, l1 !! i = Some v1 → l2 !! i = Some v2 → _compare_values v1 v2 = Ok true.
Proof.
  destruct (decide (cls1 = cls2)) as [->|Hne].
  - rewrite compare_lists_Forall2, Forall2_same_length_lookup.
    split; [by intros H|by intros [_ H]].
  - rewrite compare_values_type_ne by (simpl; congruence).
    split; [done|by intros [? _]].
Qed.

(** X2.  A value is equal to itself for the comparer, when its mappings
    have each key once and it holds no object whose [__eq__] raises.  (The
    scalars are those of the embedding: a floating-point NaN, which is not
    among them, is not equal to itself.) *)
Theorem compare_reflexive v :
  wf_value v = true → opaque_free v = true → _compare_values v v = Ok true.
Proof. apply compare_values_refl. Qed.

Lemma compare_reflexive_witness :
  _compare_values (cmap sprite_both) (cmap sprite_both) = Ok true.
Proof. apply (compare_reflexive (cmap sprite_both)); reflexivity. Defined.

(** X3.  The comparer is transitive: when it finds [a] equal to [b] and
    [b] equal to [c], it finds [a] equal to [c] (on mappings: contained in). *)
Theorem compare_transitive a b c :
  _compare_values a b = Ok true → _compare_values b c = Ok true →
  _compare_values a c = Ok true.
Proof. apply compare_values_trans. Qed.

Lemma compare_transitive_witness :
  _compare_values (cmap sprite_bare) (cmap sprite_both) = Ok true.
Proof.
  apply (compare_transitive (cmap sprite_bare) (cmap sprite_path) (cmap sprite_both));
    reflexivity.
Defined.

(** ** The collector *)

Lemma index_get_extend k cs (idx : index) k' :
  index_get (index_extend k cs idx) k' =
  if decide (k = k') then Some (default [] (index_get idx k') ++ cs)
  else index_get idx k'.
Proof.
  induction idx as [|[k0 l0] idx IH]; simpl.
  - by destruct (decide (k = k')).
  - destruct (decide (k0 = k)) as [->|Hne]; simpl.
    + by destruct (decide (k = k')).
    + rewrite IH. destruct (decide (k0 = k')) as [->|]; [|done].
      by rewrite decide_False.
Qed.

Lemma index_extend_app k l cs (idx : index) :
  index_extend k (l ++ cs) idx = index_extend k cs (index_extend k l idx).
Proof.
  induction idx as [|[k0 l0] idx IH]; simpl.
  - by rewrite decide_True.
  - destruct (decide (k0 = k)) as [->|Hne]; simpl.
    + by rewrite decide_True, (assoc_L (++)).
    + by rewrite decide_False, IH.
Qed.

Lemma index_extend_keys k cs (idx : index) k' :
  k' ∈ (index_extend k cs idx).*1 ↔ k' = k ∨ k' ∈ idx.*1.
Proof.
  induction idx as [|[k0 l0] idx IH]; simpl.
  - rewrite list_elem_of_singleton. split; [by left|]. intros [H|H]; [done|].
    by apply elem_of_nil in H.
  - destruct (decide (k0 = k)) as [->|Hne]; simpl.
    + rewrite elem_of_cons. tauto.
    + rewrite !elem_of_cons, IH. tauto.
Qed.

Lemma index_extend_comm k cs k' l' (idx : index) :
  k ≠ k' → k ∈ idx.*1 →
  index_extend k' l' (index_extend k cs idx) = index_extend k cs (index_extend k' l' idx).
Proof.
  intros Hne. induction idx as [|[k0 l0] idx IH]; simpl.
  - intros H. by apply elem_of_nil in H.
  - intros Hin. destruct (decide (k0 = k)) as [->|Hk]; simpl.
    + destruct (decide (k = k')) as [|_]; [done|]. simpl. by rewrite decide_True.
    + apply elem_of_cons in Hin as [Heq|Hin]; [congruence|].
      destruct (decide (k0 = k')) as [->|Hk']; simpl.
      * by rewrite decide_False.
      * by rewrite decide_False, IH.
Qed.

Lemma index_extend_NoDup k cs (idx : index) :
  NoDup idx.*1 → NoDup (index_extend k cs idx).*1.
Proof.
  induction idx as [|[k0 l0] idx IH]; simpl.
  - intros _. apply NoDup_singleton.
  - intros [Hk0 Hnd]%NoDup_cons. destruct (decide (k0 = k)) as [->|Hne]; simpl.
    + by apply NoDup_cons.
    + apply NoDup_cons. split; [|by apply IH].
      rewrite index_extend_keys. intros [->|H]; done.
Qed.

Lemma merge_index_extend_in k cs (X g : index) :
  k ∈ X.*1 → k ∉ g.*1 →
  merge_index (index_extend k cs X) g = index_extend k cs (merge_index X g).
Proof.
  unfold merge_index. revert X. induction g as [|[k' l'] g IH]; intros X HX Hg; simpl.
  - done.
  - simpl in Hg. apply not_elem_of_cons in Hg as [Hne Hg].
    rewrite index_extend_comm by done. apply IH; [|done].
    apply index_extend_keys. by right.
Qed.

Lemma merge_index_extend k cs (acc g : index) :
  NoDup g.*1 →
  merge_index acc (index_extend k cs g) = index_extend k cs (merge_index acc g).
Proof.
  revert acc. induction g as [|[k' l] g IH]; intros acc Hnd; simpl.
  - done.
  - simpl in Hnd. apply NoDup_cons in Hnd as [Hk' Hnd].
    destruct (decide (k' = k)) as [->|Hne].
    + unfold merge_index. simpl. fold (merge_index (index_extend k (l ++ cs) acc) g).
      fold (merge_index (index_extend k l acc) g).
      rewrite index_extend_app. apply merge_index_extend_in; [|done].
      apply index_extend_keys. by left.
    + unfold merge_index. simpl. fold (merge_index (index_extend k' l acc) (index_extend k cs g)).
      fold (merge_index (index_extend k' l acc) g). by apply IH.
Qed.

Lemma file_into_snoc idx l kd :
  file_into idx (l ++ [kd]) = index_extend kd.1 [kd.2] (file_into idx l).
Proof. unfold file_into. by rewrite foldl_app. Qed.

Lemma file_into_NoDup idx l : NoDup idx.*1 → NoDup (file_into idx l).*1.
Proof.
  intros Hnd. induction l as [|kd l IH] using rev_ind; [done|].
  rewrite file_into_snoc. by apply index_extend_NoDup.
Qed.

Lemma merge_index_file_into acc l : merge_index acc (file_into [] l) = file_into acc l.
Proof.
  induction l as [|kd l IH] using rev_ind; [done|].
  rewrite !file_into_snoc, merge_index_extend, IH; [done|].
  apply file_into_NoDup, NoDup_nil_2.
Qed.

Lemma add_component_entry acc comp :
  add_component acc comp = es ← typed_entry comp; Ok (file_into acc es).
Proof.
  destruct comp as [| | | |dcls d]; try done. simpl.
  destruct (dict_get d "type") as [t|]; [|done]. by destruct (hash_of t).
Qed.

Lemma fold_file_into {B} (f : index → B → result index)
    (g : B → result (list (hkey * dict))) l acc :
  (∀ acc x, f acc x = es ← g x; Ok (file_into acc es)) →
  fold_m f acc l = es ← concat_m g l; Ok (file_into acc es).
Proof.
  intros Hfg. revert acc. induction l as [|x l IH]; intros acc; simpl; [done|].
  rewrite Hfg. destruct (g x) as [es|e]; simpl; [|done].
  rewrite IH. destruct (concat_m g l) as [es'|e]; simpl; [|done].
  unfold file_into. by rewrite foldl_app.
Qed.

Lemma fold_add_component_entries acc comps :
  fold_m add_component acc comps =
  es ← concat_m typed_entry comps; Ok (file_into acc es).
Proof. apply fold_file_into, add_component_entry. Qed.

Lemma direct_components_entries acc (parent : dict) :
  match dict_get parent "components" with
  | Some comps => comps' ← py_iter comps; fold_m add_component acc comps'
  | None => Ok acc
  end = es ← direct_entries parent; Ok (file_into acc es).
Proof.
  unfold direct_entries. destruct (dict_get parent "components") as [comps|]; [|done].
  destruct (py_iter comps) as [comps'|e]; simpl; [|done].
  apply fold_add_component_entries.
Qed.

Lemma collector_parents_entries (prototypes : store)
    (collect : dict → result index) (entries_of : dict → result (list (hkey * dict)))
    parents acc :
  (∀ d, collect d = es ← entries_of d; Ok (file_into [] es)) →
  fold_m (λ parent_components parent_id,
            match hash_of parent_id with
            | Unhashable => Raise TypeError
            | ById => Ok parent_components
            | Hashable k =>
                match store_get prototypes k with
                | None => Ok parent_components
                | Some parent =>
                    direct ←
                      match dict_get parent "components" with
                      | Some comps =>
                          comps' ← py_iter comps;
                          fold_m add_component parent_components comps'
                      | None => Ok parent_components
                      end;
                    parent_comps ← collect parent;
                    Ok (merge_index direct parent_comps)
                end
            end) acc parents =
  es ← concat_m (λ parent_id,
            match hash_of parent_id with
            | Unhashable => Raise TypeError
            | ById => Ok []
            | Hashable k =>
                match store_get prototypes k with
                | None => Ok []
                | Some parent =>
                    direct ← direct_entries parent;
                    inherited ← entries_of parent;
                    Ok (direct ++ inherited)
                end
            end) parents;
  Ok (file_into acc es).
Proof.
  intros Hrec. apply fold_file_into. clear acc. intros acc parent_id.
  destruct (hash_of parent_id) as [k| |]; simpl; [|done..].
  destruct (store_get prototypes k) as [parent|]; simpl; [|done].
  rewrite direct_components_entries.
  destruct (direct_entries parent) as [direct|e]; simpl; [|done].
  rewrite Hrec. destruct (entries_of parent) as [inherited|e]; simpl; [|done].
  rewrite merge_index_file_into. unfold file_into. by rewrite foldl_app.
Qed.

Lemma collector_entries fuel prototypes prototype :
  get_all_parent_components fuel prototypes prototype =
  entries ← ancestor_entries fuel prototypes prototype; Ok (file_into [] entries).
Proof.
  revert prototype. induction fuel as [|fuel IH]; intros prototype; simpl; [done|].
  destruct (parents_of prototype) as [parents|]; [|done].
  by apply collector_parents_entries.
Qed.

Lemma index_get_file_into (idx : index) l k :
  index_get (file_into idx l) k =
  match index_get idx k, entries_of_type k l with
  | None, [] => None
  | o, es => Some (default [] o ++ es)
  end.
Proof.
  unfold entries_of_type. induction l as [|[k' d] l IH] using rev_ind.
  - simpl. destruct (index_get idx k); simpl; [by rewrite app_nil_r|done].
  - rewrite file_into_snoc, index_get_extend, IH, filter_app, fmap_app. simpl.
    rewrite filter_cons, filter_nil. simpl.
    destruct (decide (k' = k)) as [->|Hne]; simpl.
    + destruct (index_get idx k) as [l0|], ((filter _ l).*2) as [|e es] eqn:E;
        simpl; rewrite ?app_nil_r, <-?(assoc_L (++)); done.
    + rewrite app_nil_r. done.
Qed.

Lemma concat_m_app {A B} (f : A → result (list B)) l1 l2 :
  concat_m f (l1 ++ l2) = r1 ← concat_m f l1; r2 ← concat_m f l2; Ok (r1 ++ r2).
Proof.
  induction l1 as [|x l1 IH]; simpl.
  - by destruct (concat_m f l2).
  - destruct (f x) as [ys|e]; simpl; [|done]. rewrite IH.
    destruct (concat_m f l1) as [r1|e]; simpl; [|done].
    destruct (concat_m f l2) as [r2|e]; simpl; [|done].
    by rewrite (assoc_L (++)).
Qed.

Lemma concat_m_elem {A B} (f : A → result (list B)) l r y :
  concat_m f l = Ok r → y ∈ r → ∃ x ys, x ∈ l ∧ f x = Ok ys ∧ y ∈ ys.
Proof.
  revert r. induction l as [|x l IH]; intros r; simpl.
  - intros [= <-] H. by apply elem_of_nil in H.
  - intros (ys & Hys & (rest & Hrest & [= <-])%bind_Ok)%bind_Ok [Hy|Hy]%elem_of_app.
    + exists x, ys. split; [left|done].
    + destruct (IH rest Hrest Hy) as (x' & ys' & Hx' & Hf & Hy').
      exists x', ys'. split; [by right|done].
Qed.

Lemma index_get_NoDup (idx : index) k l :
  NoDup idx.*1 → (k, l) ∈ idx → index_get idx k = Some l.
Proof.
  induction idx as [|[k' l'] idx IH]; simpl.
  - intros _ H. by apply elem_of_nil in H.
  - rewrite NoDup_cons. intros [Hk' Hnd] [Heq|Hin]%elem_of_cons.
    + injection Heq as -> ->. by rewrite decide_True.
    + rewrite decide_False; [by apply IH|].
      intros ->. apply Hk'. apply list_elem_of_fmap. by exists (k, l).
Qed.

Lemma entries_of_type_app k (e1 e2 : list (hkey * dict)) :
  entries_of_type k (e1 ++ e2) = entries_of_type k e1 ++ entries_of_type k e2.
Proof. unfold entries_of_type. by rewrite filter_app, fmap_app. Qed.

Lemma index_get_entries (entries : list (hkey * dict)) k :
  default [] (index_get (file_into [] entries) k) = entries_of_type k entries.
Proof.
  rewrite index_get_file_into. simpl. by destruct (entries_of_type k entries).
Qed.

Lemma elem_of_entries_of_type k (entries : list (hkey * dict)) d :
  d ∈ entries_of_type k entries ↔ (k, d) ∈ entries.
Proof.
  unfold entries_of_type. rewrite list_elem_of_fmap. split.
  - intros ([k' d'] & -> & [Hk Hin]%list_elem_of_filter). simpl in *. by subst.
  - intros Hin. exists (k, d). split; [done|]. by apply list_elem_of_filter.
Qed.

Lemma typed_entry_elem comp k d :
  (∃ es, typed_entry comp = Ok es ∧ (k, d) ∈ es) ↔
  (∃ cls, comp = VDict cls d) ∧
  ∃ t, dict_get d "type" = Some t ∧ hash_of t = Hashable k.
Proof.
  split.
  - intros (es & Hes & Hin). destruct comp as [| | | |dcls d']; simpl in Hes;
      try (injection Hes as <-; by apply elem_of_nil in Hin).
    destruct (dict_get d' "type") as [t|] eqn:Ht;
      [|injection Hes as <-; by apply elem_of_nil in Hin].
    destruct (hash_of t) as [k'| |] eqn:Hh;
      [|injection Hes as <-; by apply elem_of_nil in Hin|done].
    injection Hes as <-. apply list_elem_of_singleton in Hin. injection Hin as -> ->.
    split; [by exists dcls|]. by exists t.
  - intros ([cls ->] & t & Ht & Hh). exists [(k, d)]. simpl. rewrite Ht, Hh.
    split; [done|]. left.
Qed.

(** Every entry that the collector files is a typed component of a
    document of the store. *)
Lemma ancestor_entries_from_store fuel prototypes prototype entries k d :
  ancestor_entries fuel prototypes prototype = Ok entries → (k, d) ∈ entries →
  (∃ t, dict_get d "type" = Some t ∧ hash_of t = Hashable k) ∧
  ∃ k' parent comps comps' cls,
    store_get prototypes k' = Some parent ∧
    dict_get parent "components" = Some comps ∧
    py_iter comps = Ok comps' ∧ VDict cls d ∈ comps'.
Proof.
  revert prototype entries.
  induction fuel as [|fuel IH]; intros prototype entries; simpl; [done|].
  destruct (parents_of prototype) as [parents|];
    [|intros [= <-] H; by apply elem_of_nil in H].
  intros Hcat Hin.
  destruct (concat_m_elem _ _ _ _ Hcat Hin) as (pid & es & _ & Hes & Hin').
  destruct (hash_of pid) as [k'| |]; [|injection Hes as <-; by apply elem_of_nil in Hin'|done].
  destruct (store_get prototypes k') as [parent|] eqn:Hget;
    [|injection Hes as <-; by apply elem_of_nil in Hin'].
  apply bind_Ok in Hes as (direct & Hdirect & Hes).
  apply bind_Ok in Hes as (inherited & Hinh & [= <-]).
  apply elem_of_app in Hin' as [Hd|Hi]; [|by apply (IH parent inherited)].
  unfold direct_entries in Hdirect.
  destruct (dict_get parent "components") as [comps|] eqn:Hcomps;
    [|injection Hdirect as <-; by apply elem_of_nil in Hd].
  apply bind_Ok in Hdirect as (comps' & Hiter & Hdirect).
  destruct (concat_m_elem _ _ _ _ Hdirect Hd) as (comp & es' & Hcomp & Hes' & Hin'').
  destruct (proj1 (typed_entry_elem comp k d)) as ([cls ->] & Ht); [by exists es'|].
  split; [done|]. by exists k', parent, comps, comps', cls.
Qed.

(** X4.  The index that the collector returns is the sequence of the
    ancestors' typed components, taken parent by parent in declaration
    order, each parent's own components before those of its parents, and
    filed by type: the entry of a type is the subsequence of the components
    of that type, and a type without component has no entry.  The collector
    raises exactly when the traversal does. *)
Theorem collector_files_traversal fuel prototypes prototype :
  get_all_parent_components fuel prototypes prototype =
    (entries ← ancestor_entries fuel prototypes prototype; Ok (file_into [] entries)) ∧
  ∀ idx,
    get_all_parent_components fuel prototypes prototype = Ok idx →
    ∃ entries,
      ancestor_entries fuel prototypes prototype = Ok entries ∧
      ∀ k, index_get idx k =
           match entries_of_type k entries with
           | [] => None
           | es => Some es
           end.
Proof.
  split; [apply collector_entries|].
  intros idx. rewrite collector_entries.
  intros (entries & Hentries & [= <-])%bind_Ok. exists entries. split; [done|].
  intros k. rewrite index_get_file_into. simpl.
  by destruct (entries_of_type k entries).
Qed.

Lemma collector_files_traversal_witness :
  ∃ entries,
    ancestor_entries 4 sample_store (entity "P" [("parent", str "A")] []) = Ok entries ∧
    ∀ k, index_get [(HStr "Sprite", [sprite_path; sprite_color; sprite_bare])] k =
         match entries_of_type k entries with
         | [] => None
         | es => Some es
         end.
Proof.
  apply (proj2 (collector_files_traversal 4 sample_store
                  (entity "P" [("parent", str "A")] []))).
  reflexivity.
Defined.

(** X5.  The index is well formed: each type is a key once, no entry is
    empty, and every component in the entry of a type is a mapping with
    that type that stands in the [components] of a document of the store. *)
Theorem collector_index_wellformed fuel prototypes prototype idx :
  get_all_parent_components fuel prototypes prototype = Ok idx →
  NoDup idx.*1 ∧
  ∀ k l, (k, l) ∈ idx →
    l ≠ [] ∧
    ∀ d, d ∈ l →
      (∃ t, dict_get d "type" = Some t ∧ hash_of t = Hashable k) ∧
      ∃ k' parent comps comps' cls,
        store_get prototypes k' = Some parent ∧
        dict_get parent "components" = Some comps ∧
        py_iter comps = Ok comps' ∧ VDict cls d ∈ comps'.
Proof.
  rewrite collector_entries. intros (entries & Hentries & [= <-])%bind_Ok.
  assert (NoDup (file_into [] entries).*1) as Hnd
    by apply file_into_NoDup, NoDup_nil_2.
  split; [done|]. intros k l Hin.
  pose proof (index_get_NoDup _ _ _ Hnd Hin) as Hget.
  rewrite index_get_file_into in Hget. simpl in Hget.
  destruct (entries_of_type k entries) as [|e es] eqn:E; [done|].
  injection Hget as <-. split; [done|]. intros d Hd. rewrite <-E in Hd.
  apply elem_of_entries_of_type in Hd.
  by eapply ancestor_entries_from_store.
Qed.

Lemma collector_index_wellformed_witness :
  let idx := [(HStr "Sprite", [sprite_path; sprite_color; sprite_bare])] in
  NoDup idx.*1 ∧
  ∀ k l, (k, l) ∈ idx →
    l ≠ [] ∧
    ∀ d, d ∈ l →
      (∃ t, dict_get d "type" = Some t ∧ hash_of t = Hashable k) ∧
      ∃ k' parent comps comps' cls,
        store_get sample_store k' = Some parent ∧
        dict_get parent "components" = Some comps ∧
        py_iter comps = Ok comps' ∧ VDict cls d ∈ comps'.
Proof.
  apply (collector_index_wellformed 4 sample_store
           (entity "P" [("parent", str "A")] [])).
  reflexivity.
Defined.

Lemma ancestor_entries_parents fuel prototypes (p1 p2 : dict) :
  parents_of p1 = parents_of p2 →
  ancestor_entries fuel prototypes p1 = ancestor_entries fuel prototypes p2.
Proof. intros H. destruct fuel; simpl; [done|]. by rewrite H. Qed.

(** X6.  Parents are taken in declaration order: when the parents of a
    prototype are those of [p1] followed by those of [p2], the entry of
    every type is what is collected for [p1] followed by what is collected
    for [p2]. *)
Theorem collector_declaration_order fuel prototypes (prototype p1 p2 : dict)
    parents1 parents2 idx1 idx2 :
  parents_of prototype = Some (parents1 ++ parents2) →
  parents_of p1 = Some parents1 →
  parents_of p2 = Some parents2 →
  get_all_parent_components fuel prototypes p1 = Ok idx1 →
  get_all_parent_components fuel prototypes p2 = Ok idx2 →
  ∃ idx,
    get_all_parent_components fuel prototypes prototype = Ok idx ∧
    ∀ k, default [] (index_get idx k) =
         default [] (index_get idx1 k) ++ default [] (index_get idx2 k).
Proof.
  intros Hp Hp1 Hp2. rewrite !collector_entries.
  intros (e1 & He1 & [= <-])%bind_Ok (e2 & He2 & [= <-])%bind_Ok.
  destruct fuel as [|fuel]; [done|]. simpl in *.
  rewrite Hp1 in He1. rewrite Hp2 in He2. rewrite Hp, concat_m_app, He1, He2. simpl.
  eexists. split; [done|]. intros k.
  by rewrite !index_get_entries, entries_of_type_app.
Qed.

Lemma collector_declaration_order_witness :
  ∃ idx,
    get_all_parent_components 4 sample_store
      (entity "P" [("parent", cseq [str "B"; str "A"])] []) = Ok idx ∧
    ∀ k, default [] (index_get idx k) =
         default [] (index_get [(HStr "Sprite", [sprite_color; sprite_bare])] k) ++
         default [] (index_get [(HStr "Sprite", [sprite_path; sprite_color; sprite_bare])] k).
Proof.
  apply (collector_declaration_order 4 sample_store
           (entity "P" [("parent", cseq [str "B"; str "A"])] [])
           (entity "P1" [("parent", str "B")] [])
           (entity "P2" [("parent", str "A")] [])
           [str "B"] [str "A"]); reflexivity.
Defined.

(** X7.  A nearer ancestor comes first: for a prototype with one parent
    that the store holds, the entry of every type is the parent's own
    components of that type followed by what is collected for the parent. *)
Theorem collector_nearer_first fuel prototypes (prototype parent : dict)
    parent_id k0 idx :
  parents_of prototype = Some [parent_id] →
  hash_of parent_id = Hashable k0 →
  store_get prototypes k0 = Some parent →
  get_all_parent_components (S fuel) prototypes prototype = Ok idx →
  ∃ direct inherited,
    direct_entries parent = Ok direct ∧
    get_all_parent_components fuel prototypes parent = Ok inherited ∧
    ∀ k, default [] (index_get idx k) =
         entries_of_type k direct ++ default [] (index_get inherited k).
Proof.
  intros Hp Hh Hget. rewrite !collector_entries. simpl. rewrite Hp. simpl.
  rewrite Hh, Hget.
  intros (entries & Hentries & [= <-])%bind_Ok.
  apply bind_Ok in Hentries as (es & Hes & [= <-]).
  apply bind_Ok in Hes as (direct & Hdirect & Hes).
  apply bind_Ok in Hes as (inherited & Hinh & [= <-]).
  exists direct, (file_into [] inherited). rewrite Hinh. simpl.
  split; [done|]. split; [done|]. intros k.
  by rewrite !index_get_entries, app_nil_r, entries_of_type_app.
Qed.

Lemma collector_nearer_first_witness :
  ∃ direct inherited,
    direct_entries (entity "A" [("parent", str "B")] [cmap sprite_path]) = Ok direct ∧
    get_all_parent_components 3 sample_store
      (entity "A" [("parent", str "B")] [cmap sprite_path]) = Ok inherited ∧
    ∀ k, default [] (index_get [(HStr "Sprite", [sprite_path; sprite_color; sprite_bare])] k) =
         entries_of_type k direct ++ default [] (index_get inherited k).
Proof.
  apply (collector_nearer_first 3 sample_store
           (entity "P" [("parent", str "A")] []) _ (str "A") (HStr "A"));
    reflexivity.
Defined.

(** X8.  A parent id that the store does not hold is skipped: the index is
    what it is without that id in the parents, and a prototype whose only
    parent is not in the store has an empty index. *)
Theorem unresolved_parent_skipped fuel prototypes (prototype prototype' : dict)
    parents1 parent_id parents2 k :
  parents_of prototype = Some (parents1 ++ parent_id :: parents2) →
  parents_of prototype' = Some (parents1 ++ parents2) →
  hash_of parent_id = Hashable k →
  store_get prototypes k = None →
  get_all_parent_components fuel prototypes prototype =
    get_all_parent_components fuel prototypes prototype' ∧
  (parents1 = [] → parents2 = [] →
   get_all_parent_components (S fuel) prototypes prototype = Ok []).
Proof.
  intros Hp Hp' Hh Hget. split.
  - rewrite !collector_entries. destruct fuel as [|fuel]; [done|]. simpl.
    rewrite Hp, Hp', !concat_m_app. simpl. rewrite Hh, Hget. simpl.
    destruct (concat_m _ parents1) as [r1|e]; simpl; [|done].
    by destruct (concat_m _ parents2) as [r2|e].
  - intros -> ->. simpl. rewrite Hp. simpl. by rewrite Hh, Hget.
Qed.

Lemma unresolved_parent_skipped_witness :
  let prototype := entity "P" [("parent", str "Ghost")] [] in
  let prototype' := entity "P" [] [] in
  get_all_parent_components 4 sample_store prototype =
    get_all_parent_components 4 sample_store prototype' ∧
  (@nil value = [] → @nil value = [] →
   get_all_parent_components 5 sample_store prototype = Ok []).
Proof.
  apply (unresolved_parent_skipped 4 sample_store _ _ [] (str "Ghost") []
           (HStr "Ghost")); reflexivity.
Defined.

(** X9.  A cycle of parents ends in [RecursionError] at every depth: when
    each document of a set has a first parent that the store holds, that is
    in the set again and whose own components are collected without error,
    the collector raises [RecursionError] for every document of the set,
    whatever the depth allowed, and so does [sanitize_prototype] for one
    that has a [components] sequence. *)
Theorem cyclic_parents_overflow prototypes (cyclic : dict → Prop) :
  (∀ d, cyclic d →
     ∃ parent_id parents k parent direct,
       parents_of d = Some (parent_id :: parents) ∧
       hash_of parent_id = Hashable k ∧
       store_get prototypes k = Some parent ∧
       cyclic parent ∧
       direct_entries parent = Ok direct) →
  ∀ fuel d, cyclic d →
    get_all_parent_components fuel prototypes d = Raise RecursionError ∧
    ∀ cls comps, dict_get d "components" = Some (VList cls comps) →
             sanitize_prototype fuel prototypes d = Raise RecursionError.
Proof.
  intros Hcyc.
  assert (∀ fuel d, cyclic d →
            get_all_parent_components fuel prototypes d = Raise RecursionError) as Hall.
  { induction fuel as [|fuel IH]; intros d Hd; [done|].
    destruct (Hcyc d Hd) as (pid & ps & k & parent & direct & Hp & Hh & Hget & Hc & Hdir).
    simpl. rewrite Hp. simpl. rewrite Hh, Hget, direct_components_entries, Hdir. simpl.
    by rewrite (IH parent Hc). }
  intros fuel d Hd. split; [by apply Hall|].
  intros cls comps Hcomps. rewrite (sanitize_prototype_components _ _ _ _ Hcomps).
  by rewrite (Hall fuel d Hd).
Qed.

Lemma cyclic_parents_overflow_witness :
  let d := entity "A" [("parent", str "A")] [cmap sprite_path] in
  get_all_parent_components 1000 [(HStr "A", d)] d = Raise RecursionError ∧
  ∀ cls comps, dict_get d "components" = Some (VList cls comps) →
           sanitize_prototype 1000 [(HStr "A", d)] d = Raise RecursionError.
Proof.
  intros d.
  apply (cyclic_parents_overflow [(HStr "A", d)] (λ d', d' = d)); [|reflexivity].
  intros d' ->. exists (str "A"), [], (HStr "A"), d, [(HStr "Sprite", sprite_path)].
  repeat split; reflexivity.
Defined.

(** X10.  The [components] of a parent must be iterable: when the first
    parent of a prototype is in the store and its [components] is a value
    that cannot be iterated ([None], a number, a boolean), the collector and
    [sanitize_prototype] raise [TypeError]; the same value as the
    [components] of the target itself is let through, and the target comes
    back with its keys ordered. *)
Theorem parent_components_not_iterable fuel prototypes (prototype parent : dict)
    parent_id parents k comps :
  parents_of prototype = Some (parent_id :: parents) →
  hash_of parent_id = Hashable k →
  store_get prototypes k = Some parent →
  dict_get parent "components" = Some comps →
  py_iter comps = Raise TypeError →
  get_all_parent_components (S fuel) prototypes prototype = Raise TypeError ∧
  (∀ cls own, dict_get prototype "components" = Some (VList cls own) →
          sanitize_prototype (S fuel) prototypes prototype = Raise TypeError) ∧
  sanitize_prototype (S fuel) prototypes parent = Ok (_order_prototype_fields parent).
Proof.
  intros Hp Hh Hget Hcomps Hiter.
  assert (get_all_parent_components (S fuel) prototypes prototype = Raise TypeError) as Hc.
  { simpl. rewrite Hp. simpl. by rewrite Hh, Hget, Hcomps, Hiter. }
  split; [done|]. split.
  - intros cls own Hown. by rewrite (sanitize_prototype_components _ _ _ _ Hown), Hc.
  - unfold sanitize_prototype, deepcopy. rewrite Hcomps.
    by destruct comps as [? []| | | |].
Qed.

Lemma parent_components_not_iterable_witness :
  let parent := [("type", str "entity"); ("id", str "A");
                 ("components", VScalar "NoneType" PNone)] in
  let prototype := entity "P" [("parent", str "A")] [cmap sprite_path] in
  get_all_parent_components 2 [(HStr "A", parent)] prototype = Raise TypeError ∧
  (∀ cls own, dict_get prototype "components" = Some (VList cls own) →
          sanitize_prototype 2 [(HStr "A", parent)] prototype = Raise TypeError) ∧
  sanitize_prototype 2 [(HStr "A", parent)] parent = Ok (_order_prototype_fields parent).
Proof.
  intros parent prototype.
  apply (parent_components_not_iterable 1 [(HStr "A", parent)] prototype parent
           (str "A") [] (HStr "A") (VScalar "NoneType" PNone)); reflexivity.
Defined.

(** X11.  Without a cycle the collector does not run out of depth: when a
    rank goes down from every document of the store to each of its parents
    in the store, and the parents of the prototype are of rank below [n],
    every depth above [n] is enough. *)
Theorem acyclic_parents_no_overflow prototypes (rank : hkey → nat) n fuel prototype :
  (∀ k d, store_get prototypes k = Some d → ranked prototypes rank (rank k) d) →
  ranked prototypes rank n prototype →
  n < fuel →
  get_all_parent_components fuel prototypes prototype ≠ Raise RecursionError.
Proof. intros Hstore Hr Hn. by eapply collector_enough_fuel. Qed.

Lemma acyclic_parents_no_overflow_witness :
  get_all_parent_components 5 sample_store (entity "P" [("parent", str "A")] [])
  ≠ Raise RecursionError.
Proof.
  apply (acyclic_parents_no_overflow sample_store sample_rank 4 5).
  - intros k d Hget parents pid k' Hp Hin Hh _. simpl in Hget.
    repeat case_decide; try done; subst k; injection Hget as <-;
      injection Hp as <-; try (by apply elem_of_nil in Hin);
      apply list_elem_of_singleton in Hin as ->; injection Hh as <-;
      vm_compute; lia.
  - intros parents pid k' Hp Hin Hh _. injection Hp as <-.
    apply list_elem_of_singleton in Hin as ->. injection Hh as <-. vm_compute. lia.
  - lia.
Defined.

(** ** The eliminator *)

Lemma component_outcome_stripped idx component v :
  component_outcome idx component = Ok (Keep v) → stripped_from component v.
Proof.
  destruct component as [cls p|cls tag p|cls|lcls items|dcls c];
    try (intros [= <-]; by left).
  intros (R & -> & HR & _)%component_outcome_Keep. right.
  exists dcls, c, (filter (λ kv, kv.1 ∉ R) c). split; [done|]. split; [done|].
  split; [apply sublist_filter|].
  apply dict_get_filter_notin. rewrite HR. apply marked_not_type.
Qed.

Lemma outcomes_embedding idx comps out :
  outcomes idx comps = Ok out →
  ∃ kept, kept `sublist_of` comps ∧ Forall2 stripped_from kept out.
Proof.
  revert out. induction comps as [|c comps IH]; intros out; simpl.
  - intros [= <-]. exists []. split; [done|constructor].
  - intros (o & Ho & (out' & Hout & [= <-])%bind_Ok)%bind_Ok.
    destruct (IH out' Hout) as (kept & Hsub & Hall).
    destruct o as [v|]; simpl.
    + exists (c :: kept). split; [by apply sublist_skip|].
      constructor; [by eapply component_outcome_stripped|done].
    + exists kept. split; [by apply sublist_cons|done].
Qed.



(** X13.  [sanitize_prototype] adds nothing to [components] and keeps its
    order: the components of the result are, in order, what is made of a
    subsequence of the components of the prototype, each either as it was
    or a mapping with the same [type] and some of its fields, in their
    order and with their values; a [components] that is not a sequence
    stays as it is. *)
Theorem sanitize_only_removes fuel prototypes (prototype sanitized : dict) :
  NoDup (keys prototype) →
  sanitize_prototype fuel prototypes prototype = Ok sanitized →
  match dict_get prototype "components" with
  | Some (VList cls comps) =>
      ∃ kept out,
        dict_get sanitized "components" = Some (VList cls out) ∧
        kept `sublist_of` comps ∧ Forall2 stripped_from kept out
  | other => dict_get sanitized "components" = other
  end.
Proof.
  intros Hnd Hsan. unfold sanitize_prototype, deepcopy in Hsan.
  destruct (dict_get prototype "components") as [comps0|] eqn:Hc.
  2:{ injection Hsan as <-. by rewrite dict_get_order. }
  destruct comps0 as [| | |lcls comps|];
    try (injection Hsan as <-; by rewrite dict_get_order).
  apply bind_Ok in Hsan as (idx & _ & Hsan).
  apply bind_Ok in Hsan as (out & Hout & [= <-]).
  rewrite scan_outcome_spec in Hout.
  destruct (outcomes_embedding _ _ _ Hout) as (kept & Hsub & Hall).
  exists kept, out. split; [|done].
  rewrite dict_get_order by (by erewrite dict_set_keys).
  by rewrite dict_get_set, decide_True.
Qed.

Lemma sanitize_only_removes_witness :
  let prototype :=
    entity "P" [("parent", str "A")] [cmap sprite_both; str "note"; cmap sprite_path] in
  ∃ kept out,
    dict_get [("type", str "entity"); ("parent", str "A"); ("id", str "P");
              ("components", cseq [cmap sprite_bare; str "note"])] "components"
      = Some (cseq out) ∧
    kept `sublist_of` [cmap sprite_both; str "note"; cmap sprite_path] ∧
    Forall2 stripped_from kept out.
Proof.
  intros prototype.
  apply (sanitize_only_removes 4 sample_store prototype).
  - apply (bool_decide_unpack _). by vm_compute.
  - by vm_compute.
Defined.

(** X14.  A component whose [type] is a sequence or a mapping makes
    [sanitize_prototype] raise [TypeError] (the type is looked up in a
    [dict]), whether or not the prototype has any ancestor, when the scan
    reaches it. *)
Theorem unhashable_type_raises fuel prototypes (prototype : dict)
    (before after : list value) lcls cls (c : dict) comp_type idx scanned :
  dict_get prototype "components" =
    Some (VList lcls (before ++ VDict cls c :: after)) →
  get_all_parent_components fuel prototypes prototype = Ok idx →
  sanitize_components idx before = Ok scanned →
  dict_get c "type" = Some comp_type →
  hash_of comp_type = Unhashable →
  sanitize_prototype fuel prototypes prototype = Raise TypeError.
Proof.
  intros Hc Hidx Hbefore Ht Hh.
  rewrite (sanitize_prototype_components _ _ _ _ Hc), Hidx. simpl.
  rewrite sanitize_components_app, Hbefore. simpl.
  change (VDict cls c :: after) with ([VDict cls c] ++ after).
  rewrite sanitize_components_app, sanitize_components_one. simpl.
  by rewrite Ht, Hh.
Qed.

Lemma unhashable_type_raises_witness :
  sanitize_prototype 1 []
    (entity "P" [] [str "note"; cmap [("type", cseq [str "Sprite"])]])
  = Raise TypeError.
Proof.
  apply (unhashable_type_raises 1 [] _ [str "note"] [] CommentedSeq CommentedMap
           [("type", cseq [str "Sprite"])] (cseq [str "Sprite"]) [] [str "note"]);
    reflexivity.
Defined.

Lemma outcomes_no_ancestors idx comps :
  (∀ cls c comp_type, VDict cls c ∈ comps → dict_get c "type" = Some comp_type →
     match hash_of comp_type with
     | Hashable k => index_get idx k = None
     | ById => True
     | Unhashable => False
     end) →
  outcomes idx comps = Ok comps.
Proof.
  induction comps as [|comp comps IH]; intros Hall; simpl; [done|].
  assert (component_outcome idx comp = Ok (Keep comp)) as ->.
  { destruct comp as [| | | |dcls c]; try done. simpl.
    destruct (dict_get c "type") as [t|] eqn:Ht; [|done].
    specialize (Hall dcls c t ltac:(left) Ht).
    destruct (hash_of t) as [k'| |]; [|done..]. by rewrite Hall. }
  simpl. rewrite IH; [done|]. intros cls c t Hin. apply (Hall cls). by right.
Qed.

(** X15.  A prototype none of whose component types is a key of the index
    (no parent, no parent in the store, other types than the ancestors')
    comes back as it is, with its keys ordered. *)
Theorem nothing_inherited_only_orders fuel prototypes (prototype : dict) lcls comps idx :
  dict_get prototype "components" = Some (VList lcls comps) →
  get_all_parent_components fuel prototypes prototype = Ok idx →
  (∀ cls c comp_type, VDict cls c ∈ comps → dict_get c "type" = Some comp_type →
     match hash_of comp_type with
     | Hashable k => index_get idx k = None
     | ById => True
     | Unhashable => False
     end) →
  sanitize_prototype fuel prototypes prototype = Ok (_order_prototype_fields prototype).
Proof.
  intros Hc Hidx Hall.
  rewrite (sanitize_prototype_components _ _ _ _ Hc), Hidx. simpl.
  rewrite scan_outcome_spec, outcomes_no_ancestors by done. simpl.
  by rewrite dict_set_same.
Qed.

Lemma nothing_inherited_only_orders_witness :
  let prototype :=
    [("id", str "P"); ("components", cseq [cmap sprite_both; str "note"]);
     ("type", str "entity")] in
  sanitize_prototype 1 sample_store prototype = Ok (_order_prototype_fields prototype).
Proof.
  intros prototype.
  apply (nothing_inherited_only_orders 1 sample_store prototype CommentedSeq
           [cmap sprite_both; str "note"] []); [reflexivity..|].
  intros cls c t [Hc|Hin]%elem_of_cons.
  - injection Hc as -> ->. intros [= <-]. reflexivity.
  - apply list_elem_of_singleton in Hin. discriminate Hin.
Defined.

(** ** The field stripper *)

Lemma marked_Permutation c parents parents' k :
  parents ≡ₚ parents' → marked c parents k → marked c parents' k.
Proof.
  intros Hp (pc & kv & Hpc & Hrest). exists pc, kv. split; [|done]. by rewrite <-Hp.
Qed.

Lemma remove_redundant_fields_determined c parents parents' r :
  (∀ pc, pc ∈ parents ↔ pc ∈ parents') →
  _remove_redundant_fields c parents = Ok r →
  _remove_redundant_fields c parents' = Ok r.
Proof.
  intros Hsame (R & -> & HR & Hall)%remove_redundant_fields_Ok.
  destruct (scan_parents_total c parents' ∅) as [R' HR'].
  { intros pc kv Hpc Hkv. apply Hall; [by apply Hsame|done]. }
  unfold _remove_redundant_fields. rewrite HR'. simpl. f_equal.
  rewrite delete_fields_filter. apply scan_parents_Ok in HR' as [_ HR'].
  assert (R' = R) as ->; [|done].
  apply set_eq. intros k. rewrite HR', HR. split.
  - intros [H%not_elem_of_empty|(pc & kv & Hpc & Hrest)]; [done|].
    exists pc, kv. split; [by apply Hsame|done].
  - intros (pc & kv & Hpc & Hrest). right. exists pc, kv. split; [by apply Hsame|done].
Qed.

Lemma whole_redundant_determined c parents parents' :
  (∀ pc, pc ∈ parents ↔ pc ∈ parents') →
  whole_redundant c parents = whole_redundant c parents'.
Proof.
  intros Hsame. apply eq_true_iff_eq. rewrite !whole_redundant_true. split.
  - intros (anc & Hin & Heq). exists anc. split; [by apply Hsame|done].
  - intros (anc & Hin & Heq). exists anc. split; [by apply Hsame|done].
Qed.

(** X16.  What is done to a component depends on which ancestors'
    components there are, not on their order nor on how often each
    occurs: for two sequences with the same members the whole-component
    check gives the same answer and the field stripper the same mapping. *)
Theorem ancestor_order_immaterial (c : dict) (parents parents' : list dict) :
  (∀ pc, pc ∈ parents ↔ pc ∈ parents') →
  whole_redundant c parents = whole_redundant c parents' ∧
  ∀ r, _remove_redundant_fields c parents = Ok r →
       _remove_redundant_fields c parents' = Ok r.
Proof.
  intros Hsame. split; [by apply whole_redundant_determined|].
  intros r. by apply remove_redundant_fields_determined.
Qed.

Lemma ancestor_order_immaterial_witness :
  whole_redundant sprite_both [sprite_path; sprite_color]
    = whole_redundant sprite_both [sprite_color; sprite_path; sprite_color] ∧
  ∀ r, _remove_redundant_fields sprite_both [sprite_path; sprite_color] = Ok r →
       _remove_redundant_fields sprite_both [sprite_color; sprite_path; sprite_color] = Ok r.
Proof.
  apply (ancestor_order_immaterial sprite_both [sprite_path; sprite_color]
           [sprite_color; sprite_path; sprite_color]).
  intros pc. rewrite !elem_of_cons. tauto.
Defined.

(** X17.  The field stripper returns a mapping that it leaves alone: what
    it returns has the [type] and some of the fields of the component, in
    their order, and stripping it again against the same parents returns
    it unchanged. *)
Theorem remove_redundant_fields_idempotent (c r : dict) (parents : list dict) :
  _remove_redundant_fields c parents = Ok r →
  r `sublist_of` c ∧
  dict_get r "type" = dict_get c "type" ∧
  _remove_redundant_fields r parents = Ok r.
Proof.
  intros (R & -> & HR & Hall)%remove_redundant_fields_Ok.
  split; [apply sublist_filter|]. split.
  { apply dict_get_filter_notin. rewrite HR. apply marked_not_type. }
  apply remove_redundant_fields_unmatched.
  intros anc kv Hanc [HkR Hkv]%list_elem_of_filter.
  destruct (Hall anc kv Hanc Hkv) as [[] Hb]; [|done].
  destruct HkR. apply HR. by exists anc, kv.
Qed.

Lemma remove_redundant_fields_idempotent_witness :
  sprite_color `sublist_of` sprite_both ∧
  dict_get sprite_color "type" = dict_get sprite_both "type" ∧
  _remove_redundant_fields sprite_color [sprite_path] = Ok sprite_color.
Proof.
  apply (remove_redundant_fields_idempotent sprite_both sprite_color [sprite_path]).
  by vm_compute.
Defined.

(** X18.  A field whose value differs from the ancestor's in its runtime
    class only, as a quoted and an unquoted scalar of the same text under
    [preserve_quotes], is not redundant: the component is not equal to the
    ancestor's and the stripper keeps the field. *)
Theorem quoting_style_not_redundant (key cls1 cls2 : string) (p : prim) (t1 t2 : value) :
  key ≠ "type" → cls1 ≠ cls2 →
  let c := [("type", t1); (key, VScalar cls1 p)] in
  let anc := [("type", t2); (key, VScalar cls2 p)] in
  _compare_values (VScalar cls1 p) (VScalar cls2 p) = Ok false ∧
  are_components_equal c anc = false ∧
  _remove_redundant_fields c [anc] = Ok c.
Proof.
  intros Hkey Hcls c anc.
  assert (_compare_values (VScalar cls1 p) (VScalar cls2 p) = Ok false) as Hcmp.
  { by rewrite compare_scalars, bool_decide_eq_false_2. }
  assert (∀ kv, kv ∈ c → field_matches anc kv = Ok false) as Hnone.
  { intros kv [->|[->|H]%elem_of_cons]%elem_of_cons; [done| |by apply elem_of_nil in H].
    unfold field_matches. simpl. rewrite bool_decide_eq_false_2 by done.
    rewrite decide_False by done. rewrite decide_True by done. exact Hcmp. }
  split; [done|]. split.
  - apply unmatched_not_equal; [done|]. unfold c, comp_data.
    rewrite filter_cons_False by (simpl; by intros H).
    rewrite filter_cons_True by done. done.
  - apply remove_redundant_fields_unmatched.
    intros pc kv ->%list_elem_of_singleton. apply Hnone.
Qed.

Lemma quoting_style_not_redundant_witness :
  let c := [("type", str "Sprite"); ("path", VScalar "DoubleQuotedScalarString" (PStr "x"))] in
  let anc := [("type", str "Sprite"); ("path", VScalar "str" (PStr "x"))] in
  _compare_values (VScalar "DoubleQuotedScalarString" (PStr "x")) (VScalar "str" (PStr "x"))
    = Ok false ∧
  are_components_equal c anc = false ∧
  _remove_redundant_fields c [anc] = Ok c.
Proof.
  apply (quoting_style_not_redundant "path" "DoubleQuotedScalarString" "str" (PStr "x")
           (str "Sprite") (str "Sprite")); done.
Defined.

(** ** The field orderer *)

(** X19.  Ordering the top-level keys changes no lookup and is idempotent:
    every key has in the ordered document the value that it had, and
    ordering an ordered document returns it as it is. *)
Theorem order_prototype_fields_stable (document : dict) :
  NoDup (keys document) →
  (∀ k, dict_get (_order_prototype_fields document) k = dict_get document k) ∧
  _order_prototype_fields (_order_prototype_fields document) =
  _order_prototype_fields document.
Proof.
  intros Hnd. split; [intros k; by apply dict_get_order|by apply order_idempotent].
Qed.

Lemma order_prototype_fields_stable_witness :
  let document := [("id", str "P"); ("zeta", str "z"); ("type", str "entity")] in
  (∀ k, dict_get (_order_prototype_fields document) k = dict_get document k) ∧
  _order_prototype_fields (_order_prototype_fields document) =
  _order_prototype_fields document.
Proof.
  apply (order_prototype_fields_stable _).
  apply (bool_decide_unpack _). by vm_compute.
Defined.

(** ** A component that an ancestor has *)

Lemma concat_m_intro {A B} (f : A → result (list B)) l r x :
  concat_m f l = Ok r → x ∈ l → ∃ ys, f x = Ok ys ∧ ∀ y, y ∈ ys → y ∈ r.
Proof.
  revert r. induction l as [|x' l IH]; intros r; simpl.
  - intros _ H. by apply elem_of_nil in H.
  - intros (ys & Hys & (rest & Hrest & [= <-])%bind_Ok)%bind_Ok [->|Hx]%elem_of_cons.
    + exists ys. split; [done|]. intros y Hy. apply elem_of_app. by left.
    + destruct (IH rest Hrest Hx) as (ys' & Hf & Hsub). exists ys'. split; [done|].
      intros y Hy. apply elem_of_app. right. by apply Hsub.
Qed.

(** The typed components of a parent that the store holds are in the index. *)
Lemma direct_component_in_index fuel prototypes (prototype parent : dict)
    parents parent_id k0 comps comps' pcls (c : dict) comp_type k idx :
  parents_of prototype = Some parents → parent_id ∈ parents →
  hash_of parent_id = Hashable k0 → store_get prototypes k0 = Some parent →
  dict_get parent "components" = Some comps → py_iter comps = Ok comps' →
  VDict pcls c ∈ comps' → dict_get c "type" = Some comp_type →
  hash_of comp_type = Hashable k →
  get_all_parent_components (S fuel) prototypes prototype = Ok idx →
  ∃ parent_comps, index_get idx k = Some parent_comps ∧ c ∈ parent_comps.
Proof.
  intros Hp Hpid Hh Hget Hcomps Hiter Hc Ht Hk.
  rewrite collector_entries. simpl. rewrite Hp.
  intros (entries & Hentries & [= <-])%bind_Ok.
  destruct (concat_m_intro _ _ _ _ Hentries Hpid) as (es & Hes & Hsub).
  rewrite Hh, Hget in Hes.
  apply bind_Ok in Hes as (direct & Hdirect & Hes).
  apply bind_Ok in Hes as (inherited & _ & [= <-]).
  unfold direct_entries in Hdirect. rewrite Hcomps, Hiter in Hdirect. simpl in Hdirect.
  destruct (concat_m_intro _ _ _ _ Hdirect Hc) as (ys & Hys & Hsub').
  simpl in Hys. rewrite Ht, Hk in Hys. injection Hys as <-.
  assert ((k, c) ∈ entries) as Hin.
  { apply Hsub, elem_of_app. left. apply Hsub'. left. }
  apply elem_of_entries_of_type in Hin.
  rewrite index_get_file_into. simpl.
  destruct (entries_of_type k entries) as [|e es'] eqn:E;
    [by apply elem_of_nil in Hin|].
  by eexists.
Qed.

Lemma are_components_equal_refl {cls} (c : dict) :
  wf_value (VDict cls c) = true → opaque_free (VDict cls c) = true →
  are_components_equal c c = true.
Proof.
  intros Hwf Hfree. apply are_components_equal_true.
  destruct (comp_data c) as [|kv d] eqn:E; [by left|]. right.
  split; [done|]. split; [done|]. rewrite <-E.
  simpl in Hwf, Hfree. apply andb_true_iff in Hwf as [Hnd%bool_decide_eq_true Hwf].
  rewrite forallb_forall in Hwf, Hfree.
  apply compare_values_refl; simpl.
  - apply andb_true_iff. split.
    + apply bool_decide_eq_true. unfold keys, comp_data in *.
      eapply sublist_NoDup; [exact Hnd|]. apply fmap_sublist, sublist_filter.
    + apply forallb_forall. intros kv' [_ Hin]%list_elem_of_In%list_elem_of_filter.
      apply Hwf. by apply list_elem_of_In.
  - apply forallb_forall. intros kv' [_ Hin]%list_elem_of_In%list_elem_of_filter.
    apply Hfree. by apply list_elem_of_In.
Qed.

(** X20.  Whole-component removal: a component of the target that has the
    items of a component of one of its parents in the store is removed, at
    whatever place it stands.  (The component has each key once, holds no
    object whose [__eq__] raises nor, as every value of the embedding, a
    floating-point NaN, and its type can be hashed.) *)
Theorem identical_component_removed fuel prototypes (prototype parent : dict)
    parents parent_id k0 comps comps' pcls cls (c : dict) comp_type k idx :
  parents_of prototype = Some parents → parent_id ∈ parents →
  hash_of parent_id = Hashable k0 → store_get prototypes k0 = Some parent →
  dict_get parent "components" = Some comps → py_iter comps = Ok comps' →
  VDict pcls c ∈ comps' → dict_get c "type" = Some comp_type →
  hash_of comp_type = Hashable k →
  wf_value (VDict cls c) = true → opaque_free (VDict cls c) = true →
  get_all_parent_components (S fuel) prototypes prototype = Ok idx →
  sanitize_components idx [VDict cls c] = Ok [] ∧
  ∀ before after,
    sanitize_components idx (before ++ VDict cls c :: after) =
    sanitize_components idx (before ++ after).
Proof.
  intros Hp Hpid Hh Hget Hcomps Hiter Hc Ht Hk Hwf Hfree Hidx.
  destruct (direct_component_in_index _ _ _ _ _ _ _ _ _ _ _ _ _ _
              Hp Hpid Hh Hget Hcomps Hiter Hc Ht Hk Hidx) as (pcs & Hpcs & Hin).
  assert (sanitize_components idx [VDict cls c] = Ok []) as Hone.
  { rewrite sanitize_components_one. simpl. rewrite Ht, Hk, Hpcs.
    assert (whole_redundant c pcs = true) as ->; [|done].
    apply whole_redundant_true. exists c. split; [done|].
    by apply (are_components_equal_refl (cls:=cls)). }
  split; [done|]. intros before after.
  rewrite (sanitize_components_app idx before (VDict cls c :: after)).
  rewrite (sanitize_components_app idx before after).
  change (VDict cls c :: after) with ([VDict cls c] ++ after).
  rewrite (sanitize_components_app idx [VDict cls c] after), Hone. simpl.
  destruct (sanitize_components idx before) as [o1|e]; simpl; [|done].
  by destruct (sanitize_components idx after) as [o2|e].
Qed.

Lemma identical_component_removed_witness :
  let idx := [(HStr "Sprite", [sprite_color; sprite_bare])] in
  sanitize_components idx [cmap sprite_color] = Ok [] ∧
  ∀ before after,
    sanitize_components idx (before ++ cmap sprite_color :: after) =
    sanitize_components idx (before ++ after).
Proof.
  apply (identical_component_removed 3 sample_store
           (entity "P" [("parent", str "B")] [cmap sprite_color])
           (entity "B" [("parent", str "D")] [cmap sprite_color])
           [str "B"] (str "B") (HStr "B") (cseq [cmap sprite_color])
           [cmap sprite_color] CommentedMap CommentedMap sprite_color
           (str "Sprite") (HStr "Sprite"));
    try reflexivity; left.
Defined.

(** ** [get_component_from_parent] *)

Lemma find_component_Some comps comp_type found :
  find_component comps comp_type = Ok (Some found) →
  ∃ before after,
    comps = before ++ found :: after ∧
    has_type found comp_type = Ok true ∧
    ∀ x, x ∈ before → has_type x comp_type = Ok false.
Proof.
  induction comps as [|comp comps IH]; simpl; [done|].
  destruct (has_type comp comp_type) as [[]|e] eqn:E; simpl; [| |done].
  - intros [= <-]. exists [], comps. split; [done|]. split; [done|].
    intros x H. by apply elem_of_nil in H.
  - intros (before & after & -> & Hf & Hb)%IH.
    exists (comp :: before), after. split; [done|]. split; [done|].
    intros x [->|Hx]%elem_of_cons; [done|by apply Hb].
Qed.

Lemma find_component_None comps comp_type :
  find_component comps comp_type = Ok None ↔
  ∀ x, x ∈ comps → has_type x comp_type = Ok false.
Proof.
  induction comps as [|comp comps IH]; simpl.
  - split; [|done]. intros _ x H. by apply elem_of_nil in H.
  - destruct (has_type comp comp_type) as [[]|e] eqn:E; simpl.
    + split; [done|]. intros H. by rewrite (H comp) in E by left.
    + rewrite IH. split.
      * intros H x [->|Hx]%elem_of_cons; [done|by apply H].
      * intros H x Hx. apply H. by right.
    + split; [done|]. intros H. by rewrite (H comp) in E by left.
Qed.

(** X21.  [get_component_from_parent] returns the first component of the
    parent that is a mapping with the given type, and nothing when the
    parent has no [components] or none of them has the type. *)
Theorem get_component_from_parent_first (parent : dict) (comp_type : string) :
  (dict_get parent "components" = None →
   get_component_from_parent parent comp_type = Ok None) ∧
  (∀ found,
     get_component_from_parent parent comp_type = Ok (Some found) →
     ∃ comps before after,
       dict_get parent "components" = Some comps ∧
       py_iter comps = Ok (before ++ found :: after) ∧
       has_type found comp_type = Ok true ∧
       ∀ x, x ∈ before → has_type x comp_type = Ok false) ∧
  (∀ comps comps',
     dict_get parent "components" = Some comps → py_iter comps = Ok comps' →
     (get_component_from_parent parent comp_type = Ok None ↔
      ∀ x, x ∈ comps' → has_type x comp_type = Ok false)).
Proof.
  unfold get_component_from_parent. split; [by intros ->|]. split.
  - intros found. destruct (dict_get parent "components") as [comps|]; [|done].
    intros (comps' & Hiter & (before & after & -> & Hf & Hb)%find_component_Some)%bind_Ok.
    by exists comps, before, after.
  - intros comps comps' -> ->. simpl. apply find_component_None.
Qed.

Lemma get_component_from_parent_first_witness :
  let parent := entity "A" [] [str "note"; cmap sprite_color; cmap sprite_path] in
  ∃ comps before after,
    dict_get parent "components" = Some comps ∧
    py_iter comps = Ok (before ++ cmap sprite_color :: after) ∧
    has_type (cmap sprite_color) "Sprite" = Ok true ∧
    ∀ x, x ∈ before → has_type x "Sprite" = Ok false.
Proof.
  intros parent.
  apply (proj1 (proj2 (get_component_from_parent_first parent "Sprite"))).
  reflexivity.
Defined.

Lemma has_type_true comp comp_type :
  has_type comp comp_type = Ok true →
  ∃ cls d, comp = VDict cls d ∧ typed_entry comp = Ok [(HStr comp_type, d)].
Proof.
  destruct comp as [| | | |dcls d]; simpl; try done.
  destruct (dict_get d "type") as [[cls p| | | |]|]; simpl; try done.
  unfold prim_eqb. intros [= Hp%bool_decide_eq_true]. simpl in Hp.
  rewrite Hp. by exists dcls, d.
Qed.

Lemma has_type_false_entries comp comp_type es :
  has_type comp comp_type = Ok false → typed_entry comp = Ok es →
  entries_of_type (HStr comp_type) es = [].
Proof.
  destruct comp as [| | | |dcls d]; simpl; try by intros _ [= <-].
  destruct (dict_get d "type") as [[cls p| | | |]|]; simpl;
    try done; try by intros _ [= <-].
  unfold prim_eqb. intros [= Hp%bool_decide_eq_false] [= <-]. simpl in Hp.
  unfold entries_of_type. rewrite filter_cons, filter_nil. simpl.
  by rewrite decide_False.
Qed.

Lemma no_type_entries_before before comp_type r :
  (∀ x, x ∈ before → has_type x comp_type = Ok false) →
  concat_m typed_entry before = Ok r →
  entries_of_type (HStr comp_type) r = [].
Proof.
  revert r. induction before as [|x before IH]; intros r Hb; simpl.
  - by intros [= <-].
  - intros (ys & Hys & (rest & Hrest & [= <-])%bind_Ok)%bind_Ok.
    rewrite entries_of_type_app.
    rewrite (has_type_false_entries x comp_type ys), (IH rest); try done.
    + intros x' Hx'. apply Hb. by right.
    + apply Hb. left.
Qed.

(** X22.  What [get_component_from_parent] finds in the first parent of a
    prototype is the first candidate that the collector files under that
    type: the lookup and the parent index agree on which component of the
    nearest parent comes first. *)
Theorem get_component_heads_index fuel prototypes (prototype parent : dict)
    parent_id others k0 (comp_type : string) found idx :
  parents_of prototype = Some (parent_id :: others) →
  hash_of parent_id = Hashable k0 → store_get prototypes k0 = Some parent →
  get_component_from_parent parent comp_type = Ok (Some found) →
  get_all_parent_components (S fuel) prototypes prototype = Ok idx →
  ∃ cls d later,
    found = VDict cls d ∧ index_get idx (HStr comp_type) = Some (d :: later).
Proof.
  intros Hp Hh Hget Hfound. rewrite collector_entries. simpl. rewrite Hp. simpl.
  rewrite Hh, Hget. simpl.
  intros (es & Hes & [= <-])%bind_Ok.
  apply bind_Ok in Hes as (ys & Hys & (rest & _ & [= <-])%bind_Ok).
  apply bind_Ok in Hys as (direct & Hdirect & (inherited & _ & [= <-])%bind_Ok).
  unfold get_component_from_parent in Hfound. unfold direct_entries in Hdirect.
  destruct (dict_get parent "components") as [comps|]; [|done].
  apply bind_Ok in Hfound as (comps' & Hiter & Hfind).
  rewrite Hiter in Hdirect. simpl in Hdirect.
  apply find_component_Some in Hfind as (before & after & -> & Hf & Hb).
  apply has_type_true in Hf as (cls & d & -> & Hentry).
  rewrite concat_m_app in Hdirect.
  apply bind_Ok in Hdirect as (r1 & Hr1 & Hdirect).
  apply bind_Ok in Hdirect as (r2 & Hr2 & [= <-]).
  cbn [concat_m] in Hr2. rewrite Hentry in Hr2. simpl in Hr2.
  apply bind_Ok in Hr2 as (r3 & _ & [= <-]).
  rewrite index_get_file_into. simpl.
  rewrite !entries_of_type_app, (no_type_entries_before before comp_type r1 Hb Hr1).
  simpl. unfold entries_of_type at 1. rewrite filter_cons. simpl.
  rewrite decide_True by done. simpl. by eexists _, _, _.
Qed.

Lemma get_component_heads_index_witness :
  ∃ cls d later,
    cmap sprite_color = VDict cls d ∧
    index_get [(HStr "Sprite", [sprite_color; sprite_path])] (HStr "Sprite") =
      Some (d :: later).
Proof.
  apply (get_component_heads_index 3
           [(HStr "B", entity "B" [] [str "note"; cmap sprite_color; cmap sprite_path])]
           (entity "P" [("parent", str "B")] [])
           (entity "B" [] [str "note"; cmap sprite_color; cmap sprite_path])
           (str "B") [] (HStr "B") "Sprite" (cmap sprite_color));
    reflexivity.
Defined.

(** ** [load_all_prototypes] *)

Lemma store_get_set k d prototypes k' :
  store_get (store_set k d prototypes) k' =
  if decide (k = k') then Some d else store_get prototypes k'.
Proof.
  induction prototypes as [|[k1 d1] rest IH]; simpl.
  - by destruct (decide (k = k')).
  - destruct (decide (k1 = k)) as [->|Hne]; simpl.
    + by destruct (decide (k = k')).
    + rewrite IH. destruct (decide (k1 = k')) as [->|]; [|done].
      by rewrite decide_False.
Qed.

Lemma load_prototype_entity k cls d prototypes :
  entity_with_id k d →
  load_prototype prototypes (VDict cls d) = Ok (store_set k d prototypes).
Proof.
  intros [(t & Htype & Ht) (id & Hid & Hk)]. unfold load_prototype.
  rewrite Htype, Ht. simpl. by rewrite Hid, Hk.
Qed.

Lemma load_prototype_other k prototype prototypes prototypes' :
  (∀ cls d, prototype = VDict cls d → ¬ entity_with_id k d) →
  load_prototype prototypes prototype = Ok prototypes' →
  store_get prototypes' k = store_get prototypes k.
Proof.
  intros Hnot. destruct prototype as [| | | |dcls d]; simpl; try by intros [= <-].
  destruct (dict_get d "type") as [t|] eqn:Ht; simpl; [|by intros [= <-]].
  destruct (eq_str t "entity") as [[]|e] eqn:E; simpl; [|by intros [= <-]|done].
  destruct (dict_get d "id") as [id|] eqn:Hid; [|by intros [= <-]].
  destruct (hash_of id) as [k'| |] eqn:Hk; [|by intros [= <-]|done].
  intros [= <-]. rewrite store_get_set.
  destruct (decide (k' = k)) as [->|]; [|done].
  destruct (Hnot dcls d eq_refl). split; [by exists t|by exists id].
Qed.

Lemma load_documents_other k data prototypes :
  (∀ cls d, VDict cls d ∈ data → ¬ entity_with_id k d) →
  store_get (load_documents prototypes data).1 k = store_get prototypes k.
Proof.
  revert prototypes. induction data as [|x data IH]; intros prototypes Hnot; simpl; [done|].
  destruct (load_prototype prototypes x) as [prototypes'|e] eqn:E; simpl; [|done].
  rewrite IH by (intros cls d Hd; apply (Hnot cls); by right).
  apply (load_prototype_other k x); [|done].
  intros cls d ->. apply (Hnot cls). left.
Qed.

Lemma load_documents_app prototypes l1 l2 :
  load_documents prototypes (l1 ++ l2) =
  match load_documents prototypes l1 with
  | (prototypes1, None) => load_documents prototypes1 l2
  | stopped => stopped
  end.
Proof.
  revert prototypes. induction l1 as [|x l1 IH]; intros prototypes; simpl; [done|].
  by destruct (load_prototype prototypes x).
Qed.

Lemma load_all_prototypes_app prototypes f1 f2 :
  load_all_prototypes prototypes (f1 ++ f2) =
  load_all_prototypes (load_all_prototypes prototypes f1) f2.
Proof. apply foldl_app. Qed.

Lemma load_all_prototypes_other k files prototypes :
  (∀ lcls data cls d, Some (VList lcls data) ∈ files → VDict cls d ∈ data →
                      ¬ entity_with_id k d) →
  store_get (load_all_prototypes prototypes files) k = store_get prototypes k.
Proof.
  revert prototypes. induction files as [|f files IH]; intros prototypes Hnot; [done|].
  change (load_all_prototypes prototypes (f :: files))
    with (load_all_prototypes (load_file prototypes f) files).
  rewrite IH by (intros lcls data cls d Hd; apply (Hnot lcls); by right).
  destruct f as [[| | |lcls data|]|]; try done. simpl.
  apply load_documents_other. intros cls d. apply (Hnot lcls). left.
Qed.

(** X23.  The last definition of an id wins: when the documents of a file
    load without an exception up to and including an entity prototype with
    id [k], and no later document of that file or of a later file is an
    entity prototype with that id, the store maps [k] to that prototype. *)
Theorem load_last_definition_wins prototypes files1 files2 before after lcls cls k
    (d : dict) :
  entity_with_id k d →
  (load_documents (load_all_prototypes prototypes files1) before).2 = None →
  (∀ cls' d', VDict cls' d' ∈ after → ¬ entity_with_id k d') →
  (∀ lcls' data cls' d', Some (VList lcls' data) ∈ files2 → VDict cls' d' ∈ data →
                         ¬ entity_with_id k d') →
  store_get
    (load_all_prototypes prototypes
       (files1 ++ Some (VList lcls (before ++ VDict cls d :: after)) :: files2)) k
  = Some d.
Proof.
  intros Hd Hbefore Hafter Hlater.
  rewrite load_all_prototypes_app.
  change (load_all_prototypes ?st (?f :: files2))
    with (load_all_prototypes (load_file st f) files2).
  rewrite load_all_prototypes_other by done. simpl.
  rewrite load_documents_app.
  destruct (load_documents _ before) as [st1 [e|]]; [done|].
  cbn [load_documents]. rewrite (load_prototype_entity k) by done.
  rewrite load_documents_other by done.
  rewrite store_get_set. by rewrite decide_True.
Qed.

Lemma load_last_definition_wins_witness :
  store_get
    (load_all_prototypes sample_store
       ([Some (cseq [cmap (entity "B" [] [])])] ++
        Some (cseq ([cmap sprite_bare] ++
                    cmap (entity "B" [] [cmap sprite_path]) ::
                    [cmap (entity "E" [] [])])) ::
        [None; Some (cseq [cmap (entity "A" [] [])])])) (HStr "B") =
  Some (entity "B" [] [cmap sprite_path]).
Proof.
  apply load_last_definition_wins.
  - split; [by exists (str "entity")|by exists (str "B")].
  - reflexivity.
  - intros cls' d' [= -> ->]%list_elem_of_singleton [_ (id & Hid & Hk)].
    vm_compute in Hid. injection Hid as <-. discriminate Hk.
  - intros lcls' data cls' d' [[=]|[= -> ->]%list_elem_of_singleton]%elem_of_cons
      [= -> ->]%list_elem_of_singleton [_ (id & Hid & Hk)].
    vm_compute in Hid. injection Hid as <-. discriminate Hk.
Defined.

(** X24.  Documents that are not entity prototypes with id [k] leave the
    entry of [k] as it was, whatever else they store and wherever a file
    stops with an exception. *)
Theorem load_leaves_other_ids prototypes files k :
  (∀ lcls data cls d, Some (VList lcls data) ∈ files → VDict cls d ∈ data →
                      ¬ entity_with_id k d) →
  store_get (load_all_prototypes prototypes files) k = store_get prototypes k.
Proof. apply load_all_prototypes_other. Qed.

Lemma load_leaves_other_ids_witness :
  store_get
    (load_all_prototypes sample_store
       [Some (cseq [cmap (entity "E" [] []); cmap [("id", cseq [])]]);
        Some (str "B")]) (HStr "B") =
  store_get sample_store (HStr "B").
Proof.
  apply load_leaves_other_ids.
  intros lcls data cls d [[= -> ->]|[=]%list_elem_of_singleton]%elem_of_cons
    [[= -> ->]|[= -> ->]%list_elem_of_singleton]%elem_of_cons.
  - intros [_ (id & Hid & Hk)].
    vm_compute in Hid. injection Hid as <-. discriminate Hk.
  - intros [(t & Ht & _) _]. discriminate Ht.
Defined.

(** X25.  An exception inside a file ends that file only: the documents
    before the one that raises stay loaded, those after it are not looked
    at, and the files that follow are loaded as usual.  Here the document
    that raises is an entity prototype whose id cannot be hashed. *)
Theorem load_error_ends_file prototypes files1 files2 before after lcls cls
    (d : dict) t id :
  dict_get d "type" = Some t → eq_str t "entity" = Ok true →
  dict_get d "id" = Some id → hash_of id = Unhashable →
  load_all_prototypes prototypes
    (files1 ++ Some (VList lcls (before ++ VDict cls d :: after)) :: files2) =
  load_all_prototypes prototypes (files1 ++ Some (VList lcls before) :: files2).
Proof.
  intros Ht Heq Hid Hh. rewrite !load_all_prototypes_app.
  change (load_all_prototypes ?st (?f :: files2))
    with (load_all_prototypes (load_file st f) files2).
  f_equal. simpl. rewrite load_documents_app.
  destruct (load_documents _ before) as [st1 [e|]]; [done|]. simpl.
  by rewrite Ht, Heq, Hid, Hh.
Qed.

Lemma load_error_ends_file_witness :
  let bad := [("type", str "entity"); ("id", cseq [str "B"])] in
  load_all_prototypes []
    ([None] ++ Some (cseq ([cmap (entity "A" [] [])] ++ cmap bad ::
                           [cmap (entity "B" [] [])])) ::
     [Some (cseq [cmap (entity "D" [] [])])]) =
  load_all_prototypes []
    ([None] ++ Some (cseq [cmap (entity "A" [] [])]) ::
     [Some (cseq [cmap (entity "D" [] [])])]).
Proof.
  intros bad.
  apply (load_error_ends_file [] [None] _ _ _ CommentedSeq CommentedMap bad
           (str "entity") (cseq [str "B"]));
    reflexivity.
Defined.
